(** * Wind particle advection engine: zoom policy, field sampler, particle step

    Shallow embedding of the particle simulation of the HRRR weather
    visualisation:

    - [rn-components/SkiaWindParticles.tsx]: [getParticleCount],
      [getSpeedFactor], [getTrailLength], [initParticles],
      [updateParticles]                                   (module [Skia]);
    - the zoom-adaptive [DeckWindParticleLayer]: the same functions with a
      configurable base speed and viewport-restricted respawn (module [Deck]);
    - [hooks/useWindData.ts]: [decodeWindComponent], [getWindAtPixel],
      [getWindAtLatLng]                                   (module [Sampler]).

    Numbers.  A TypeScript [number] that holds a coordinate, a speed or a
    zoom level is modelled as an exact rational ([Q]); rounding of IEEE
    doubles is not modelled.  Bytes, pixel indices, grid dimensions, ages
    and counts are integers ([Z]).  [Math.floor] is [Qfloor].  Division by
    zero is never reached under the hypotheses the theorems state
    ([west < east], [south < north], positive dimensions where the code
    divides by them).

    Randomness.  [Math.random()] is an explicit stream of draws threaded
    through the code in the order the source evaluates its calls.

    The file gives the definitions first (the three modules, the step
    table of the specification in module [Table], the concrete inputs the
    code is run on), then the properties.

    Further modules embed the code around the engine: the rendering of
    [SkiaWindParticles.tsx] ([SkiaRender]), the layers, colours and two
    other variants of [DeckWindParticleLayer] ([DeckRender], [DeckBasic],
    [DeckPoints]), the particle count of the map page ([Page]), the
    helpers of [components/WindForecastPopup.tsx] ([Popup]), the
    cross-fade of [hooks/useDoubleBufferedRasterLayer.ts] ([Crossfade]),
    the layer switch of the preloaded raster layers ([Preloaded]), the
    mock field of the example screen ([Mock]) and the tile preloader
    ([Preloader]). *)

From Stdlib Require Import ZArith QArith Qround Qabs Lia Lqa List Bool Sorted.
From Stdlib Require String DecimalString.
Import ListNotations.

Local Open Scope Z_scope.
Local Open Scope Q_scope.

(** ** Numbers *)

(** [a < b] on JavaScript numbers, as a boolean. *)
Definition Qltb (a b : Q) : bool := negb (Qle_bool b a).

(** [a >= b]. *)
Definition Qgeb (a b : Q) : bool := Qle_bool b a.

(** [a > b]. *)
Definition Qgtb (a b : Q) : bool := Qltb b a.

(** [Math.floor]. *)
Definition floor (a : Q) : Z := Qfloor a.

(** [Math.max] and [Math.min] on rationals. *)
Definition Qmax (a b : Q) : Q := if Qle_bool a b then b else a.
Definition Qmin (a b : Q) : Q := if Qle_bool a b then a else b.

(** [Array.prototype.slice(0, end)] for an integral [end]: a negative [end]
    counts from the end of the array. *)
Definition slice0 {A : Type} (l : list A) (e : Z) : list A :=
  if (e <? 0)%Z
  then firstn (Z.to_nat (Z.max (Z.of_nat (length l) + e) 0)) l
  else firstn (Z.to_nat e) l.

(** Indexing a typed array: [None] is JavaScript's [undefined], the value of
    a read outside the buffer. *)
Definition byteAt (d : list Z) (i : Z) : option Z :=
  if (i <? 0)%Z then None else nth_error d (Z.to_nat i).

(** ** [Math.random] *)

(** The draws still to come; every call takes the head. *)
Definition Rng : Type := nat -> Q.

Definition random (g : Rng) : Q * Rng := (g 0%nat, fun n => g (S n)).

(** [Math.random()] returns a number in [[0, 1)]. *)
Definition unit_draws (g : Rng) : Prop := forall n, 0 <= g n /\ g n < 1.


(** A periodic source of draws, for running the code on concrete inputs. *)
Definition cycle (l : list Q) : Rng :=
  fun n => nth (n mod (length l)) l 0.

(** ** Data model *)

(** [bounds: { west, east, south, north }], degrees. *)
Record Bounds : Type := mkBounds {
  west : Q;
  east : Q;
  south : Q;
  north : Q
}.

(** The invariant of the data model: [west < east] and [south < north].
    The code divides by [east - west] and [north - south]; the embedding
    follows the code where these are not 0. *)
Definition properBounds (b : Bounds) : Prop :=
  west b < east b /\ south b < north b.

(** [HRRR_BOUNDS] of [useWindData.ts]: the approximate bounds of the HRRR
    grid over the continental United States. *)
Definition HRRR_BOUNDS : Bounds :=
  {| west := -134.1; east := -60.9; south := 21.1; north := 52.6 |}.

(** [forEach] over an array of particles whose callback draws random
    numbers: particles are visited in order and the source of draws is
    handed from one call to the next. *)
Fixpoint forEach {P : Type} (f : Rng -> P -> P * Rng) (g : Rng) (ps : list P)
  : list P * Rng :=
  match ps with
  | [] => ([], g)
  | p :: rest =>
      let (p', g1) := f g p in
      let (rest', g2) := forEach f g1 rest in
      (p' :: rest', g2)
  end.

(** ** [rn-components/SkiaWindParticles.tsx]: zoom policy and particle step *)

Module Skia.

(** [getParticleCount(zoom, baseCount)]. *)
Definition getParticleCount (zoom : Q) (baseCount : Z) : Z :=
  if Qltb zoom 4 then baseCount
  else if Qltb zoom 6 then floor (inject_Z baseCount * 0.5)
  else if Qltb zoom 8 then floor (inject_Z baseCount * 0.2)
  else if Qltb zoom 10 then floor (inject_Z baseCount * 0.08)
  else if Qltb zoom 12 then floor (inject_Z baseCount * 0.04)
  else floor (inject_Z baseCount * 0.025).

(** [getSpeedFactor(zoom)]. *)
Definition getSpeedFactor (zoom : Q) : Q :=
  if Qltb zoom 4 then 0.08
  else if Qltb zoom 6 then 0.06
  else if Qltb zoom 8 then 0.03
  else if Qltb zoom 10 then 0.015
  else if Qltb zoom 12 then 0.006
  else 0.002.

(** [getTrailLength(zoom, baseLength)]. *)
Definition getTrailLength (zoom : Q) (baseLength : Z) : Z :=
  if Qltb zoom 4 then baseLength
  else if Qltb zoom 6 then floor (inject_Z baseLength * 0.8)
  else if Qltb zoom 8 then floor (inject_Z baseLength * 0.6)
  else if Qltb zoom 10 then floor (inject_Z baseLength * 0.4)
  else if Qltb zoom 12 then floor (inject_Z baseLength * 0.25)
  else Z.max 3 (floor (inject_Z baseLength * 0.15)).

(** [interface WindData]: the grid dimensions, the RGBA bytes and the
    geographic bounds. *)
Record WindData : Type := mkWindData {
  width : Z;
  height : Z;
  data : list Z;
  bounds : Bounds
}.

(** A trail point [{ lng, lat }]. *)
Record GeoPoint : Type := mkGeoPoint {
  pt_lng : Q;
  pt_lat : Q
}.

(** [interface Particle]. *)
Record Particle : Type := mkParticle {
  id : Z;
  x : Q;
  y : Q;
  lng : Q;
  lat : Q;
  age : Z;
  maxAge : Z;
  trail : list GeoPoint
}.

(** What the component's callbacks close over: the props and the zoom read
    from the camera.  [None] is a [null] prop. *)
Record Props : Type := mkProps {
  windData : option WindData;
  mapBounds : option (Q * Q * (Q * Q));
  zoom : Q;
  baseParticleCount : Z;
  trailLength : Z;
  meanMaxAge : Z
}.

(** The body of the [for] loop of [initParticles]: one particle, four draws
    (longitude, latitude, age, maximal age). *)
Definition initParticle (wd : WindData) (maxAge0 : Z) (i : Z) (g : Rng)
  : Particle * Rng :=
  let b := bounds wd in
  let (r1, g1) := random g in
  let lng0 := west b + r1 * (east b - west b) in
  let (r2, g2) := random g1 in
  let lat0 := south b + r2 * (north b - south b) in
  let x0 := ((lng0 - west b) / (east b - west b)) * inject_Z (width wd) in
  let y0 := ((north b - lat0) / (north b - south b)) * inject_Z (height wd) in
  let (r3, g3) := random g2 in
  let (r4, g4) := random g3 in
  ({| id := i; x := x0; y := y0; lng := lng0; lat := lat0;
      age := floor (r3 * inject_Z maxAge0);
      maxAge := maxAge0 + floor (r4 * 30) - 15;
      trail := [ {| pt_lng := lng0; pt_lat := lat0 |} ] |}, g4).

(** [for (let i = 0; i < particleCount; i++)]: [n] iterations from index [i]. *)
Fixpoint initLoop (wd : WindData) (maxAge0 : Z) (n : nat) (i : Z) (g : Rng)
  : list Particle * Rng :=
  match n with
  | O => ([], g)
  | S n' =>
      let (p, g1) := initParticle wd maxAge0 i g in
      let (rest, g2) := initLoop wd maxAge0 n' (i + 1)%Z g1 in
      (p :: rest, g2)
  end.

(** [initParticles]: [None] when the callback returns early and leaves
    [particlesRef.current] as it was. *)
Definition initParticles (pr : Props) (g : Rng) : option (list Particle * Rng) :=
  match windData pr, mapBounds pr with
  | Some wd, Some _ =>
      let particleCount := getParticleCount (zoom pr) (baseParticleCount pr) in
      Some (initLoop wd (meanMaxAge pr) (Z.to_nat particleCount) 0%Z g)
  | _, _ => None
  end.

(** The first half of the [forEach] callback of [updateParticles]: look the
    pixel under the particle up and, when its alpha byte is positive, move
    the particle and grow its trail.  A read outside the buffer yields
    [undefined], for which [a > 0] is false; when the alpha byte is there,
    so are the red and green bytes before it. *)
Definition advect (wd : WindData) (speedFactor : Q) (currentTrailLength : Z)
    (p : Particle) : Particle :=
  let px := floor (x p) in
  let py := floor (y p) in
  if ((0 <=? px)%Z && (px <? width wd)%Z && (0 <=? py)%Z && (py <? height wd)%Z)%bool
  then
    let idx := ((py * width wd + px) * 4)%Z in
    match byteAt (data wd) idx, byteAt (data wd) (idx + 1)%Z,
          byteAt (data wd) (idx + 3)%Z with
    | Some r, Some g, Some a =>
        if (0 <? a)%Z then
          let u := (inject_Z r / 255) * 100 - 50 in
          let v := (inject_Z g / 255) * 100 - 50 in
          let x1 := x p + u * speedFactor in
          let y1 := y p - v * speedFactor in
          let b := bounds wd in
          let lng1 := west b + (x1 / inject_Z (width wd)) * (east b - west b) in
          let lat1 := north b - (y1 / inject_Z (height wd)) * (north b - south b) in
          let trail1 := {| pt_lng := lng1; pt_lat := lat1 |} :: trail p in
          let trail2 :=
            if (currentTrailLength <? Z.of_nat (length trail1))%Z
            then slice0 trail1 currentTrailLength
            else trail1 in
          {| id := id p; x := x1; y := y1; lng := lng1; lat := lat1;
             age := age p; maxAge := maxAge p; trail := trail2 |}
        else p
    | _, _, _ => p
    end
  else p.

(** [particle.age++]. *)
Definition grow (p : Particle) : Particle :=
  {| id := id p; x := x p; y := y p; lng := lng p; lat := lat p;
     age := (age p + 1)%Z; maxAge := maxAge p; trail := trail p |}.

(** The condition of the "Reset if needed" test. *)
Definition needsReset (wd : WindData) (p : Particle) : bool :=
  (maxAge p <? age p)%Z
  || Qltb (x p) 0 || Qgeb (x p) (inject_Z (width wd))
  || Qltb (y p) 0 || Qgeb (y p) (inject_Z (height wd)).

(** The body of the reset: three draws (longitude, latitude, maximal age). *)
Definition respawn (wd : WindData) (maxAge0 : Z) (g : Rng) (p : Particle)
  : Particle * Rng :=
  let b := bounds wd in
  let (r1, g1) := random g in
  let lng0 := west b + r1 * (east b - west b) in
  let (r2, g2) := random g1 in
  let lat0 := south b + r2 * (north b - south b) in
  let (r3, g3) := random g2 in
  ({| id := id p;
      x := ((lng0 - west b) / (east b - west b)) * inject_Z (width wd);
      y := ((north b - lat0) / (north b - south b)) * inject_Z (height wd);
      lng := lng0; lat := lat0;
      age := 0;
      maxAge := maxAge0 + floor (r3 * 30) - 15;
      trail := [ {| pt_lng := lng0; pt_lat := lat0 |} ] |}, g3).

(** The whole [forEach] callback. *)
Definition updateParticle (wd : WindData) (speedFactor : Q)
    (currentTrailLength : Z) (maxAge0 : Z) (g : Rng) (p : Particle)
  : Particle * Rng :=
  let p1 := grow (advect wd speedFactor currentTrailLength p) in
  if needsReset wd p1 then respawn wd maxAge0 g p1 else (p1, g).

(** [updateParticles]: one simulation tick over [particlesRef.current]. *)
Definition updateParticles (pr : Props) (g : Rng) (ps : list Particle)
  : list Particle * Rng :=
  match windData pr, mapBounds pr with
  | Some wd, Some _ =>
      let speedFactor := getSpeedFactor (zoom pr) in
      let currentTrailLength := getTrailLength (zoom pr) (trailLength pr) in
      forEach (updateParticle wd speedFactor currentTrailLength (meanMaxAge pr)) g ps
  | _, _ => (ps, g)
  end.

(** Consecutive ticks, one per element of [prs]: the props (and so the zoom)
    in force at each tick. *)
Fixpoint run (prs : list Props) (g : Rng) (ps : list Particle)
  : list Particle * Rng :=
  match prs with
  | [] => (ps, g)
  | pr :: rest =>
      let (ps1, g1) := updateParticles pr g ps in
      run rest g1 ps1
  end.

(** [n] ticks under the same props. *)
Definition steps (n : nat) (pr : Props) (g : Rng) (ps : list Particle)
  : list Particle * Rng :=
  run (repeat pr n) g ps.

(** The pixel position lies in [[0, width) x [0, height)]. *)
Definition inGrid (wd : WindData) (p : Particle) : Prop :=
  0 <= x p /\ x p < inject_Z (width wd) /\
  0 <= y p /\ y p < inject_Z (height wd).

Definition inGridb (wd : WindData) (p : Particle) : bool :=
  Qle_bool 0 (x p) && Qltb (x p) (inject_Z (width wd)) &&
  Qle_bool 0 (y p) && Qltb (y p) (inject_Z (height wd)).

(** The alpha byte the [forEach] callback reads for [p]: [None] when the
    floored position is outside the grid or the read is outside the buffer. *)
Definition alphaUnder (wd : WindData) (p : Particle) : option Z :=
  let px := floor (x p) in
  let py := floor (y p) in
  if ((0 <=? px)%Z && (px <? width wd)%Z && (0 <=? py)%Z && (py <? height wd)%Z)%bool
  then byteAt (data wd) ((py * width wd + px) * 4 + 3)%Z
  else None.

(** The sample under [p] is valid: the pixel is in range and [a > 0]. *)
Definition validSample (wd : WindData) (p : Particle) : bool :=
  match alphaUnder wd p with
  | Some a => (0 <? a)%Z
  | None => false
  end.

(** Every alpha byte of an RGBA buffer is [0]. *)
Fixpoint allAlphaZero (d : list Z) : bool :=
  match d with
  | _ :: _ :: _ :: a :: rest => (a =? 0)%Z && allAlphaZero rest
  | _ => true
  end.

(** [p'] is [p] after [n] ticks without a valid sample: a trail of one
    point stays a trail of one point, and a particle that is inside the
    grid and does not outlive its maximal age within the [n] ticks has only
    aged. *)
Definition coasts (wd : WindData) (n : nat) (p p' : Particle) : Prop :=
  (length (trail p) = 1%nat -> length (trail p') = 1%nat) /\
  (inGrid wd p -> (age p + Z.of_nat n <= maxAge p)%Z ->
   x p' = x p /\ y p' = y p /\ lng p' = lng p /\ lat p' = lat p /\
   trail p' = trail p /\ age p' = (age p + Z.of_nat n)%Z /\
   maxAge p' = maxAge p).

(** The trail of [p] has at most [l] points. *)
Definition trailWithin (l : Z) (p : Particle) : Prop :=
  (Z.of_nat (length (trail p)) <= l)%Z.

(** [p'] is [p] after the reset of a tick. *)
Definition wasReset (wd : WindData) (m : Z) (p p' : Particle) : Prop :=
  (exists g : Rng, p' = fst (respawn wd m g (grow p))) /\
  id p' = id p /\ age p' = 0%Z /\ length (trail p') = 1%nat.

(** [p'] is [p] after a tick with the trail length parameter [l]: the
    trail is within [l] when the sample was valid or the trail was within
    [l] before; without a valid sample and without a reset the trail is
    the one before, whatever [l]. *)
Definition trailBounded (wd : WindData) (l : Z) (p p' : Particle) : Prop :=
  (validSample wd p = true \/ trailWithin l p -> trailWithin l p') /\
  (validSample wd p = false -> needsReset wd (grow p) = false ->
   trail p' = trail p).



(** The geographic position of [p] is the image of its pixel position,
    and is the head of its trail. *)
Definition geoConsistent (wd : WindData) (p : Particle) : Prop :=
  lng p == west (bounds wd)
           + (x p / inject_Z (width wd)) * (east (bounds wd) - west (bounds wd)) /\
  lat p == north (bounds wd)
           - (y p / inject_Z (height wd)) * (north (bounds wd) - south (bounds wd)) /\
  hd_error (trail p) = Some {| pt_lng := lng p; pt_lat := lat p |}.

(** [0, 1, ..., n - 1] from [i]: the ids [initParticles] gives. *)
Fixpoint idsFrom (i : Z) (n : nat) : list Z :=
  match n with
  | O => []
  | S n' => i :: idsFrom (i + 1)%Z n'
  end.

(** The red, green and alpha bytes the [forEach] callback reads for [p]. *)
Definition pixelUnder (wd : WindData) (p : Particle) : option (Z * Z * Z) :=
  let px := floor (x p) in
  let py := floor (y p) in
  if ((0 <=? px)%Z && (px <? width wd)%Z && (0 <=? py)%Z && (py <? height wd)%Z)%bool
  then
    let idx := ((py * width wd + px) * 4)%Z in
    match byteAt (data wd) idx, byteAt (data wd) (idx + 1)%Z,
          byteAt (data wd) (idx + 3)%Z with
    | Some r, Some g, Some a => Some (r, g, a)
    | _, _, _ => None
    end
  else None.

(** A tick on the field [wd] whose trail length parameter is at least 1. *)
Definition tickOn (wd : WindData) (pr : Props) : Prop :=
  windData pr = Some wd /\ mapBounds pr <> None /\
  (1 <= getTrailLength (zoom pr) (trailLength pr))%Z.

(** [p'] is [p] one tick later and kept: same id, not older than its
    maximal age, of an age that is not negative if it was not. *)
Definition keptUp (p p' : Particle) : Prop :=
  id p' = id p /\ (age p' <= maxAge p')%Z /\ ((0 <= age p)%Z -> (0 <= age p')%Z).

End Skia.

(** ** Field sampler of [hooks/useWindData.ts] *)

Module Sampler.

(** [interface WindData] of the hook: [imageData] stands for the byte array
    [imageData.data]; the metadata is not read by the sampler. *)
Record WindData : Type := mkWindData {
  imageData : list Z;
  width : Z;
  height : Z;
  bounds : Bounds
}.

(** The buffer [getImageData(0, 0, width, height)] returns: four bytes per
    pixel, each in [0..255]. *)
Definition wellFormed (wd : WindData) : Prop :=
  Z.of_nat (length (imageData wd)) = (4 * width wd * height wd)%Z /\
  Forall (fun b => (0 <= b <= 255)%Z) (imageData wd).

(** [decodeWindComponent(encoded, min = -50, max = 50)]. *)
Definition decodeWindComponent (encoded : Q) (min max : Q) : Q :=
  let normalized := encoded / 255 in
  normalized * (max - min) + min.

(** The call [decodeWindComponent(r)] on a byte read from the buffer, with
    the default range; [None] is [NaN], what an [undefined] byte decodes to. *)
Definition decodeByte (e : option Z) : option Q :=
  option_map (fun b => decodeWindComponent (inject_Z b) (-50) 50) e.

(** The result object [{ u, v, magnitude }]; a field is [None] when it
    is [NaN]. *)
Record Wind : Type := mkWind {
  u : option Q;
  v : option Q;
  magnitude : option Q
}.

(** [getWindAtPixel(x, y)], with the [windData] state it closes over.
    [None] is [null]. *)
Definition getWindAtPixel (windData : option WindData) (x y : Q) : option Wind :=
  match windData with
  | None => None
  | Some wd =>
      let px := floor x in
      let py := floor y in
      if ((px <? 0)%Z || (width wd <=? px)%Z || (py <? 0)%Z || (height wd <=? py)%Z)%bool
      then None
      else
        let idx := ((py * width wd + px) * 4)%Z in
        let r := byteAt (imageData wd) idx in
        let g := byteAt (imageData wd) (idx + 1)%Z in
        let b := byteAt (imageData wd) (idx + 2)%Z in
        let a := byteAt (imageData wd) (idx + 3)%Z in
        match a with
        | Some 0%Z => None
        | _ =>
            Some {| u := decodeByte r;
                    v := decodeByte g;
                    magnitude := option_map (fun b => (inject_Z b / 255) * 70.7) b |}
        end
  end.


(** The four bytes of pixel [(px, py)]. *)
Definition pixel (wd : WindData) (px py : Z) : option (Z * Z * Z * Z) :=
  let idx := ((py * width wd + px) * 4)%Z in
  match byteAt (imageData wd) idx, byteAt (imageData wd) (idx + 1)%Z,
        byteAt (imageData wd) (idx + 2)%Z, byteAt (imageData wd) (idx + 3)%Z with
  | Some r, Some g, Some b, Some a => Some (r, g, b, a)
  | _, _, _, _ => None
  end.

(** The pixel address lies in [[0, width) x [0, height)]. *)
Definition inRange (wd : WindData) (px py : Z) : Prop :=
  (0 <= px < width wd)%Z /\ (0 <= py < height wd)%Z.

(** The alpha byte of pixel [(px, py)]. *)
Definition alphaAt (wd : WindData) (px py : Z) : option Z :=
  byteAt (imageData wd) ((py * width wd + px) * 4 + 3)%Z.

End Sampler.

(** ** Geographic and pixel coordinates *)

(** [pixelX = (lng - west) / (east - west) * width], the expression of
    [initParticles], the reset of [updateParticles] and [getWindAtLatLng]. *)
Definition toPixelX (b : Bounds) (width : Z) (lng : Q) : Q :=
  ((lng - west b) / (east b - west b)) * inject_Z width.

Definition toPixelY (b : Bounds) (height : Z) (lat : Q) : Q :=
  ((north b - lat) / (north b - south b)) * inject_Z height.

(** [lng = west + (x / width) * (east - west)], the expression of the
    "Update lat/lng" step of [updateParticles]. *)
Definition toLng (b : Bounds) (width : Z) (x : Q) : Q :=
  west b + (x / inject_Z width) * (east b - west b).

Definition toLat (b : Bounds) (height : Z) (y : Q) : Q :=
  north b - (y / inject_Z height) * (north b - south b).

(** ** The zoom-adaptive [DeckWindParticleLayer] *)

Module Deck.

(** A trail point [{ lng, lat, age }]. *)
Record TrailPoint : Type := mkTrailPoint {
  pt_lng : Q;
  pt_lat : Q;
  pt_age : Z
}.

(** [interface Particle]. *)
Record Particle : Type := mkParticle {
  id : Z;
  x : Q;
  y : Q;
  age : Z;
  maxAge : Z;
  trail : list TrailPoint
}.

(** The props and the React state ([viewBounds], [zoom]) the callbacks
    close over. *)
Record Props : Type := mkProps {
  windData : option Sampler.WindData;
  baseParticleCount : Z;
  speedFactor : Q;
  trailLength : Z;
  meanMaxAge : Z;
  viewBounds : option Bounds;
  zoom : Q
}.

(** [getParticleCount(currentZoom)]. *)
Definition getParticleCount (pr : Props) (currentZoom : Q) : Z :=
  if Qltb currentZoom 4 then baseParticleCount pr
  else if Qltb currentZoom 6 then floor (inject_Z (baseParticleCount pr) * 0.5)
  else if Qltb currentZoom 8 then floor (inject_Z (baseParticleCount pr) * 0.2)
  else if Qltb currentZoom 10 then floor (inject_Z (baseParticleCount pr) * 0.08)
  else if Qltb currentZoom 12 then floor (inject_Z (baseParticleCount pr) * 0.04)
  else floor (inject_Z (baseParticleCount pr) * 0.025).

(** [getSpeedFactor(currentZoom)]. *)
Definition getSpeedFactor (pr : Props) (currentZoom : Q) : Q :=
  if Qltb currentZoom 4 then speedFactor pr
  else if Qltb currentZoom 6 then speedFactor pr * 0.7
  else if Qltb currentZoom 8 then speedFactor pr * 0.4
  else if Qltb currentZoom 10 then speedFactor pr * 0.15
  else if Qltb currentZoom 12 then speedFactor pr * 0.06
  else speedFactor pr * 0.02.

(** [getTrailLength(currentZoom)]. *)
Definition getTrailLength (pr : Props) (currentZoom : Q) : Z :=
  if Qltb currentZoom 4 then trailLength pr
  else if Qltb currentZoom 6 then floor (inject_Z (trailLength pr) * 0.8)
  else if Qltb currentZoom 8 then floor (inject_Z (trailLength pr) * 0.6)
  else if Qltb currentZoom 10 then floor (inject_Z (trailLength pr) * 0.4)
  else if Qltb currentZoom 12 then floor (inject_Z (trailLength pr) * 0.25)
  else Z.max 3 (floor (inject_Z (trailLength pr) * 0.15)).

(** [spawnBounds]: the data bounds, or their intersection with the view
    when there is a view and the zoom exceeds 4. *)
Definition spawnBounds (dataBounds : Bounds) (view : option Bounds) (z : Q)
  : Bounds :=
  match view with
  | Some vb =>
      if Qgtb z 4 then
        {| west := Qmax (west dataBounds) (west vb);
           east := Qmin (east dataBounds) (east vb);
           south := Qmax (south dataBounds) (south vb);
           north := Qmin (north dataBounds) (north vb) |}
      else dataBounds
  | None => dataBounds
  end.

(** The body of the [for] loop of [initParticles]. *)
Definition initParticle (wd : Sampler.WindData) (sb : Bounds) (maxAge0 : Z)
    (i : Z) (g : Rng) : Particle * Rng :=
  let db := Sampler.bounds wd in
  let (r1, g1) := random g in
  let lng0 := west sb + r1 * (east sb - west sb) in
  let (r2, g2) := random g1 in
  let lat0 := south sb + r2 * (north sb - south sb) in
  let x0 := ((lng0 - west db) / (east db - west db)) * inject_Z (Sampler.width wd) in
  let y0 := ((north db - lat0) / (north db - south db)) * inject_Z (Sampler.height wd) in
  let (r3, g3) := random g2 in
  let (r4, g4) := random g3 in
  ({| id := i; x := x0; y := y0;
      age := floor (r3 * inject_Z maxAge0);
      maxAge := maxAge0 + floor (r4 * 30) - 15;
      trail := [ {| pt_lng := lng0; pt_lat := lat0; pt_age := 0 |} ] |}, g4).

Fixpoint initLoop (wd : Sampler.WindData) (sb : Bounds) (maxAge0 : Z)
    (n : nat) (i : Z) (g : Rng) : list Particle * Rng :=
  match n with
  | O => ([], g)
  | S n' =>
      let (p, g1) := initParticle wd sb maxAge0 i g in
      let (rest, g2) := initLoop wd sb maxAge0 n' (i + 1)%Z g1 in
      (p :: rest, g2)
  end.

(** [initParticles(forceViewBounds, forceZoom)]; an absent argument falls
    back on the state.  [None] when the callback returns early. *)
Definition initParticles (pr : Props) (forceViewBounds : option Bounds)
    (forceZoom : option Q) (g : Rng) : option (list Particle * Rng) :=
  match windData pr with
  | None => None
  | Some wd =>
      let currentZoom := match forceZoom with Some z => z | None => zoom pr end in
      let currentViewBounds :=
        match forceViewBounds with Some vb => Some vb | None => viewBounds pr end in
      let particleCount := getParticleCount pr currentZoom in
      let sb := spawnBounds (Sampler.bounds wd) currentViewBounds currentZoom in
      Some (initLoop wd sb (meanMaxAge pr) (Z.to_nat particleCount) 0%Z g)
  end.

(** [particle.trail.forEach(p => p.age++)]. *)
Definition ageTrail (t : list TrailPoint) : list TrailPoint :=
  map (fun q => {| pt_lng := pt_lng q; pt_lat := pt_lat q;
                   pt_age := (pt_age q + 1)%Z |}) t.

(** The sampling and advection half of the [forEach] callback. *)
Definition advect (wd : Sampler.WindData) (currentSpeedFactor : Q)
    (currentTrailLength : Z) (p : Particle) : Particle :=
  let w := Sampler.width wd in
  let h := Sampler.height wd in
  let px := floor (x p) in
  let py := floor (y p) in
  if ((0 <=? px)%Z && (px <? w)%Z && (0 <=? py)%Z && (py <? h)%Z)%bool
  then
    let idx := ((py * w + px) * 4)%Z in
    match byteAt (Sampler.imageData wd) idx,
          byteAt (Sampler.imageData wd) (idx + 1)%Z,
          byteAt (Sampler.imageData wd) (idx + 3)%Z with
    | Some r, Some g, Some a =>
        if (0 <? a)%Z then
          let u := (inject_Z r / 255) * 100 - 50 in
          let v := (inject_Z g / 255) * 100 - 50 in
          let x1 := x p + u * currentSpeedFactor in
          let y1 := y p - v * currentSpeedFactor in
          let b := Sampler.bounds wd in
          let lng1 := west b + (x1 / inject_Z w) * (east b - west b) in
          let lat1 := north b - (y1 / inject_Z h) * (north b - south b) in
          let trail1 :=
            ageTrail ({| pt_lng := lng1; pt_lat := lat1; pt_age := 0 |} :: trail p) in
          let trail2 :=
            if (currentTrailLength <? Z.of_nat (length trail1))%Z
            then slice0 trail1 currentTrailLength
            else trail1 in
          {| id := id p; x := x1; y := y1;
             age := age p; maxAge := maxAge p; trail := trail2 |}
        else p
    | _, _, _ => p
    end
  else p.

(** [particle.age++]. *)
Definition grow (p : Particle) : Particle :=
  {| id := id p; x := x p; y := y p;
     age := (age p + 1)%Z; maxAge := maxAge p; trail := trail p |}.

(** The condition of "Reset if too old or out of bounds". *)
Definition needsReset (wd : Sampler.WindData) (p : Particle) : bool :=
  (maxAge p <? age p)%Z
  || Qltb (x p) 0 || Qgeb (x p) (inject_Z (Sampler.width wd))
  || Qltb (y p) 0 || Qgeb (y p) (inject_Z (Sampler.height wd)).

(** The reset: a position drawn in [spawnBounds], converted to pixels with
    the data bounds. *)
Definition respawn (wd : Sampler.WindData) (view : option Bounds) (z : Q)
    (maxAge0 : Z) (g : Rng) (p : Particle) : Particle * Rng :=
  let b := Sampler.bounds wd in
  let sb := spawnBounds b view z in
  let (r1, g1) := random g in
  let lng0 := west sb + r1 * (east sb - west sb) in
  let (r2, g2) := random g1 in
  let lat0 := south sb + r2 * (north sb - south sb) in
  let (r3, g3) := random g2 in
  ({| id := id p;
      x := ((lng0 - west b) / (east b - west b)) * inject_Z (Sampler.width wd);
      y := ((north b - lat0) / (north b - south b)) * inject_Z (Sampler.height wd);
      age := 0;
      maxAge := maxAge0 + floor (r3 * 30) - 15;
      trail := [ {| pt_lng := lng0; pt_lat := lat0; pt_age := 0 |} ] |}, g3).

(** The whole [forEach] callback. *)
Definition updateParticle (pr : Props) (wd : Sampler.WindData) (g : Rng)
    (p : Particle) : Particle * Rng :=
  let currentSpeedFactor := getSpeedFactor pr (zoom pr) in
  let currentTrailLength := getTrailLength pr (zoom pr) in
  let p1 := grow (advect wd currentSpeedFactor currentTrailLength p) in
  if needsReset wd p1
  then respawn wd (viewBounds pr) (zoom pr) (meanMaxAge pr) g p1
  else (p1, g).

(** [updateParticles]: one simulation tick. *)
Definition updateParticles (pr : Props) (g : Rng) (ps : list Particle)
  : list Particle * Rng :=
  match windData pr with
  | None => (ps, g)
  | Some wd => forEach (updateParticle pr wd) g ps
  end.

(** The pixel position lies in [[0, width) x [0, height)]. *)
Definition inGrid (wd : Sampler.WindData) (p : Particle) : Prop :=
  0 <= x p /\ x p < inject_Z (Sampler.width wd) /\
  0 <= y p /\ y p < inject_Z (Sampler.height wd).



Definition inGridb (wd : Sampler.WindData) (p : Particle) : bool :=
  Qle_bool 0 (x p) && Qltb (x p) (inject_Z (Sampler.width wd)) &&
  Qle_bool 0 (y p) && Qltb (y p) (inject_Z (Sampler.height wd)).

End Deck.

(** ** The table of the specification, section 4.2

    The step table as the specification words it, to compare the code
    with: the count multiplier, the range allowed for the speed multiplier
    and the trail length on each half-open zoom interval. *)

Module Table.

Definition countMultiplier (zoom : Q) : Q :=
  if Qltb zoom 4 then 1.00
  else if Qltb zoom 6 then 0.50
  else if Qltb zoom 8 then 0.20
  else if Qltb zoom 10 then 0.08
  else if Qltb zoom 12 then 0.04
  else 0.025.

(** Lower and upper end of the "speed multiplier" column. *)
Definition speedRange (zoom : Q) : Q * Q :=
  if Qltb zoom 4 then (1.00, 1.00)
  else if Qltb zoom 6 then (0.75, 0.75)
  else if Qltb zoom 8 then (0.375, 0.50)
  else if Qltb zoom 10 then (0.15, 0.19)
  else if Qltb zoom 12 then (0.06, 0.08)
  else (0.02, 0.025).

Definition trailMultiplier (zoom : Q) : Q :=
  if Qltb zoom 4 then 1.00
  else if Qltb zoom 6 then 0.80
  else if Qltb zoom 8 then 0.60
  else if Qltb zoom 10 then 0.40
  else if Qltb zoom 12 then 0.25
  else 0.15.

Definition particleCount (zoom : Q) (baseCount : Z) : Z :=
  floor (inject_Z baseCount * countMultiplier zoom).

(** Floored product, with the floor of 3 from zoom 12 on. *)
Definition trailLength (zoom : Q) (baseTrailLength : Z) : Z :=
  let n := floor (inject_Z baseTrailLength * trailMultiplier zoom) in
  if Qltb zoom 12 then n else Z.max 3 n.

(** [factor] is [base] times a multiplier inside the range [rg]. *)
Definition multiplierIn (rg : Q * Q) (base factor : Q) : Prop :=
  exists m : Q, factor == m * base /\ fst rg <= m /\ m <= snd rg.

(** The speed factor [factor] conforms to the row of [zoom], relative to
    the value [base] in force below zoom 4. *)
Definition speedConforms (zoom : Q) (base factor : Q) : Prop :=
  multiplierIn (speedRange zoom) base factor.

(** The ranges the zoom-adaptive deck.gl layer meets: the row 4-6 holds
    0.7, the other rows are the table's. *)
Definition deckSpeedRange (zoom : Q) : Q * Q :=
  if Qltb zoom 4 then speedRange zoom
  else if Qltb zoom 6 then (0.7, 0.7)
  else speedRange zoom.

End Table.

(** ** [SkiaWindParticles.tsx]: projection, colours, paths, animation loop *)

Module SkiaRender.

Import Skia.

(** Indexing an array: [None] is [undefined], the value of a read at an
    index that is negative or not below the length. *)
Definition itemAt {A : Type} (l : list A) (i : Z) : option A :=
  if (i <? 0)%Z then None else nth_error l (Z.to_nat i).

(** [projectToScreen(lng, lat, mapBounds, screenWidth, screenHeight)];
    [mapBounds] is [(ne, sw)], each corner [(lng, lat)].  [None] is
    [null]: the point is not in view. *)
Definition projectToScreen (lng lat : Q) (mapBounds : Q * Q * (Q * Q))
    (screenWidth screenHeight : Q) : option (Q * Q) :=
  let '((neLng, neLat), (swLng, swLat)) := mapBounds in
  if Qltb lng swLng || Qgtb lng neLng || Qltb lat swLat || Qgtb lat neLat
  then None
  else
    let x := ((lng - swLng) / (neLng - swLng)) * screenWidth in
    let y := ((neLat - lat) / (neLat - swLat)) * screenHeight in
    Some (x, y).

(** The point lies in the closed rectangle of the view. *)
Definition inView (mb : Q * Q * (Q * Q)) (lng lat : Q) : Prop :=
  let '((neLng, neLat), (swLng, swLat)) := mb in
  swLng <= lng /\ lng <= neLng /\ swLat <= lat /\ lat <= neLat.

(** The view has its north-east corner strictly north-east of its
    south-west corner. *)
Definition properView (mb : Q * Q * (Q * Q)) : Prop :=
  let '((neLng, neLat), (swLng, swLat)) := mb in
  swLng < neLng /\ swLat < neLat.

(** The screen point lies on the screen. *)
Definition onScreen (screenWidth screenHeight : Q) (s : Q * Q) : Prop :=
  0 <= fst s /\ fst s <= screenWidth /\ 0 <= snd s /\ snd s <= screenHeight.

(** [COLOR_SCALE], slow to fast. *)
Definition COLOR_SCALE : list (Z * Z * Z) :=
  [ (100, 200, 255); (50, 150, 255); (0, 200, 255); (0, 255, 200);
    (0, 255, 100); (255, 200, 0); (255, 120, 0); (255, 50, 50) ]%Z.

(** The local [index] of [getColorForSpeed]. *)
Definition colorIndex (magnitude : Q) : Z :=
  let maxSpeed := 40 in
  let normalized := Qmin (magnitude / maxSpeed) 1 in
  Z.min (floor (normalized * inject_Z (Z.of_nat (length COLOR_SCALE) - 1)))
        (Z.of_nat (length COLOR_SCALE) - 1).

Section Strings.

Import String DecimalString.
Local Open Scope string_scope.

(** A number in a template literal; the palette holds integers. *)
Definition numeral (z : Z) : string := NilZero.string_of_int (Z.to_int z).

(** [getColorForSpeed(magnitude)].  [None]: the destructuring of
    [COLOR_SCALE[index]] throws a [TypeError], the entry being
    [undefined]. *)
Definition getColorForSpeed (magnitude : Q) : option string :=
  match itemAt COLOR_SCALE (colorIndex magnitude) with
  | Some (r, g, b) =>
      Some ("rgb(" ++ numeral r ++ ", " ++ numeral g ++ ", " ++ numeral b ++ ")")
  | None => None
  end.

(** The colour [getColorForSpeed] makes of a palette entry. *)
Definition rgb (c : Z * Z * Z) : string :=
  let '(r, g, b) := c in
  "rgb(" ++ numeral r ++ ", " ++ numeral g ++ ", " ++ numeral b ++ ")".

(** A verb of a Skia path. *)
Inductive PathVerb : Type :=
| MoveTo (x y : Q)
| LineTo (x y : Q).

(** An element of [newPaths]. *)
Record TrailPath : Type := mkTrailPath {
  path : list PathVerb;
  headColor : string;
  tailColor : string
}.

(** The locals of the callback of [buildPaths] while it walks a trail. *)
Record Pen : Type := mkPen {
  verbs : list PathVerb;
  started : bool;
  headPos : option (Q * Q);
  tailPos : option (Q * Q)
}.

(** The body of [p.trail.forEach]: a point in view starts the path or
    extends it; a point out of view is passed over. *)
Definition drawPoint (mb : Q * Q * (Q * Q)) (screenWidth screenHeight : Q)
    (pen : Pen) (point : GeoPoint) : Pen :=
  match projectToScreen (pt_lng point) (pt_lat point) mb screenWidth screenHeight with
  | Some (sx, sy) =>
      if negb (started pen)
      then {| verbs := (verbs pen ++ [MoveTo sx sy])%list; started := true;
              headPos := Some (sx, sy); tailPos := tailPos pen |}
      else {| verbs := (verbs pen ++ [LineTo sx sy])%list; started := started pen;
              headPos := headPos pen; tailPos := Some (sx, sy) |}
  | None => pen
  end.

Definition tracePath (mb : Q * Q * (Q * Q)) (screenWidth screenHeight : Q)
    (t : list GeoPoint) : Pen :=
  fold_left (drawPoint mb screenWidth screenHeight) t
    {| verbs := []; started := false; headPos := None; tailPos := None |}.

(** The point a verb goes to. *)
Definition vertex (v : PathVerb) : Q * Q :=
  match v with
  | MoveTo x y => (x, y)
  | LineTo x y => (x, y)
  end.

(** The path through the screen points [vs]: a [MoveTo] to the first, a
    [LineTo] to each of the others. *)
Definition polyline (vs : list (Q * Q)) : list PathVerb :=
  match vs with
  | [] => []
  | s :: rest => MoveTo (fst s) (snd s) :: map (fun q => LineTo (fst q) (snd q)) rest
  end.

(** The screen points of the points of a trail that are in view, in the
    order of the trail. *)
Definition visible (mb : Q * Q * (Q * Q)) (screenWidth screenHeight : Q)
    (t : list GeoPoint) : list (Q * Q) :=
  flat_map
    (fun point =>
       match projectToScreen (pt_lng point) (pt_lat point) mb screenWidth screenHeight with
       | Some s => [s]
       | None => []
       end) t.

(** What the pen holds after the screen points [vs] have been drawn. *)
Definition penAt (pen : Pen) (vs : list (Q * Q)) : Prop :=
  verbs pen = polyline vs /\
  started pen = negb (match vs with [] => true | _ => false end) /\
  (headPos pen = None <-> vs = []) /\
  (tailPos pen = None <-> (List.length vs < 2)%nat).

(** The [tailColor] of every path. *)
Definition transparent : string := "transparent".

(** An element of [newPaths] as [buildPaths] makes them: a [MoveTo]
    followed by [LineTo]s through points on the screen, a head colour of
    the palette, a transparent tail. *)
Definition wellDrawn (screenWidth screenHeight : Q) (tp : TrailPath) : Prop :=
  path tp = polyline (map vertex (path tp)) /\
  (2 <= List.length (path tp))%nat /\
  Forall (onScreen screenWidth screenHeight) (map vertex (path tp)) /\
  tailColor tp = transparent /\
  exists c, In c COLOR_SCALE /\ headColor tp = rgb c.

(** An integer approximation of the square root, to run the code with. *)
Definition intSqrt (q : Q) : Q := inject_Z (Z.sqrt (floor q)).

(** What the callback of [particles.forEach] does for one particle. *)
Inductive Drawn : Type :=
| Nothing
| Pushed (tp : TrailPath)
| Thrown.

Variable sqrt : Q -> Q.

(** The callback of [particles.forEach] in [buildPaths]; [sqrt] stands
    for [Math.sqrt]. *)
Definition buildPath (mb : Q * Q * (Q * Q)) (screenWidth screenHeight : Q)
    (p : Particle) : Drawn :=
  match trail p with
  | t0 :: t1 :: _ =>
      let pen := tracePath mb screenWidth screenHeight (trail p) in
      match started pen, headPos pen, tailPos pen with
      | true, Some _, Some _ =>
          let magnitude :=
            sqrt ((pt_lng t0 - pt_lng t1) * (pt_lng t0 - pt_lng t1) +
                  (pt_lat t0 - pt_lat t1) * (pt_lat t0 - pt_lat t1)) * 1000 in
          match getColorForSpeed (magnitude * 10) with
          | Some c => Pushed {| path := verbs pen; headColor := c;
                                tailColor := "transparent" |}
          | None => Thrown
          end
      | _, _, _ => Nothing
      end
  | _ => Nothing
  end.

(** The [forEach] of [buildPaths] over the particles, from [newPaths = acc];
    [None] when a callback throws. *)
Fixpoint collectPaths (mb : Q * Q * (Q * Q)) (screenWidth screenHeight : Q)
    (ps : list Particle) (acc : list TrailPath) : option (list TrailPath) :=
  match ps with
  | [] => Some acc
  | p :: rest =>
      match buildPath mb screenWidth screenHeight p with
      | Nothing => collectPaths mb screenWidth screenHeight rest acc
      | Pushed tp => collectPaths mb screenWidth screenHeight rest (acc ++ [tp])%list
      | Thrown => None
      end
  end.

(** [buildPaths]: the new value of the [paths] state, [old] when the
    callback returns early; [None] when it throws. *)
Definition buildPaths (mapBounds : option (Q * Q * (Q * Q)))
    (screenWidth screenHeight : Q) (ps : list Particle) (old : list TrailPath)
  : option (list TrailPath) :=
  match mapBounds with
  | None => Some old
  | Some mb => collectPaths mb screenWidth screenHeight ps []
  end.

(** The state the animation loop works on: the local [lastTime], the
    particles, the draws to come and the [paths] state. *)
Record Loop : Type := mkLoop {
  lastTime : Q;
  particles : list Particle;
  draws : Rng;
  paths : list TrailPath
}.

(** [frameInterval = 1000 / targetFPS] with [targetFPS = 30]. *)
Definition frameInterval : Q := 1000 / 30.

(** [animate(currentTime)], without the request for the next frame:
    a tick when a frame interval has passed since the last one.  [None]
    when [buildPaths] throws. *)
Definition animate (pr : Props) (screenWidth screenHeight : Q) (st : Loop)
    (currentTime : Q) : option Loop :=
  if Qgeb (currentTime - lastTime st) frameInterval then
    let (ps, g) := updateParticles pr (draws st) (particles st) in
    match buildPaths (mapBounds pr) screenWidth screenHeight ps (paths st) with
    | Some pths => Some {| lastTime := currentTime; particles := ps;
                           draws := g; paths := pths |}
    | None => None
    end
  else Some st.

(** The frames delivered at the times [ts], in order. *)
Fixpoint frames (pr : Props) (screenWidth screenHeight : Q) (st : Loop)
    (ts : list Q) : option Loop :=
  match ts with
  | [] => Some st
  | t :: rest =>
      match animate pr screenWidth screenHeight st t with
      | Some st' => frames pr screenWidth screenHeight st' rest
      | None => None
      end
  end.

(** The times, among [ts], of the frames at which a tick is made, from
    [last] as the time of the last tick. *)
Fixpoint tickTimes (last : Q) (ts : list Q) : list Q :=
  match ts with
  | [] => []
  | t :: rest =>
      if Qgeb (t - last) frameInterval
      then t :: tickTimes t rest
      else tickTimes last rest
  end.

(** Each time of [l] is at least a frame interval after the one before,
    the first after [last]. *)
Fixpoint spaced (last : Q) (l : list Q) : Prop :=
  match l with
  | [] => True
  | t :: rest => last + frameInterval <= t /\ spaced t rest
  end.

End Strings.

End SkiaRender.

(** ** The deck.gl path layers: colours and [createLayers] *)

Module DeckRender.

Import Deck.

(** [COLOR_SCALE] of the path layers. *)
Definition COLOR_SCALE : list (Z * Z * Z) :=
  [ (100, 180, 200); (120, 200, 180); (160, 210, 160); (200, 220, 140);
    (230, 210, 120); (240, 180, 100); (240, 140, 90); (230, 100, 80);
    (210, 70, 70); (180, 50, 60) ]%Z.

(** The local [index] of [getColorForMagnitude]. *)
Definition colorIndex (magnitude : Q) : Z :=
  let maxSpeed := 40 in
  let normalized := Qmin (magnitude / maxSpeed) 1 in
  Z.min (floor (normalized * inject_Z (Z.of_nat (length COLOR_SCALE) - 1)))
        (Z.of_nat (length COLOR_SCALE) - 1).

(** [getColorForMagnitude(magnitude)]; [None] is [undefined]. *)
Definition getColorForMagnitude (magnitude : Q) : option (Z * Z * Z) :=
  SkiaRender.itemAt COLOR_SCALE (colorIndex magnitude).

(** An element of [pathData]. *)
Record PathDatum : Type := mkPathDatum {
  path : list (Q * Q);
  color : option (Z * Z * Z);
  opacity : Q
}.

Section WithSqrt.

Variable sqrt : Q -> Q.

(** The local [magnitude] of the callback of [map] in [createLayers]: 5
    outside the grid, the speed decoded from the red and green bytes
    inside, whatever the alpha byte; [None] is [NaN], from a byte read
    outside the buffer. *)
Definition headMagnitude (wd : Sampler.WindData) (p : Particle) : option Q :=
  let w := Sampler.width wd in
  let h := Sampler.height wd in
  let px := floor (x p) in
  let py := floor (y p) in
  if ((0 <=? px)%Z && (px <? w)%Z && (0 <=? py)%Z && (py <? h)%Z)%bool
  then
    let idx := ((py * w + px) * 4)%Z in
    match byteAt (Sampler.imageData wd) idx,
          byteAt (Sampler.imageData wd) (idx + 1)%Z with
    | Some r, Some g =>
        let u := (inject_Z r / 255) * 100 - 50 in
        let v := (inject_Z g / 255) * 100 - 50 in
        Some (sqrt (u * u + v * v))
    | _, _ => None
    end
  else Some 5.

(** The callback of [map]: the path, colour and opacity of a particle. *)
Definition pathDatum (wd : Sampler.WindData) (p : Particle) : PathDatum :=
  {| path := map (fun t => (pt_lng t, pt_lat t)) (trail p);
     color := match headMagnitude wd p with
              | Some magnitude => getColorForMagnitude magnitude
              | None => None
              end;
     opacity := Qmax 0.1 (1 - (inject_Z (age p) / inject_Z (maxAge p)) * 0.5) |}.

(** The [data] of the path layer [createLayers] returns; [None] when it
    returns no layer, the field being [null]. *)
Definition createLayers (windData : option Sampler.WindData)
    (particles : list Particle) : option (list PathDatum) :=
  match windData with
  | None => None
  | Some wd =>
      Some (map (pathDatum wd)
              (filter (fun p => (1 <? Z.of_nat (length (trail p)))%Z) particles))
  end.

End WithSqrt.

(** The accessor [getColor] of the path layer:
    [[...d.color, Math.floor(d.opacity * 200)]]; [None] when the spread
    of an [undefined] colour throws. *)
Definition getColor (d : PathDatum) : option (Z * Z * Z * Z) :=
  match color d with
  | Some (r, g, b) => Some (r, g, b, floor (opacity d * 200))
  | None => None
  end.

(** A particle as a tick leaves it: of an age between 0 and its maximal
    age, which is positive. *)
Definition seasoned (p : Particle) : Prop :=
  (0 <= age p <= maxAge p)%Z /\ (0 < maxAge p)%Z.

(** Two fields that differ in their alpha bytes only. *)
Definition sameButAlpha (wd wd' : Sampler.WindData) : Prop :=
  Sampler.width wd = Sampler.width wd' /\
  Sampler.height wd = Sampler.height wd' /\
  forall i, (i mod 4 <> 3)%Z ->
    byteAt (Sampler.imageData wd) i = byteAt (Sampler.imageData wd') i.

(** The alpha component [getColor] gives a datum lies in [[lo, hi]]. *)
Definition alphaWithin (lo hi : Z) (d : PathDatum) : Prop :=
  match getColor d with
  | Some (_, _, _, a) => (lo <= a <= hi)%Z
  | None => True
  end.

(** The trail points are ordered by age, the youngest first, with ages
    between 0 and the age of the particle. *)
Definition trailOrdered (p : Particle) : Prop :=
  (0 <= age p)%Z /\
  StronglySorted Z.le (map pt_age (trail p)) /\
  Forall (fun q => (0 <= pt_age q <= age p)%Z) (trail p).

End DeckRender.

(** ** The deck.gl path layer without zoom adaptation *)

Module DeckBasic.

Import Deck.

(** The props the callbacks close over. *)
Record Props : Type := mkProps {
  windData : option Sampler.WindData;
  particleCount : Z;
  speedFactor : Q;
  trailLength : Z;
  meanMaxAge : Z
}.

(** The body of the [for] loop of [initParticles]: the pixel position is
    drawn, the coordinates follow from it. *)
Definition initParticle (wd : Sampler.WindData) (maxAge0 : Z) (i : Z) (g : Rng)
  : Particle * Rng :=
  let b := Sampler.bounds wd in
  let w := Sampler.width wd in
  let h := Sampler.height wd in
  let (r1, g1) := random g in
  let x0 := r1 * inject_Z w in
  let (r2, g2) := random g1 in
  let y0 := r2 * inject_Z h in
  let lng0 := west b + (x0 / inject_Z w) * (east b - west b) in
  let lat0 := north b - (y0 / inject_Z h) * (north b - south b) in
  let (r3, g3) := random g2 in
  let (r4, g4) := random g3 in
  ({| id := i; x := x0; y := y0;
      age := floor (r3 * inject_Z maxAge0);
      maxAge := maxAge0 + floor (r4 * 30) - 15;
      trail := [ {| pt_lng := lng0; pt_lat := lat0; pt_age := 0 |} ] |}, g4).

Fixpoint initLoop (wd : Sampler.WindData) (maxAge0 : Z) (n : nat) (i : Z)
    (g : Rng) : list Particle * Rng :=
  match n with
  | O => ([], g)
  | S n' =>
      let (p, g1) := initParticle wd maxAge0 i g in
      let (rest, g2) := initLoop wd maxAge0 n' (i + 1)%Z g1 in
      (p :: rest, g2)
  end.

(** [initParticles]; [None] when it returns early. *)
Definition initParticles (pr : Props) (g : Rng) : option (list Particle * Rng) :=
  match windData pr with
  | None => None
  | Some wd =>
      Some (initLoop wd (meanMaxAge pr) (Z.to_nat (particleCount pr)) 0%Z g)
  end.

(** The reset: "Respawn at random position". *)
Definition respawn (wd : Sampler.WindData) (maxAge0 : Z) (g : Rng) (p : Particle)
  : Particle * Rng :=
  let b := Sampler.bounds wd in
  let w := Sampler.width wd in
  let h := Sampler.height wd in
  let (r1, g1) := random g in
  let x0 := r1 * inject_Z w in
  let (r2, g2) := random g1 in
  let y0 := r2 * inject_Z h in
  let lng0 := west b + (x0 / inject_Z w) * (east b - west b) in
  let lat0 := north b - (y0 / inject_Z h) * (north b - south b) in
  let (r3, g3) := random g2 in
  ({| id := id p; x := x0; y := y0;
      age := 0;
      maxAge := maxAge0 + floor (r3 * 30) - 15;
      trail := [ {| pt_lng := lng0; pt_lat := lat0; pt_age := 0 |} ] |}, g3).

(** The [forEach] callback of [updateParticles]: its sampling half, its
    ageing and its reset test are those of the zoom-adaptive layer, with
    the props for speed and trail length. *)
Definition updateParticle (pr : Props) (wd : Sampler.WindData) (g : Rng)
    (p : Particle) : Particle * Rng :=
  let p1 := grow (advect wd (speedFactor pr) (trailLength pr) p) in
  if needsReset wd p1 then respawn wd (meanMaxAge pr) g p1 else (p1, g).

Definition updateParticles (pr : Props) (g : Rng) (ps : list Particle)
  : list Particle * Rng :=
  match windData pr with
  | None => (ps, g)
  | Some wd => forEach (updateParticle pr wd) g ps
  end.

(** Consecutive ticks under the same props. *)
Fixpoint steps (n : nat) (pr : Props) (g : Rng) (ps : list Particle)
  : list Particle * Rng :=
  match n with
  | O => (ps, g)
  | S n' =>
      let (ps1, g1) := updateParticles pr g ps in
      steps n' pr g1 ps1
  end.

End DeckBasic.

(** ** The deck.gl point layer ([particleCount], [particleSize], [colorScale]) *)

Module DeckPoints.

(** [interface Particle]; the trail is a list of [[lng, lat]], oldest
    first. *)
Record Particle : Type := mkParticle {
  id : Z;
  x : Q;
  y : Q;
  lng : Q;
  lat : Q;
  age : Z;
  maxAge : Z;
  u : Q;
  v : Q;
  magnitude : Q;
  trail : list (Q * Q)
}.

Record Props : Type := mkProps {
  windData : option Sampler.WindData;
  particleCount : Z;
  particleSize : Q;
  speedFactor : Q;
  trailLength : Z;
  colorScale : list (Z * Z * Z);
  meanMaxAge : Z
}.

(** [DEFAULT_COLOR_SCALE]. *)
Definition DEFAULT_COLOR_SCALE : list (Z * Z * Z) :=
  [ (65, 182, 196); (127, 205, 187); (199, 233, 180); (237, 248, 177);
    (255, 237, 160); (254, 217, 118); (254, 178, 76); (253, 141, 60);
    (252, 78, 42); (227, 26, 28) ]%Z.

(** The local [index] of [getColorForMagnitude(magnitude, colorScale)]. *)
Definition colorIndex (magnitude : Q) (colorScale : list (Z * Z * Z)) : Z :=
  let maxSpeed := 50 in
  let normalized := Qmin (magnitude / maxSpeed) 1 in
  Z.min (floor (normalized * inject_Z (Z.of_nat (length colorScale) - 1)))
        (Z.of_nat (length colorScale) - 1).

(** [getColorForMagnitude(magnitude, colorScale)]: the colour with its
    alpha.  [None]: [color[0]] throws, [color] being [undefined]. *)
Definition getColorForMagnitude (magnitude : Q) (colorScale : list (Z * Z * Z))
  : option (Z * Z * Z * Q) :=
  match SkiaRender.itemAt colorScale (colorIndex magnitude colorScale) with
  | Some (r, g, b) => Some (r, g, b, Qmin (150 + magnitude * 3) 255)
  | None => None
  end.

(** The body of the [for] loop of [initParticles]. *)
Definition initParticle (wd : Sampler.WindData) (maxAge0 : Z) (i : Z) (g : Rng)
  : Particle * Rng :=
  let b := Sampler.bounds wd in
  let w := Sampler.width wd in
  let h := Sampler.height wd in
  let (r1, g1) := random g in
  let x0 := r1 * inject_Z w in
  let (r2, g2) := random g1 in
  let y0 := r2 * inject_Z h in
  let lng0 := west b + (x0 / inject_Z w) * (east b - west b) in
  let lat0 := north b - (y0 / inject_Z h) * (north b - south b) in
  let (r3, g3) := random g2 in
  let (r4, g4) := random g3 in
  ({| id := i; x := x0; y := y0; lng := lng0; lat := lat0;
      age := floor (r3 * inject_Z maxAge0);
      maxAge := maxAge0 + floor (r4 * 20);
      u := 0; v := 0; magnitude := 0;
      trail := [ (lng0, lat0) ] |}, g4).

Fixpoint initLoop (wd : Sampler.WindData) (maxAge0 : Z) (n : nat) (i : Z)
    (g : Rng) : list Particle * Rng :=
  match n with
  | O => ([], g)
  | S n' =>
      let (p, g1) := initParticle wd maxAge0 i g in
      let (rest, g2) := initLoop wd maxAge0 n' (i + 1)%Z g1 in
      (p :: rest, g2)
  end.

Definition initParticles (pr : Props) (g : Rng) : option (list Particle * Rng) :=
  match windData pr with
  | None => None
  | Some wd =>
      Some (initLoop wd (meanMaxAge pr) (Z.to_nat (particleCount pr)) 0%Z g)
  end.

(** [particle.age++]. *)
Definition grow (p : Particle) : Particle :=
  {| id := id p; x := x p; y := y p; lng := lng p; lat := lat p;
     age := (age p + 1)%Z; maxAge := maxAge p;
     u := u p; v := v p; magnitude := magnitude p; trail := trail p |}.

(** The condition of "Reset if too old or out of bounds". *)
Definition needsReset (wd : Sampler.WindData) (p : Particle) : bool :=
  (maxAge p <? age p)%Z
  || Qltb (x p) 0 || Qgeb (x p) (inject_Z (Sampler.width wd))
  || Qltb (y p) 0 || Qgeb (y p) (inject_Z (Sampler.height wd)).

(** The reset; [u], [v] and [magnitude] are left as they are. *)
Definition respawn (wd : Sampler.WindData) (maxAge0 : Z) (g : Rng) (p : Particle)
  : Particle * Rng :=
  let b := Sampler.bounds wd in
  let w := Sampler.width wd in
  let h := Sampler.height wd in
  let (r1, g1) := random g in
  let x0 := r1 * inject_Z w in
  let (r2, g2) := random g1 in
  let y0 := r2 * inject_Z h in
  let lng0 := west b + (x0 / inject_Z w) * (east b - west b) in
  let lat0 := north b - (y0 / inject_Z h) * (north b - south b) in
  let (r3, g3) := random g2 in
  ({| id := id p; x := x0; y := y0; lng := lng0; lat := lat0;
      age := 0;
      maxAge := maxAge0 + floor (r3 * 20);
      u := u p; v := v p; magnitude := magnitude p;
      trail := [ (lng0, lat0) ] |}, g3).

(** An element of [trailData] and of [pointData]. *)
Record TrailDatum : Type := mkTrailDatum {
  td_id : Z;
  td_path : list (Q * Q);
  td_color : Z * Z * Z * Q;
  td_width : Q
}.

Record PointDatum : Type := mkPointDatum {
  pd_position : Q * Q;
  pd_color : Z * Z * Z * Q;
  pd_radius : Q
}.

Section WithSqrt.

Variable sqrt : Q -> Q.

(** The sampling half of the [forEach] callback: on a valid pixel the
    wind is stored in the particle, the particle moved, its position
    pushed on the trail and the oldest point shifted out when the trail
    is too long. *)
Definition advect (wd : Sampler.WindData) (speedFactor0 : Q) (trailLength0 : Z)
    (p : Particle) : Particle :=
  let w := Sampler.width wd in
  let h := Sampler.height wd in
  let px := floor (x p) in
  let py := floor (y p) in
  if ((0 <=? px)%Z && (px <? w)%Z && (0 <=? py)%Z && (py <? h)%Z)%bool
  then
    let idx := ((py * w + px) * 4)%Z in
    match byteAt (Sampler.imageData wd) idx,
          byteAt (Sampler.imageData wd) (idx + 1)%Z,
          byteAt (Sampler.imageData wd) (idx + 3)%Z with
    | Some r, Some g, Some a =>
        if (0 <? a)%Z then
          let u1 := (inject_Z r / 255) * 100 - 50 in
          let v1 := (inject_Z g / 255) * 100 - 50 in
          let magnitude1 := sqrt (u1 * u1 + v1 * v1) in
          let x1 := x p + u1 * speedFactor0 in
          let y1 := y p - v1 * speedFactor0 in
          let b := Sampler.bounds wd in
          let lng1 := west b + (x1 / inject_Z w) * (east b - west b) in
          let lat1 := north b - (y1 / inject_Z h) * (north b - south b) in
          let trail1 := trail p ++ [ (lng1, lat1) ] in
          let trail2 :=
            if (trailLength0 <? Z.of_nat (length trail1))%Z
            then tl trail1
            else trail1 in
          {| id := id p; x := x1; y := y1; lng := lng1; lat := lat1;
             age := age p; maxAge := maxAge p;
             u := u1; v := v1; magnitude := magnitude1; trail := trail2 |}
        else p
    | _, _, _ => p
    end
  else p.

Definition updateParticle (pr : Props) (wd : Sampler.WindData) (g : Rng)
    (p : Particle) : Particle * Rng :=
  let p1 := grow (advect wd (speedFactor pr) (trailLength pr) p) in
  if needsReset wd p1 then respawn wd (meanMaxAge pr) g p1 else (p1, g).

Definition updateParticles (pr : Props) (g : Rng) (ps : list Particle)
  : list Particle * Rng :=
  match windData pr with
  | None => (ps, g)
  | Some wd => forEach (updateParticle pr wd) g ps
  end.

Fixpoint steps (n : nat) (pr : Props) (g : Rng) (ps : list Particle)
  : list Particle * Rng :=
  match n with
  | O => (ps, g)
  | S n' =>
      let (ps1, g1) := updateParticles pr g ps in
      steps n' pr g1 ps1
  end.

End WithSqrt.

(** [map] with a callback that may throw. *)
Fixpoint mapThrowing {A B : Type} (f : A -> option B) (l : list A)
  : option (list B) :=
  match l with
  | [] => Some []
  | a :: rest =>
      match f a with
      | Some b =>
          match mapThrowing f rest with
          | Some bs => Some (b :: bs)
          | None => None
          end
      | None => None
      end
  end.

(** [createLayers]: the [data] of the line layer and of the scatterplot
    layer, both empty lists when it returns no layer; [None] when
    [getColorForMagnitude] throws. *)
Definition createLayers (pr : Props) (particles : list Particle)
  : option (list TrailDatum * list PointDatum) :=
  match particles with
  | [] => Some ([], [])
  | _ =>
      match
        mapThrowing
          (fun p =>
             match getColorForMagnitude (magnitude p) (colorScale pr) with
             | Some c => Some {| td_id := id p; td_path := trail p; td_color := c;
                                 td_width := Qmax 1 (particleSize pr * 0.5) |}
             | None => None
             end)
          (filter (fun p => (1 <? Z.of_nat (length (trail p)))%Z
                            && Qgtb (magnitude p) 0.5) particles)
      with
      | None => None
      | Some trailData =>
          match
            mapThrowing
              (fun p =>
                 match getColorForMagnitude (magnitude p) (colorScale pr) with
                 | Some c => Some {| pd_position := (lng p, lat p); pd_color := c;
                                     pd_radius := particleSize pr + magnitude p * 0.1 |}
                 | None => None
                 end)
              (filter (fun p => Qgtb (magnitude p) 0.5) particles)
          with
          | None => None
          | Some pointData => Some (trailData, pointData)
          end
      end
  end.

(** The pixel position lies in [[0, width) x [0, height)]. *)
Definition inGrid (wd : Sampler.WindData) (p : Particle) : Prop :=
  0 <= x p /\ x p < inject_Z (Sampler.width wd) /\
  0 <= y p /\ y p < inject_Z (Sampler.height wd).

(** The particle is where its pixel position maps to, and the newest
    point of its trail, the last one, is its position. *)
Definition anchored (wd : Sampler.WindData) (p : Particle) : Prop :=
  lng p = west (Sampler.bounds wd)
          + (x p / inject_Z (Sampler.width wd))
            * (east (Sampler.bounds wd) - west (Sampler.bounds wd)) /\
  lat p = north (Sampler.bounds wd)
          - (y p / inject_Z (Sampler.height wd))
            * (north (Sampler.bounds wd) - south (Sampler.bounds wd)) /\
  trail p <> [] /\ last (trail p) (0, 0) = (lng p, lat p).

(** [p'] is [p] one tick later, for the trail length [l]: the same id; a
    trail within [l] if it was and [l >= 1]; unless [p'] is fresh from a
    reset, a trail as long as that of [p] or one point longer. *)
Definition trailKept (l : Z) (p p' : Particle) : Prop :=
  id p' = id p /\
  ((1 <= l)%Z -> (Z.of_nat (length (trail p)) <= l)%Z ->
   (Z.of_nat (length (trail p')) <= l)%Z) /\
  (age p' <> 0%Z ->
   (length (trail p) <= length (trail p') <= S (length (trail p)))%nat).

(** The alpha of a colour lies in [(150, 255]]. *)
Definition bright (c : Z * Z * Z * Q) : Prop := 150 < snd c /\ snd c <= 255.

End DeckPoints.

(** ** The map page: particle count of the raster particle layers *)

(** [Math.round]: the nearest integer, a half rounded up. *)
Definition round (a : Q) : Z := floor (a + (1 # 2)).

Module Page.

(** The local [particleCount] of [updateParticleCount], for the zoom
    [map.getZoom()] returns. *)
Definition particleCount (zoom : Q) : Q :=
  if Qltb zoom 3 then 4000
  else if Qltb zoom 5 then 4000 + ((zoom - 3) / 2) * 4000
  else if Qltb zoom 7 then 8000 + ((zoom - 5) / 2) * 8000
  else if Qltb zoom 9 then 16000 + ((zoom - 7) / 2) * 8000
  else if Qltb zoom 11 then 24000 + ((zoom - 9) / 2) * 8000
  else 32000.

(** [updateParticleCount]: the value of ["raster-particle-count"] it sets
    on each of the regional wind layers the map has. *)
Definition updateParticleCount (zoom : Q) : Z := round (particleCount zoom).

End Page.

(** ** The wind forecast popup ([components/WindForecastPopup.tsx]) *)

Module Popup.

Section Strings.

Import String.
Local Open Scope string_scope.

Definition directions : list string :=
  [ "N"; "NNE"; "NE"; "ENE"; "E"; "ESE"; "SE"; "SSE";
    "S"; "SSW"; "SW"; "WSW"; "W"; "WNW"; "NW"; "NNW" ]%list.

(** The local [index] of [getWindDirection]; [%] is the remainder with
    the sign of the dividend. *)
Definition directionIndex (degrees : Q) : Z :=
  Z.rem (round (degrees / 22.5)) 16.

(** [getWindDirection(degrees)]; [None] is [undefined]. *)
Definition getWindDirection (degrees : Q) : option string :=
  SkiaRender.itemAt directions (directionIndex degrees).

Record Beaufort : Type := mkBeaufort {
  scale : Z;
  description : string;
  color : string
}.

(** [getBeaufortScale(speedKmh)]. *)
Definition getBeaufortScale (speedKmh : Q) : Beaufort :=
  if Qltb speedKmh 1 then
    {| scale := 0; description := "Calm"; color := "#a8d5e5" |}
  else if Qltb speedKmh 6 then
    {| scale := 1; description := "Light air"; color := "#a8d5e5" |}
  else if Qltb speedKmh 12 then
    {| scale := 2; description := "Light breeze"; color := "#7ec8e3" |}
  else if Qltb speedKmh 20 then
    {| scale := 3; description := "Gentle breeze"; color := "#5bb5d5" |}
  else if Qltb speedKmh 29 then
    {| scale := 4; description := "Moderate breeze"; color := "#4CAF50" |}
  else if Qltb speedKmh 39 then
    {| scale := 5; description := "Fresh breeze"; color := "#8BC34A" |}
  else if Qltb speedKmh 50 then
    {| scale := 6; description := "Strong breeze"; color := "#CDDC39" |}
  else if Qltb speedKmh 62 then
    {| scale := 7; description := "High wind"; color := "#FFEB3B" |}
  else if Qltb speedKmh 75 then
    {| scale := 8; description := "Gale"; color := "#FFC107" |}
  else if Qltb speedKmh 89 then
    {| scale := 9; description := "Strong gale"; color := "#FF9800" |}
  else if Qltb speedKmh 103 then
    {| scale := 10; description := "Storm"; color := "#FF5722" |}
  else if Qltb speedKmh 118 then
    {| scale := 11; description := "Violent storm"; color := "#f44336" |}
  else
    {| scale := 12; description := "Hurricane"; color := "#9C27B0" |}.

End Strings.

(** [kmhToMph(kmh)]. *)
Definition kmhToMph (kmh : Q) : Q := kmh * 0.621371.

(** The lower end of the speeds of a Beaufort number, in km/h. *)
Definition threshold (s : Z) : Q :=
  match s with
  | 1%Z => 1 | 2%Z => 6 | 3%Z => 12 | 4%Z => 20 | 5%Z => 29 | 6%Z => 39
  | 7%Z => 50 | 8%Z => 62 | 9%Z => 75 | 10%Z => 89 | 11%Z => 103 | 12%Z => 118
  | _ => 0
  end.

End Popup.

(** ** The cross-fade of [hooks/useDoubleBufferedRasterLayer.ts] *)

Module Crossfade.

(** What a frame of the animation leaves: the ["raster-opacity"] of the
    layer faded out and of the layer faded in, and whether the animation
    is over. *)
Record Frame : Type := mkFrame {
  fromOpacity : Q;
  toOpacity : Q;
  finished : bool
}.

(** The local [eased] of [animate]: the ease in-out curve. *)
Definition ease (progress : Q) : Q :=
  if Qltb progress 0.5
  then 2 * progress * progress
  else 1 - ((-2 * progress + 2) * (-2 * progress + 2)) / 2.

(** The callback [animate(currentTime)] of [animateCrossfade], both
    layers being on the map: [targetOpacity] is [opacityRef.current],
    [startTime] the time the cross-fade started. *)
Definition animate (targetOpacity crossfadeDuration startTime currentTime : Q)
  : Frame :=
  let elapsed := currentTime - startTime in
  let progress := Qmin (elapsed / crossfadeDuration) 1 in
  let eased := ease progress in
  let fromOpacity0 := targetOpacity * (1 - eased) in
  let toOpacity0 := targetOpacity * eased in
  if Qltb progress 1
  then {| fromOpacity := fromOpacity0; toOpacity := toOpacity0; finished := false |}
  else {| fromOpacity := 0; toOpacity := targetOpacity; finished := true |}.

End Crossfade.

(** ** The preloaded raster layers: one layer per forecast hour *)

Module Preloaded.

Section Strings.

Import String.
Local Open Scope string_scope.

(** The state the callbacks work on: whether there is a map, the state
    [isReady], the ["raster-opacity"] of the layer of each forecast hour
    that has one, [activeForecastRef.current] and [opacityRef.current]. *)
Record State : Type := mkState {
  hasMap : bool;
  isReady : bool;
  paint : list (string * Q);
  activeForecast : option string;
  opacity : Q
}.

(** [map.getLayer(getLayerId(forecastHour))]. *)
Definition hasLayer (p : list (string * Q)) (forecastHour : string) : bool :=
  existsb (fun e => String.eqb (fst e) forecastHour) p.

(** [map.setPaintProperty(getLayerId(forecastHour), "raster-opacity", o)]. *)
Definition setPaint (forecastHour : string) (o : Q) (p : list (string * Q))
  : list (string * Q) :=
  map (fun e => if String.eqb (fst e) forecastHour then (fst e, o) else e) p.

(** A string in a condition: the empty string counts as false. *)
Definition truthy (s : string) : bool := negb (String.eqb s "").

(** [setActiveForecast(forecastHour)]. *)
Definition setActiveForecast (st : State) (forecastHour : string) : State :=
  if (negb (hasMap st) || negb (isReady st))%bool then st
  else
    let p1 :=
      if hasLayer (paint st) forecastHour
      then setPaint forecastHour (opacity st) (paint st)
      else paint st in
    let p2 :=
      match activeForecast st with
      | Some previousForecast =>
          if (truthy previousForecast
              && negb (String.eqb previousForecast forecastHour))%bool
          then
            if hasLayer p1 previousForecast
            then setPaint previousForecast 0 p1
            else p1
          else p1
      | None => p1
      end in
    {| hasMap := hasMap st; isReady := isReady st; paint := p2;
       activeForecast := Some forecastHour; opacity := opacity st |}.

(** [setOpacity(opacity)]. *)
Definition setOpacity (st : State) (o : Q) : State :=
  let st1 := {| hasMap := hasMap st; isReady := isReady st; paint := paint st;
                activeForecast := activeForecast st; opacity := o |} in
  match activeForecast st with
  | Some active =>
      if (negb (hasMap st) || negb (truthy active))%bool then st1
      else if hasLayer (paint st) active
      then {| hasMap := hasMap st; isReady := isReady st;
              paint := setPaint active o (paint st);
              activeForecast := activeForecast st; opacity := o |}
      else st1
  | None => st1
  end.

(** Only the layer of the active forecast hour may be visible, and it is
    at the opacity of [opacityRef]. *)
Definition exclusive (st : State) : Prop :=
  forall h o, In (h, o) (paint st) ->
    (activeForecast st = Some h -> o = opacity st) /\
    (activeForecast st <> Some h -> o = 0).

(** The active forecast hour, if any, is not the empty string. *)
Definition named (st : State) : Prop := activeForecast st <> Some "".

End Strings.

End Preloaded.

(** ** The mock field of the example screen *)

Module Mock.

Definition mockWidth : Z := 360.
Definition mockHeight : Z := 180.

(** A write to a [Uint8Array]. *)
Definition toUint8 (z : Z) : Z := (z mod 256)%Z.

(** [n] rounds of the loop that fills [mockData], four bytes a round. *)
Fixpoint fill (n : nat) (g : Rng) : list Z * Rng :=
  match n with
  | O => ([], g)
  | S n' =>
      let (r1, g1) := random g in
      let (r2, g2) := random g1 in
      let (rest, g3) := fill n' g2 in
      (toUint8 (floor (r1 * 100) + 78) :: toUint8 (floor (r2 * 100) + 78)
         :: toUint8 0 :: toUint8 255 :: rest, g3)
  end.

(** The field [fetchWindData] sets, of [width * height] pixels. *)
Definition mockField (width height : Z) (g : Rng) : Skia.WindData :=
  {| Skia.width := width; Skia.height := height;
     Skia.data := fst (fill (Z.to_nat (width * height)) g);
     Skia.bounds := {| west := -125; east := -65; north := 50; south := 24 |} |}.

Definition windData (g : Rng) : Skia.WindData := mockField mockWidth mockHeight g.

End Mock.

(** ** The tile preloader and the load progress *)

Module Preloader.

Definition gridSize : Z := 5.

(** The values of [d] in [for (let d = -startOffset; d <= startOffset; d++)]. *)
Definition span (startOffset : Z) : list Z :=
  map (fun i => (Z.of_nat i - startOffset)%Z)
      (seq 0 (Z.to_nat (2 * startOffset + 1))).

(** The tiles [preloadTiles] lists for the forecast hours, in order: the
    forecast hour and the tile coordinates put in the URL template. *)
Definition tilesToLoad {H : Type} (forecastHours : list H) (tileX tileY : Z)
  : list (H * Z * Z) :=
  let startOffset := floor (inject_Z gridSize / 2) in
  flat_map
    (fun forecastHour =>
       flat_map
         (fun dx =>
            map (fun dy => (forecastHour, (tileX + dx)%Z, (tileY + dy)%Z))
                (span startOffset))
         (span startOffset))
    forecastHours.

(** The progress [loadTile] sets when [loaded] of the [total] tiles have
    loaded or failed. *)
Definition progressAt (loaded total : Z) : Z :=
  round ((inject_Z loaded / inject_Z total) * 100).

(** [loadProgress] of the preloaded raster layers. *)
Definition loadProgress (loadedCount totalCount : Z) : Z :=
  if (0 <? totalCount)%Z
  then round ((inject_Z loadedCount / inject_Z totalCount) * 100)
  else 0%Z.

End Preloader.

(** ** Concrete inputs

    Fields, props and sources of draws on which the code is run. *)

(** The default props of the deck.gl layer, without a field. *)
Definition deckDefaults : Deck.Props :=
  {| Deck.windData := None;
     Deck.baseParticleCount := 4000;
     Deck.speedFactor := 0.08;
     Deck.trailLength := 15;
     Deck.meanMaxAge := 80;
     Deck.viewBounds := None;
     Deck.zoom := 3 |}.

(** A field of two pixels: wind data in the first, a hole in the second. *)
Definition twoPixels : Sampler.WindData :=
  {| Sampler.imageData := [200; 60; 0; 255; 0; 0; 0; 0]%Z;
     Sampler.width := 2; Sampler.height := 1;
     Sampler.bounds := HRRR_BOUNDS |}.

Section SkiaInputs.

Import Skia.

(** The camera bounds [{ ne, sw }] over the continental United States. *)
Definition conusView : Q * Q * (Q * Q) := ((-60, 53), (-135, 21)).

(** A field of one pixel without data. *)
Definition holeField : WindData :=
  {| width := 1; height := 1; data := [0; 0; 0; 0]%Z; bounds := HRRR_BOUNDS |}.

(** The default props ([trailLength = 15], [maxAge = 80]) at zoom 3, for
    two particles. *)
Definition holeProps : Props :=
  {| windData := Some holeField; mapBounds := Some conusView; zoom := 3;
     baseParticleCount := 2; trailLength := 15; meanMaxAge := 80 |}.

(** Draws for [initParticles] and the resets after it. *)
Definition holeDraws : Rng := cycle [0.5; 0.25; 0.125; 0.75; 0.375].

(** The particles [initParticles] creates, and the draws left. *)
Definition holeInit : list Particle * Rng :=
  match initParticles holeProps holeDraws with
  | Some r => r
  | None => ([], holeDraws)
  end.

(** A field of two pixels: a light wind to the north-east in the first, no
    data in the second. *)
Definition gapField : WindData :=
  {| width := 2; height := 1;
     data := [128; 128; 0; 255; 0; 0; 0; 0]%Z;
     bounds := HRRR_BOUNDS |}.

(** The default props for one particle, at zoom [z]. *)
Definition gapProps (z : Q) : Props :=
  {| windData := Some gapField; mapBounds := Some conusView; zoom := z;
     baseParticleCount := 1; trailLength := 15; meanMaxAge := 80 |}.

(** The particle is created at [(x, y) = (0.95, 0.5)], age 0, maximal age
    80. *)
Definition gapDraws : Rng := cycle [0.475; 0.5; 0; 0.5].

Definition gapInit : list Particle * Rng :=
  match initParticles (gapProps 3) gapDraws with
  | Some r => r
  | None => ([], gapDraws)
  end.

(** Four ticks at zoom 3, then one tick at zoom 13. *)
Definition gapTicks : list Props :=
  [gapProps 3; gapProps 3; gapProps 3; gapProps 3; gapProps 13].

(** A field of zero width. *)
Definition flatField : WindData :=
  {| width := 0; height := 1; data := []; bounds := HRRR_BOUNDS |}.

Definition flatProps : Props :=
  {| windData := Some flatField; mapBounds := Some conusView; zoom := 3;
     baseParticleCount := 1; trailLength := 15; meanMaxAge := 80 |}.

Definition flatInit : list Particle * Rng :=
  match initParticles flatProps holeDraws with
  | Some r => r
  | None => ([], holeDraws)
  end.

(** The default props on the field of one pixel, for one particle. *)
Definition edgeProps : Props :=
  {| windData := Some holeField; mapBounds := Some conusView; zoom := 3;
     baseParticleCount := 1; trailLength := 15; meanMaxAge := 80 |}.

(** Draws in [[0, 1)]: the particle is created at the centre of the pixel
    with age 79 and maximal age 65; the reset then draws the longitude
    0.25 and the latitude 0. *)
Definition edgeDraws : Rng := cycle [0.5; 0.5; 0.99; 0; 0.25; 0; 0.5].

Definition edgeInit : list Particle * Rng :=
  match initParticles edgeProps edgeDraws with
  | Some r => r
  | None => ([], edgeDraws)
  end.

(** A view over the Midwest as camera bounds, a screen of 400 by 800, and
    two particles: one with a trail of three points of which the first
    two are in view, one with a trail of a single point. *)
Definition midwestView : Q * Q * (Q * Q) := ((-80, 45), (-100, 35)).

Definition drawnParticles : list Particle :=
  [ {| id := 0; x := 10; y := 10; lng := -90; lat := 40; age := 3; maxAge := 80;
       trail := [ {| pt_lng := -90; pt_lat := 40 |};
                  {| pt_lng := -91; pt_lat := 41 |};
                  {| pt_lng := -101; pt_lat := 41 |} ] |};
    {| id := 1; x := 20; y := 20; lng := -85; lat := 37; age := 0; maxAge := 70;
       trail := [ {| pt_lng := -85; pt_lat := 37 |} ] |} ].

(** The loop before its first frame, on the particles [initParticles]
    made on the field without data, and frames delivered at 60 Hz. *)
Definition holeLoop : SkiaRender.Loop :=
  {| SkiaRender.lastTime := 0; SkiaRender.particles := fst holeInit;
     SkiaRender.draws := snd holeInit; SkiaRender.paths := [] |}.

Definition frames60 : list Q := [1000; 1016; 1033; 1050; 1066; 1083; 1100].

(** The particle [initParticles] creates on the field with the gap. *)
Definition gapParticle : Particle :=
  nth 0 (fst gapInit)
    {| id := 0; x := 0; y := 0; lng := 0; lat := 0; age := 0; maxAge := 0;
       trail := [] |}.

End SkiaInputs.

Section DeckInputs.

Import Deck.

(** A field of one pixel without data, as the hook delivers it. *)
Definition panField : Sampler.WindData :=
  {| Sampler.imageData := [0; 0; 0; 0]%Z;
     Sampler.width := 1; Sampler.height := 1;
     Sampler.bounds := HRRR_BOUNDS |}.

(** The default props with a base count of 2 (one particle at zoom 5),
    under the view [v]. *)
Definition panProps (v : Bounds) : Props :=
  {| windData := Some panField; baseParticleCount := 2; speedFactor := 0.08;
     trailLength := 15; meanMaxAge := 80; viewBounds := Some v; zoom := 5 |}.

(** A view over the Midwest, inside the data bounds, and a view over
    Europe, east of them. *)
Definition midwest : Bounds :=
  {| west := -100; east := -80; south := 35; north := 45 |}.

Definition europe : Bounds :=
  {| west := -10; east := 30; south := 35; north := 60 |}.

Definition panDraws : Rng := cycle [0.5; 0.5; 0.99; 0.1; 0.25; 0.5; 0.5].

Definition panInit : list Particle * Rng :=
  match initParticles (panProps midwest) None None panDraws with
  | Some r => r
  | None => ([], panDraws)
  end.

End DeckInputs.

(** Inputs for the deck.gl layers. *)
Section LayerInputs.

(** The field of two pixels with both alpha bytes set. *)
Definition twoPixelsOpaque : Sampler.WindData :=
  {| Sampler.imageData := [200; 60; 0; 255; 0; 0; 0; 255]%Z;
     Sampler.width := 2; Sampler.height := 1;
     Sampler.bounds := HRRR_BOUNDS |}.

(** A particle with a trail of two points, over the second pixel of
    [twoPixels], the one without data. *)
Definition coaster : Deck.Particle :=
  {| Deck.id := 0; Deck.x := 1.5; Deck.y := 0.5; Deck.age := 3; Deck.maxAge := 80;
     Deck.trail := [ {| Deck.pt_lng := -80; Deck.pt_lat := 40; Deck.pt_age := 1 |};
                     {| Deck.pt_lng := -81; Deck.pt_lat := 40; Deck.pt_age := 2 |} ] |}.

(** The default props of the layer without zoom adaptation, for two
    particles. *)
Definition basicProps : DeckBasic.Props :=
  {| DeckBasic.windData := Some panField; DeckBasic.particleCount := 2;
     DeckBasic.speedFactor := 0.08; DeckBasic.trailLength := 15;
     DeckBasic.meanMaxAge := 80 |}.

(** Draws that start with 0. *)
Definition zeroDraws : Rng := cycle [0; 0.5; 0.25; 0.75].

(** The default props of the point layer, for two particles. *)
Definition pointsProps : DeckPoints.Props :=
  {| DeckPoints.windData := Some twoPixels; DeckPoints.particleCount := 2;
     DeckPoints.particleSize := 2; DeckPoints.speedFactor := 0.25;
     DeckPoints.trailLength := 8;
     DeckPoints.colorScale := DeckPoints.DEFAULT_COLOR_SCALE;
     DeckPoints.meanMaxAge := 100 |}.

(** A particle of the point layer in a wind of 10 m/s. *)
Definition gust : DeckPoints.Particle :=
  {| DeckPoints.id := 0; DeckPoints.x := 0.5; DeckPoints.y := 0.5;
     DeckPoints.lng := -115.8; DeckPoints.lat := 36.85;
     DeckPoints.age := 3; DeckPoints.maxAge := 100;
     DeckPoints.u := 10; DeckPoints.v := 0; DeckPoints.magnitude := 10;
     DeckPoints.trail := [ (-116, 36.85); (-115.8, 36.85) ] |}.

End LayerInputs.

(** Inputs for the raster layer hooks and the example screen. *)

Section PreloadedInputs.
Import String.
(** Three forecast hours loaded, the first one shown. *)
Definition threeHours : Preloaded.State :=
  {| Preloaded.hasMap := true; Preloaded.isReady := true;
     Preloaded.paint := [ ("00"%string, 0.7); ("01"%string, 0); ("02"%string, 0) ];
     Preloaded.activeForecast := Some "00"%string;
     Preloaded.opacity := 0.7 |}.
End PreloadedInputs.

(** A particle of the example screen, in the middle of the mock field. *)
Definition midParticle : Skia.Particle :=
  {| Skia.id := 0; Skia.x := 180.5; Skia.y := 90.25; Skia.lng := -95; Skia.lat := 37;
     Skia.age := 0; Skia.maxAge := 80;
     Skia.trail := [ {| Skia.pt_lng := -95; Skia.pt_lat := 37 |} ] |}.

(** * Properties *)

(** ** Comparisons and floor *)

Lemma HRRR_BOUNDS_proper : properBounds HRRR_BOUNDS.
Proof. split; reflexivity. Defined.

Lemma Qltb_lt (a b : Q) : Qltb a b = true <-> a < b.
Proof.
  unfold Qltb. rewrite negb_true_iff. split; intro H.
  - apply Qnot_le_lt. intro Hle. apply Qle_bool_iff in Hle. congruence.
  - destruct (Qle_bool b a) eqn:E; [|reflexivity].
    apply Qle_bool_iff in E. exfalso. apply (Qlt_not_le _ _ H E).
Qed.

Lemma Qltb_ge (a b : Q) : Qltb a b = false <-> b <= a.
Proof.
  unfold Qltb. rewrite negb_false_iff. apply Qle_bool_iff.
Qed.

Lemma Qgeb_ge (a b : Q) : Qgeb a b = true <-> b <= a.
Proof. apply Qle_bool_iff. Qed.

Lemma Qgeb_lt (a b : Q) : Qgeb a b = false <-> a < b.
Proof.
  unfold Qgeb. split; intro H.
  - apply Qnot_le_lt. intro Hle. apply Qle_bool_iff in Hle. congruence.
  - destruct (Qle_bool b a) eqn:E; [|reflexivity].
    apply Qle_bool_iff in E. exfalso. apply (Qlt_not_le _ _ H E).
Qed.

Lemma floor_mono (a b : Q) : a <= b -> (floor a <= floor b)%Z.
Proof. apply Qfloor_resp_le. Qed.

Lemma floor_inject (n : Z) : floor (inject_Z n) = n.
Proof. apply Qfloor_Z. Qed.

Lemma floor_scale_mono (b : Z) (c1 c2 : Q) :
  (0 <= b)%Z -> c2 <= c1 ->
  (floor (inject_Z b * c2) <= floor (inject_Z b * c1))%Z.
Proof.
  intros Hb Hc. apply floor_mono.
  assert (0 <= inject_Z b) by (change 0 with (inject_Z 0); now rewrite <- Zle_Qle).
  nra.
Qed.

Lemma floor_scale_le_self (b : Z) (c : Q) :
  (0 <= b)%Z -> c <= 1 -> (floor (inject_Z b * c) <= b)%Z.
Proof.
  intros Hb Hc. rewrite <- (floor_inject b) at 2. apply floor_mono.
  assert (0 <= inject_Z b) by (change 0 with (inject_Z 0); now rewrite <- Zle_Qle).
  nra.
Qed.

(** Turns the boolean tests a zoom tier was selected by into inequalities. *)
Ltac tiers :=
  repeat match goal with
  | H : Qltb _ _ = true |- _ => apply Qltb_lt in H
  | H : Qltb _ _ = false |- _ => apply Qltb_ge in H
  | H : Qgeb _ _ = true |- _ => apply Qgeb_ge in H
  | H : Qgeb _ _ = false |- _ => apply Qgeb_lt in H
  end.

(** Splits on the tier [z] falls in. *)
Ltac tier_of z :=
  destruct (Qltb z 4) eqn:?;
  [| destruct (Qltb z 6) eqn:?;
     [| destruct (Qltb z 8) eqn:?;
        [| destruct (Qltb z 10) eqn:?;
           [| destruct (Qltb z 12) eqn:? ]]]].

(** ** Zoom policy *)

Example count_z5 : Skia.getParticleCount 5 2000 = 1000%Z.
Proof. reflexivity. Qed.

Example trail_z13 : Skia.getTrailLength 13 15 = 3%Z.
Proof. reflexivity. Qed.

Lemma getParticleCount_mono (z1 z2 : Q) (baseCount : Z) :
  z1 < z2 -> (0 <= baseCount)%Z ->
  (Skia.getParticleCount z2 baseCount <= Skia.getParticleCount z1 baseCount)%Z.
Proof.
  intros Hz Hb. unfold Skia.getParticleCount.
  tier_of z1; tier_of z2; tiers; try lra; try lia;
    try (apply floor_scale_mono; [assumption | lra]);
    try (apply floor_scale_le_self; [assumption | lra]).
Qed.

Lemma getSpeedFactor_mono (z1 z2 : Q) :
  z1 < z2 -> Skia.getSpeedFactor z2 <= Skia.getSpeedFactor z1.
Proof.
  intros Hz. unfold Skia.getSpeedFactor.
  tier_of z1; tier_of z2; tiers; lra.
Qed.

(** The deck.gl layer scales a base speed: its factor is non-increasing in
    the zoom when the base speed is not negative. *)
Lemma deck_getSpeedFactor_mono (pr : Deck.Props) (z1 z2 : Q) :
  0 <= Deck.speedFactor pr -> z1 < z2 ->
  Deck.getSpeedFactor pr z2 <= Deck.getSpeedFactor pr z1.
Proof.
  intros Hs Hz. unfold Deck.getSpeedFactor.
  tier_of z1; tier_of z2; tiers; lra.
Qed.

(** C8.  Zoom policy monotonicity: for zoom levels [z1 < z2] and a base
    particle count [>= 0], the particle count and the speed factor at [z2]
    are at most those at [z1]: both are non-increasing in the zoom. *)
Theorem zoom_policy_monotone (z1 z2 : Q) (baseCount : Z) :
  z1 < z2 -> (0 <= baseCount)%Z ->
  (Skia.getParticleCount z1 baseCount >= Skia.getParticleCount z2 baseCount)%Z /\
  Skia.getSpeedFactor z1 >= Skia.getSpeedFactor z2.
Proof.
  intros Hz Hb. split.
  - apply Z.le_ge. now apply getParticleCount_mono.
  - now apply getSpeedFactor_mono.
Qed.

Lemma zoom_policy_monotone_witness :
  5 < 13 # 2 /\ (0 <= 2000)%Z /\
  (Skia.getParticleCount 5 2000 >= Skia.getParticleCount (13 # 2) 2000)%Z /\
  Skia.getSpeedFactor 5 >= Skia.getSpeedFactor (13 # 2).
Proof.
  split; [reflexivity | split; [lia |]].
  apply (zoom_policy_monotone 5 (13 # 2) 2000); [reflexivity | lia].
Defined.

Example deck_speed_z5 : Deck.getSpeedFactor deckDefaults 5 == 0.056.
Proof. reflexivity. Qed.

(** C9 as stated fails: the deck.gl layer multiplies the base speed by
    0.7 on zoom 4-6, so that its factor at zoom 5 is not 0.75 times its
    factor at zoom 3. *)
Lemma deck_speed_row_4_6_off_table :
  ~ Table.speedConforms 5 (Deck.getSpeedFactor deckDefaults 3)
      (Deck.getSpeedFactor deckDefaults 5).
Proof.
  intros [m [Hm [Hlo Hhi]]].
  cbn in Hm, Hlo, Hhi.
  assert (m == 0.75) by (apply Qle_antisym; assumption).
  rewrite H in Hm. revert Hm. unfold Qeq. cbn. lia.
Qed.

Lemma skia_speed_conforms (z : Q) :
  Table.speedConforms z (Skia.getSpeedFactor 0) (Skia.getSpeedFactor z).
Proof.
  unfold Table.speedConforms, Table.multiplierIn, Table.speedRange,
    Skia.getSpeedFactor.
  change (Qltb 0 4) with true. cbv iota.
  tier_of z; cbn [fst snd].
  - exists 1. repeat split; lra.
  - exists 0.75. repeat split; lra.
  - exists 0.375. repeat split; lra.
  - exists 0.1875. repeat split; lra.
  - exists 0.075. repeat split; lra.
  - exists 0.025. repeat split; lra.
Qed.

Lemma deck_speed_conforms (pr : Deck.Props) (z : Q) :
  Table.multiplierIn (Table.deckSpeedRange z) (Deck.speedFactor pr)
    (Deck.getSpeedFactor pr z).
Proof.
  unfold Table.multiplierIn, Table.deckSpeedRange, Table.speedRange,
    Deck.getSpeedFactor.
  tier_of z; cbn [fst snd].
  - exists 1. repeat split; lra.
  - exists 0.7. repeat split; lra.
  - exists 0.4. repeat split; lra.
  - exists 0.15. repeat split; lra.
  - exists 0.06. repeat split; lra.
  - exists 0.02. repeat split; lra.
Qed.

Lemma floor_times_one (b : Z) : floor (inject_Z b * 1.00) = b.
Proof.
  rewrite <- (floor_inject b) at 2. unfold floor.
  apply Qfloor_comp. lra.
Qed.

Lemma skia_count_conforms (z : Q) (baseCount : Z) :
  Skia.getParticleCount z baseCount = Table.particleCount z baseCount.
Proof.
  unfold Skia.getParticleCount, Table.particleCount, Table.countMultiplier.
  tier_of z; [symmetry; apply floor_times_one | ..];
    unfold floor; apply Qfloor_comp; lra.
Qed.

Lemma skia_trail_conforms (z : Q) (baseLength : Z) :
  Skia.getTrailLength z baseLength = Table.trailLength z baseLength.
Proof.
  unfold Skia.getTrailLength, Table.trailLength, Table.trailMultiplier.
  tier_of z; cbv zeta; tiers;
    repeat match goal with
    | |- context [Qltb z 12] =>
        let E := fresh in
        destruct (Qltb z 12) eqn:E; tiers; try lra
    end;
    [symmetry; apply floor_times_one | ..];
    unfold floor; try (apply (f_equal (Z.max 3))); apply Qfloor_comp; lra.
Qed.

(** C9, amended.  Zoom step-table conformance: on every half-open zoom
    interval of the table the particle count is the floored product of
    the base count and the row's count multiplier, and the trail length
    is the floored product of the base length and the row's trail
    multiplier, with a floor of 3 from zoom 12 on, in both layers.  The
    speed factor of [SkiaWindParticles] is the zoom < 4 value times a
    multiplier in the row's range on every row (0.75 on zoom 4-6).  The
    speed factor of the zoom-adaptive deck.gl layer is the base speed
    times 0.7 on zoom 4-6 and times a multiplier in the row's range on
    the other rows. *)
Theorem zoom_table_conformance (z : Q) (base : Z) (pr : Deck.Props) :
  Skia.getParticleCount z base = Table.particleCount z base /\
  Skia.getTrailLength z base = Table.trailLength z base /\
  Table.speedConforms z (Skia.getSpeedFactor 0) (Skia.getSpeedFactor z) /\
  Deck.getParticleCount pr z = Table.particleCount z (Deck.baseParticleCount pr) /\
  Deck.getTrailLength pr z = Table.trailLength z (Deck.trailLength pr) /\
  Table.multiplierIn (Table.deckSpeedRange z) (Deck.speedFactor pr)
    (Deck.getSpeedFactor pr z).
Proof.
  split; [apply skia_count_conforms |].
  split; [apply skia_trail_conforms |].
  split; [apply skia_speed_conforms |].
  split; [apply (skia_count_conforms z (Deck.baseParticleCount pr)) |].
  split; [apply (skia_trail_conforms z (Deck.trailLength pr)) |].
  apply deck_speed_conforms.
Qed.

(** ** Channel decoding *)

Example decode_scenario :
  Sampler.decodeWindComponent 0 (-50) 50 == -50 /\
  Sampler.decodeWindComponent 128 (-50) 50 == 10 # 51.
Proof. split; reflexivity. Qed.

Lemma decode_strictly_increasing (min max e1 e2 : Q) :
  min < max -> e1 < e2 ->
  Sampler.decodeWindComponent e1 min max < Sampler.decodeWindComponent e2 min max.
Proof.
  intros Hr He. unfold Sampler.decodeWindComponent.
  cbv zeta.
  assert (Hd : 0 < max - min) by lra.
  apply Qplus_lt_l. apply Qmult_lt_r; [assumption |].
  unfold Qdiv. apply Qmult_lt_r; [reflexivity | assumption].
Qed.

(** C6.  Decode monotonicity and endpoints: for a range [min < max] the
    decoder [b / 255 * (max - min) + min] is strictly increasing in the
    byte [b] over [0..255], maps [0] to [min] and [255] to [max]. *)
Theorem decode_monotone_endpoints (min max : Q) (b1 b2 : Z) :
  min < max -> (0 <= b1)%Z -> (b1 < b2)%Z -> (b2 <= 255)%Z ->
  Sampler.decodeWindComponent (inject_Z b1) min max
    < Sampler.decodeWindComponent (inject_Z b2) min max /\
  Sampler.decodeWindComponent (inject_Z 0) min max == min /\
  Sampler.decodeWindComponent (inject_Z 255) min max == max.
Proof.
  intros Hr H0 Hb H255. split; [| split].
  - apply decode_strictly_increasing; [assumption |].
    now rewrite <- Zlt_Qlt.
  - unfold Sampler.decodeWindComponent. change (inject_Z 0) with 0. field.
  - unfold Sampler.decodeWindComponent. change (inject_Z 255) with 255. field.
Qed.

Lemma decode_monotone_endpoints_witness :
  -50 < 50 /\ (0 <= 127)%Z /\ (127 < 128)%Z /\ (128 <= 255)%Z /\
  Sampler.decodeWindComponent (inject_Z 127) (-50) 50
    < Sampler.decodeWindComponent (inject_Z 128) (-50) 50 /\
  Sampler.decodeWindComponent (inject_Z 0) (-50) 50 == -50 /\
  Sampler.decodeWindComponent (inject_Z 255) (-50) 50 == 50.
Proof.
  split; [reflexivity |]. split; [lia |]. split; [lia |]. split; [lia |].
  apply (decode_monotone_endpoints (-50) 50 127 128); [reflexivity | lia | lia | lia].
Defined.

(** ** Projection round trip *)

Lemma toLng_toPixelX (b : Bounds) (w : Z) (lng : Q) :
  west b < east b -> (0 < w)%Z ->
  toLng b w (toPixelX b w lng) == lng.
Proof.
  intros Hb Hw. unfold toLng, toPixelX.
  assert (Hw' : 0 < inject_Z w) by (change 0 with (inject_Z 0); now rewrite <- Zlt_Qlt).
  field. split; lra.
Qed.

Lemma toLat_toPixelY (b : Bounds) (h : Z) (lat : Q) :
  south b < north b -> (0 < h)%Z ->
  toLat b h (toPixelY b h lat) == lat.
Proof.
  intros Hb Hh. unfold toLat, toPixelY.
  assert (Hh' : 0 < inject_Z h) by (change 0 with (inject_Z 0); now rewrite <- Zlt_Qlt).
  field. split; lra.
Qed.

(** The mappings are the expressions of the code: the reset computes the
    pixel position with [toPixelX]/[toPixelY], the advection the geographic
    position with [toLng]/[toLat]. *)
Lemma respawn_uses_toPixel (wd : Skia.WindData) (m : Z) (g : Rng) (p : Skia.Particle) :
  let p' := fst (Skia.respawn wd m g p) in
  Skia.x p' = toPixelX (Skia.bounds wd) (Skia.width wd) (Skia.lng p') /\
  Skia.y p' = toPixelY (Skia.bounds wd) (Skia.height wd) (Skia.lat p').
Proof. split; reflexivity. Qed.




(** ** Field sampler *)

Lemma byteAt_Some (d : list Z) (i : Z) :
  (0 <= i < Z.of_nat (length d))%Z ->
  exists b, byteAt d i = Some b /\ In b d.
Proof.
  intros [H0 Hl]. unfold byteAt.
  destruct (i <? 0)%Z eqn:E; [apply Z.ltb_lt in E; lia |].
  destruct (nth_error d (Z.to_nat i)) as [b |] eqn:N.
  - exists b. split; [reflexivity |]. eapply nth_error_In; eauto.
  - apply nth_error_None in N. lia.
Qed.

Lemma byteAt_None (d : list Z) (i : Z) :
  (Z.of_nat (length d) <= i)%Z -> byteAt d i = None.
Proof.
  intro H. unfold byteAt.
  destruct (i <? 0)%Z; [reflexivity |].
  apply nth_error_None. lia.
Qed.

(** A byte that is there has every byte of a lower index before it. *)
Lemma byteAt_below (d : list Z) (i j : Z) (a : Z) :
  (0 <= j <= i)%Z -> byteAt d i = Some a -> exists b, byteAt d j = Some b.
Proof.
  intros Hj Hi.
  destruct (Z_lt_ge_dec i (Z.of_nat (length d))) as [Hlt | Hge].
  - destruct (byteAt_Some d j) as [b [Hb _]]; [lia | eauto].
  - rewrite byteAt_None in Hi by lia. discriminate.
Qed.

Lemma pixel_index_bound (w h px py : Z) :
  (0 <= px < w)%Z -> (0 <= py < h)%Z ->
  (0 <= (py * w + px) * 4 /\ (py * w + px) * 4 + 3 < 4 * w * h)%Z.
Proof. intros Hx Hy. nia. Qed.

(** In a well-formed buffer every in-range pixel has its four bytes. *)
Lemma pixel_defined (wd : Sampler.WindData) (px py : Z) :
  Sampler.wellFormed wd -> Sampler.inRange wd px py ->
  exists r g b a,
    Sampler.pixel wd px py = Some (r, g, b, a) /\
    (0 <= r <= 255)%Z /\ (0 <= g <= 255)%Z /\
    (0 <= b <= 255)%Z /\ (0 <= a <= 255)%Z.
Proof.
  intros [Hlen Hbytes] [Hx Hy].
  destruct (pixel_index_bound _ _ _ _ Hx Hy) as [Hlo Hhi].
  rewrite Forall_forall in Hbytes.
  unfold Sampler.pixel. cbv zeta.
  set (idx := ((py * Sampler.width wd + px) * 4)%Z) in *.
  destruct (byteAt_Some (Sampler.imageData wd) idx) as [r [Hr Ir]]; [lia |].
  destruct (byteAt_Some (Sampler.imageData wd) (idx + 1)) as [g [Hg Ig]]; [lia |].
  destruct (byteAt_Some (Sampler.imageData wd) (idx + 2)) as [b [Hb Ib]]; [lia |].
  destruct (byteAt_Some (Sampler.imageData wd) (idx + 3)) as [a [Ha Ia]]; [lia |].
  exists r, g, b, a. rewrite Hr, Hg, Hb, Ha.
  repeat split; try reflexivity; apply Hbytes; assumption.
Qed.

Lemma inRange_test (wd : Sampler.WindData) (px py : Z) :
  ((px <? 0)%Z || (Sampler.width wd <=? px)%Z
   || (py <? 0)%Z || (Sampler.height wd <=? py)%Z)%bool = false
  <-> Sampler.inRange wd px py.
Proof.
  unfold Sampler.inRange.
  rewrite !orb_false_iff, !Z.ltb_ge, !Z.leb_gt. lia.
Qed.

Lemma getWindAtPixel_None_iff (wd : Sampler.WindData) (x y : Q) :
  Sampler.getWindAtPixel (Some wd) x y = None <->
  ~ Sampler.inRange wd (floor x) (floor y) \/ Sampler.alphaAt wd (floor x) (floor y) = Some 0%Z.
Proof.
  unfold Sampler.getWindAtPixel, Sampler.alphaAt. cbv zeta.
  destruct ((floor x <? 0)%Z || (Sampler.width wd <=? floor x)%Z
            || (floor y <? 0)%Z || (Sampler.height wd <=? floor y)%Z)%bool eqn:E.
  - split; [| reflexivity]. intros _. left. intro Hin.
    apply inRange_test in Hin. congruence.
  - apply inRange_test in E.
    destruct (byteAt _ _) as [[| a | a] |]; split; intro H;
      try reflexivity; try discriminate; try (right; reflexivity);
      destruct H as [H | H]; try contradiction; discriminate.
Qed.

Lemma getWindAtPixel_valid (wd : Sampler.WindData) (x y : Q) (r g b a : Z) :
  Sampler.inRange wd (floor x) (floor y) ->
  Sampler.pixel wd (floor x) (floor y) = Some (r, g, b, a) ->
  a <> 0%Z ->
  Sampler.getWindAtPixel (Some wd) x y =
  Some {| Sampler.u := Some (Sampler.decodeWindComponent (inject_Z r) (-50) 50);
          Sampler.v := Some (Sampler.decodeWindComponent (inject_Z g) (-50) 50);
          Sampler.magnitude := Some ((inject_Z b / 255) * 70.7) |}.
Proof.
  intros Hin Hpix Ha. apply inRange_test in Hin.
  unfold Sampler.getWindAtPixel. cbv zeta. rewrite Hin.
  unfold Sampler.pixel in Hpix. cbv zeta in Hpix.
  destruct (byteAt _ ((floor y * Sampler.width wd + floor x) * 4)) as [r' |];
    [| discriminate].
  destruct (byteAt _ ((floor y * Sampler.width wd + floor x) * 4 + 1)) as [g' |];
    [| discriminate].
  destruct (byteAt _ ((floor y * Sampler.width wd + floor x) * 4 + 2)) as [b' |];
    [| discriminate].
  destruct (byteAt _ ((floor y * Sampler.width wd + floor x) * 4 + 3)) as [a' |];
    [| discriminate].
  injection Hpix as -> -> -> ->.
  destruct a; [contradiction | reflexivity | reflexivity].
Qed.

Lemma getWindAtPixel_floors (wd : option Sampler.WindData) (x y : Q) :
  Sampler.getWindAtPixel wd x y =
  Sampler.getWindAtPixel wd (inject_Z (floor x)) (inject_Z (floor y)).
Proof.
  unfold Sampler.getWindAtPixel. destruct wd; [| reflexivity].
  cbv zeta. now rewrite !floor_inject.
Qed.

(** C7.  Sampler invalidity conditions: on a well-formed field
    [getWindAtPixel] floors the coordinates to a pixel and returns [null]
    exactly when that pixel lies outside [[0, width) x [0, height)] or its
    alpha byte is 0; for an in-range pixel with a non-zero alpha byte it
    returns the decoded [u] and [v]; the result is a function of the field
    and of the floored coordinates alone. *)
Theorem getWindAtPixel_invalid_iff (wd : Sampler.WindData) (x y : Q) :
  Sampler.wellFormed wd ->
  (Sampler.getWindAtPixel (Some wd) x y = None <->
     ~ Sampler.inRange wd (floor x) (floor y) \/
     Sampler.alphaAt wd (floor x) (floor y) = Some 0%Z) /\
  (Sampler.inRange wd (floor x) (floor y) ->
   Sampler.alphaAt wd (floor x) (floor y) <> Some 0%Z ->
   exists r g b a,
     Sampler.pixel wd (floor x) (floor y) = Some (r, g, b, a) /\ a <> 0%Z /\
     Sampler.getWindAtPixel (Some wd) x y =
     Some {| Sampler.u := Some (Sampler.decodeWindComponent (inject_Z r) (-50) 50);
             Sampler.v := Some (Sampler.decodeWindComponent (inject_Z g) (-50) 50);
             Sampler.magnitude := Some ((inject_Z b / 255) * 70.7) |}) /\
  (forall x' y' : Q, floor x' = floor x -> floor y' = floor y ->
     Sampler.getWindAtPixel (Some wd) x' y' = Sampler.getWindAtPixel (Some wd) x y).
Proof.
  intro Hwf. split; [apply getWindAtPixel_None_iff | split].
  - intros Hin Halpha.
    destruct (pixel_defined wd _ _ Hwf Hin) as (r & g & b & a & Hpix & _).
    exists r, g, b, a. split; [assumption |].
    assert (Ha : a <> 0%Z).
    { intros ->. apply Halpha. unfold Sampler.alphaAt.
      unfold Sampler.pixel in Hpix. cbv zeta in Hpix.
      destruct (byteAt _ ((floor y * Sampler.width wd + floor x) * 4)); [| discriminate].
      destruct (byteAt _ ((floor y * Sampler.width wd + floor x) * 4 + 1)); [| discriminate].
      destruct (byteAt _ ((floor y * Sampler.width wd + floor x) * 4 + 2)); [| discriminate].
      destruct (byteAt _ ((floor y * Sampler.width wd + floor x) * 4 + 3)); [| discriminate].
      congruence. }
    split; [assumption |].
    apply (getWindAtPixel_valid wd x y r g b a); assumption.
  - intros x' y' Hx Hy.
    rewrite (getWindAtPixel_floors _ x' y'), (getWindAtPixel_floors _ x y).
    now rewrite Hx, Hy.
Qed.

Example sample_valid :
  Sampler.getWindAtPixel (Some twoPixels) 0.5 0.5 =
  Some {| Sampler.u := Some (Sampler.decodeWindComponent (inject_Z 200) (-50) 50);
          Sampler.v := Some (Sampler.decodeWindComponent (inject_Z 60) (-50) 50);
          Sampler.magnitude := Some ((inject_Z 0 / 255) * 70.7) |}.
Proof. reflexivity. Qed.

Example sample_hole : Sampler.getWindAtPixel (Some twoPixels) 1.5 0.5 = None.
Proof. reflexivity. Qed.

Example sample_outside : Sampler.getWindAtPixel (Some twoPixels) 2 0.5 = None.
Proof. reflexivity. Qed.

Lemma twoPixels_wellFormed : Sampler.wellFormed twoPixels.
Proof.
  split; [reflexivity |].
  repeat (apply Forall_cons; [lia |]). apply Forall_nil.
Defined.

Lemma getWindAtPixel_invalid_iff_witness :
  Sampler.wellFormed twoPixels /\
  (Sampler.getWindAtPixel (Some twoPixels) 1.5 0.5 = None <->
     ~ Sampler.inRange twoPixels (floor 1.5) (floor 0.5) \/
     Sampler.alphaAt twoPixels (floor 1.5) (floor 0.5) = Some 0%Z).
Proof.
  split; [exact twoPixels_wellFormed |].
  exact (proj1 (getWindAtPixel_invalid_iff twoPixels 1.5 0.5 twoPixels_wellFormed)).
Defined.

(** No byte decodes to a zero wind component: [b / 255 * 100 - 50] vanishes
    at 127.5 only. *)
Lemma decode_byte_nonzero (b : Z) :
  ~ Sampler.decodeWindComponent (inject_Z b) (-50) 50 == 0.
Proof.
  unfold Sampler.decodeWindComponent. cbv zeta. intro H.
  assert (E : inject_Z b * 2 == 255) by (field_simplify_eq in H; lra).
  unfold Qeq, inject_Z in E. cbn in E. lia.
Qed.

(** C10.  Magnitude decoded from the blue channel only: for an in-range
    pixel with bytes [(r, g, b, a)] and [a <> 0] the sampler reports the
    magnitude [b / 255 * 70.7], an expression of the blue byte alone; when
    [b = 0] the reported magnitude is 0 although the decoded [u] and [v]
    are not 0. *)
Theorem magnitude_from_blue_only (wd : Sampler.WindData) (x y : Q) (r g b a : Z) :
  Sampler.inRange wd (floor x) (floor y) ->
  Sampler.pixel wd (floor x) (floor y) = Some (r, g, b, a) ->
  a <> 0%Z ->
  exists s uu vv,
    Sampler.getWindAtPixel (Some wd) x y = Some s /\
    Sampler.magnitude s = Some ((inject_Z b / 255) * 70.7) /\
    Sampler.u s = Some uu /\ Sampler.v s = Some vv /\
    ~ uu == 0 /\ ~ vv == 0 /\
    (b = 0%Z -> (inject_Z b / 255) * 70.7 == 0).
Proof.
  intros Hin Hpix Ha.
  exists {| Sampler.u := Some (Sampler.decodeWindComponent (inject_Z r) (-50) 50);
            Sampler.v := Some (Sampler.decodeWindComponent (inject_Z g) (-50) 50);
            Sampler.magnitude := Some ((inject_Z b / 255) * 70.7) |}.
  exists (Sampler.decodeWindComponent (inject_Z r) (-50) 50).
  exists (Sampler.decodeWindComponent (inject_Z g) (-50) 50).
  split; [apply (getWindAtPixel_valid wd x y r g b a); assumption |].
  split; [reflexivity |]. split; [reflexivity |]. split; [reflexivity |].
  split; [apply decode_byte_nonzero |]. split; [apply decode_byte_nonzero |].
  intros ->. reflexivity.
Qed.

Lemma twoPixels_inRange : Sampler.inRange twoPixels (floor 0.5) (floor 0.5).
Proof. repeat split; vm_compute; congruence. Defined.

Lemma magnitude_from_blue_only_witness :
  Sampler.inRange twoPixels (floor 0.5) (floor 0.5) /\
  Sampler.pixel twoPixels (floor 0.5) (floor 0.5) = Some (200, 60, 0, 255)%Z /\
  255%Z <> 0%Z /\
  exists s uu vv,
    Sampler.getWindAtPixel (Some twoPixels) 0.5 0.5 = Some s /\
    Sampler.magnitude s = Some ((inject_Z 0 / 255) * 70.7) /\
    Sampler.u s = Some uu /\ Sampler.v s = Some vv /\
    ~ uu == 0 /\ ~ vv == 0 /\
    (0%Z = 0%Z -> (inject_Z 0 / 255) * 70.7 == 0).
Proof.
  split; [exact twoPixels_inRange |].
  split; [reflexivity |].
  split; [discriminate |].
  apply (magnitude_from_blue_only twoPixels 0.5 0.5 200 60 0 255);
    [exact twoPixels_inRange | reflexivity | discriminate].
Defined.

(** ** Particle step of [SkiaWindParticles] *)

Section SkiaStep.

Import Skia.

Lemma inject_Z_pos (n : Z) : (0 < n)%Z -> 0 < inject_Z n.
Proof. intro H. change 0 with (inject_Z 0). now rewrite <- Zlt_Qlt. Qed.

(** *** [forEach] *)

Lemma forEach_Forall2 {P : Type} (R : P -> P -> Prop)
    (f : Rng -> P -> P * Rng) :
  (forall g p, R p (fst (f g p))) ->
  forall ps g, Forall2 R ps (fst (forEach f g ps)).
Proof.
  intros Hf. induction ps as [| p ps IH]; intro g; cbn.
  - constructor.
  - specialize (Hf g p). destruct (f g p) as [p' g1]. cbn in Hf.
    specialize (IH g1). destruct (forEach f g1 ps) as [ps' g2]. cbn in *.
    now constructor.
Qed.

(** The same when the callback is only known to behave on sources of
    draws with a property that it hands on. *)
Lemma forEach_Forall2_inv {P : Type} (I : Rng -> Prop) (R : P -> P -> Prop)
    (f : Rng -> P -> P * Rng) :
  (forall g p, I g -> R p (fst (f g p)) /\ I (snd (f g p))) ->
  forall ps g, I g ->
    Forall2 R ps (fst (forEach f g ps)) /\ I (snd (forEach f g ps)).
Proof.
  intros Hf. induction ps as [| p ps IH]; intros g Hg; cbn.
  - split; [constructor | assumption].
  - destruct (Hf g p Hg) as [Hr Hi]. destruct (f g p) as [p' g1]. cbn in Hr, Hi.
    destruct (IH g1 Hi) as [Hrs His].
    destruct (forEach f g1 ps) as [ps' g2]. cbn in *.
    split; [now constructor | assumption].
Qed.

Lemma Forall2_compose {A : Type} (R1 R2 R3 : A -> A -> Prop) :
  (forall a b c, R1 a b -> R2 b c -> R3 a c) ->
  forall l1 l2 l3, Forall2 R1 l1 l2 -> Forall2 R2 l2 l3 -> Forall2 R3 l1 l3.
Proof.
  intros H l1 l2 l3 H12. revert l3.
  induction H12 as [| a b l1 l2 Hab _ IH]; intros l3 H23; inversion H23; subst.
  - constructor.
  - constructor; eauto.
Qed.

Lemma Forall2_refl {A : Type} (R : A -> A -> Prop) :
  (forall a, R a a) -> forall l, Forall2 R l l.
Proof. intros H l. induction l; constructor; auto. Qed.

Lemma Forall2_Forall_r {A : Type} (R : A -> A -> Prop) (Q : A -> Prop) :
  (forall a b, R a b -> Q b) ->
  forall l1 l2, Forall2 R l1 l2 -> Forall Q l2.
Proof.
  intros H l1 l2 H12. induction H12; constructor; eauto.
Qed.

(** *** Sampling *)

Lemma allAlphaZero_byte (k : nat) :
  forall d a, allAlphaZero d = true ->
    nth_error d (4 * k + 3) = Some a -> a = 0%Z.
Proof.
  induction k as [| k IH]; intros d a Hz Hn.
  - destruct d as [| r [| g [| b [| a' rest]]]]; try discriminate.
    cbn in Hn, Hz. injection Hn as <-.
    apply andb_prop in Hz. destruct Hz as [Hz _]. now apply Z.eqb_eq in Hz.
  - replace (4 * S k + 3)%nat with (S (S (S (S (4 * k + 3))))) in Hn by lia.
    destruct d as [| r [| g [| b [| a' rest]]]]; try discriminate.
    cbn in Hn, Hz. apply andb_prop in Hz. destruct Hz as [_ Hz].
    eapply IH; eauto.
Qed.

Lemma allAlphaZero_invalid (wd : WindData) (p : Particle) :
  allAlphaZero (data wd) = true -> validSample wd p = false.
Proof.
  intro Hz. unfold validSample, alphaUnder. cbv zeta.
  destruct ((0 <=? floor (x p))%Z && (floor (x p) <? width wd)%Z
            && (0 <=? floor (y p))%Z && (floor (y p) <? height wd)%Z)%bool eqn:E;
    [| reflexivity].
  destruct (byteAt _ _) as [a |] eqn:B; [| reflexivity].
  repeat (apply andb_prop in E; destruct E as [E ?]).
  apply Z.leb_le in E. apply Z.ltb_lt in H1. apply Z.leb_le in H0. apply Z.ltb_lt in H.
  unfold byteAt in B.
  destruct (_ <? 0)%Z; [discriminate |].
  set (k := (floor (y p) * width wd + floor (x p))%Z) in *.
  assert (Hk : (0 <= k)%Z) by (unfold k; nia).
  replace (Z.to_nat (k * 4 + 3)) with (4 * Z.to_nat k + 3)%nat in B by lia.
  rewrite (allAlphaZero_byte _ _ _ Hz B). reflexivity.
Qed.

(** Without a valid sample the first half of the callback does nothing. *)
Lemma advect_invalid (wd : WindData) (sf : Q) (tl : Z) (p : Particle) :
  validSample wd p = false -> advect wd sf tl p = p.
Proof.
  unfold validSample, alphaUnder, advect. cbv zeta.
  destruct ((0 <=? floor (x p))%Z && (floor (x p) <? width wd)%Z
            && (0 <=? floor (y p))%Z && (floor (y p) <? height wd)%Z)%bool;
    [| reflexivity].
  destruct (byteAt (data wd) ((floor (y p) * width wd + floor (x p)) * 4)) as [r |];
    [| reflexivity].
  destruct (byteAt (data wd) ((floor (y p) * width wd + floor (x p)) * 4 + 1)) as [g |];
    [| reflexivity].
  destruct (byteAt (data wd) ((floor (y p) * width wd + floor (x p)) * 4 + 3)) as [a |];
    [| reflexivity].
  intros ->. reflexivity.
Qed.

Lemma slice0_length_le {A : Type} (l : list A) (e : Z) :
  (0 <= e)%Z -> (Z.of_nat (length (slice0 l e)) <= e)%Z.
Proof.
  intro He. unfold slice0.
  destruct (e <? 0)%Z eqn:E; [apply Z.ltb_lt in E; lia |].
  rewrite length_firstn. lia.
Qed.

(** The first half of the callback leaves a trail within the bound when the
    sample is valid, and never touches the age or the maximal age. *)
Lemma advect_trail_bound (wd : WindData) (sf : Q) (tl : Z) (p : Particle) :
  (0 <= tl)%Z -> validSample wd p = true ->
  (Z.of_nat (length (trail (advect wd sf tl p))) <= tl)%Z.
Proof.
  intros Htl. unfold validSample, alphaUnder, advect. cbv zeta.
  destruct ((0 <=? floor (x p))%Z && (floor (x p) <? width wd)%Z
            && (0 <=? floor (y p))%Z && (floor (y p) <? height wd)%Z)%bool eqn:E;
    [| discriminate].
  set (idx := ((floor (y p) * width wd + floor (x p)) * 4)%Z).
  destruct (byteAt (data wd) (idx + 3)) as [a |] eqn:Ba; [| discriminate].
  assert (Hidx : (0 <= idx)%Z).
  { repeat (apply andb_prop in E; destruct E as [E ?]).
    apply Z.leb_le in E. apply Z.ltb_lt in H1. apply Z.leb_le in H0.
    unfold idx. nia. }
  destruct (byteAt_below (data wd) (idx + 3) idx a) as [r Hr]; [lia | assumption |].
  destruct (byteAt_below (data wd) (idx + 3) (idx + 1) a) as [g Hg]; [lia | assumption |].
  rewrite Hr, Hg. intros ->. cbn [trail].
  match goal with
  | |- context [if (tl <? ?n)%Z then _ else _] => destruct (tl <? n)%Z eqn:T
  end.
  - now apply slice0_length_le.
  - now apply Z.ltb_ge in T.
Qed.

Lemma advect_age (wd : WindData) (sf : Q) (tl : Z) (p : Particle) :
  age (advect wd sf tl p) = age p /\ maxAge (advect wd sf tl p) = maxAge p /\
  id (advect wd sf tl p) = id p.
Proof.
  unfold advect. cbv zeta.
  destruct (_ && _)%bool; [| auto].
  destruct (byteAt _ _); [| auto].
  destruct (byteAt _ _); [| auto].
  destruct (byteAt _ _); [| auto].
  destruct (_ <? _)%Z; auto.
Qed.

(** *** The reset *)

Lemma respawn_fresh (wd : WindData) (m : Z) (g : Rng) (p : Particle) :
  let p' := fst (respawn wd m g p) in
  id p' = id p /\ age p' = 0%Z /\ length (trail p') = 1%nat /\
  x p' = toPixelX (bounds wd) (width wd) (lng p') /\
  y p' = toPixelY (bounds wd) (height wd) (lat p') /\
  lng p' = west (bounds wd) + g 0%nat * (east (bounds wd) - west (bounds wd)) /\
  lat p' = south (bounds wd) + g 1%nat * (north (bounds wd) - south (bounds wd)).
Proof. cbn. repeat split; reflexivity. Qed.

(** The pixel position after a reset, in terms of the two draws: the
    longitude draw [r1] lands on [r1 * width], the latitude draw [r2] on
    [(1 - r2) * height]. *)
Lemma respawn_position (wd : WindData) (m : Z) (g : Rng) (p : Particle) :
  west (bounds wd) < east (bounds wd) ->
  south (bounds wd) < north (bounds wd) ->
  x (fst (respawn wd m g p)) == g 0%nat * inject_Z (width wd) /\
  y (fst (respawn wd m g p)) == (1 - g 1%nat) * inject_Z (height wd).
Proof.
  intros Hwe Hsn. cbn. split; field; lra.
Qed.

Lemma respawn_draws (wd : WindData) (m : Z) (g : Rng) (p : Particle) :
  forall n, snd (respawn wd m g p) n = g (3 + n)%nat.
Proof. reflexivity. Qed.

(** *** One particle, one tick *)

(** A tick on a particle without a valid sample: aged by one, then reset
    or kept. *)
Lemma updateParticle_invalid (wd : WindData) (sf : Q) (tl m : Z) (g : Rng)
    (p : Particle) :
  validSample wd p = false ->
  updateParticle wd sf tl m g p =
  if needsReset wd (grow p) then respawn wd m g (grow p) else (grow p, g).
Proof.
  intro H. unfold updateParticle. cbv zeta. now rewrite advect_invalid.
Qed.

Lemma needsReset_false (wd : WindData) (p : Particle) :
  needsReset wd p = false <-> (age p <= maxAge p)%Z /\ inGrid wd p.
Proof.
  unfold needsReset, inGrid.
  rewrite !orb_false_iff, Z.ltb_ge, !Qltb_ge, !Qgeb_lt. tauto.
Qed.

Lemma inGrid_grow (wd : WindData) (p : Particle) :
  inGrid wd (grow p) <-> inGrid wd p.
Proof. reflexivity. Qed.

(** A degenerate grid has no position inside it. *)
Lemma degenerate_needsReset (wd : WindData) (p : Particle) :
  (width wd = 0 \/ height wd = 0)%Z -> needsReset wd p = true.
Proof.
  intros Hd. destruct (needsReset wd p) eqn:E; [reflexivity |].
  apply needsReset_false in E. destruct E as [_ (Hx0 & Hxw & Hy0 & Hyh)].
  destruct Hd as [Hd | Hd]; rewrite Hd in *; change (inject_Z 0) with 0 in *; lra.
Qed.

Lemma degenerate_invalid (wd : WindData) (p : Particle) :
  (width wd = 0 \/ height wd = 0)%Z -> validSample wd p = false.
Proof.
  intros Hd. unfold validSample, alphaUnder. cbv zeta.
  destruct ((0 <=? floor (x p))%Z && (floor (x p) <? width wd)%Z
            && (0 <=? floor (y p))%Z && (floor (y p) <? height wd)%Z)%bool eqn:E;
    [| reflexivity].
  repeat (apply andb_prop in E; destruct E as [E ?]).
  apply Z.leb_le in E. apply Z.ltb_lt in H1. apply Z.leb_le in H0. apply Z.ltb_lt in H.
  lia.
Qed.

(** *** Coasting *)

Lemma coasts_zero (wd : WindData) (p : Particle) : coasts wd 0 p p.
Proof.
  split; [auto |]. intros _ _. repeat split; try reflexivity. cbn. lia.
Qed.

Lemma coasts_tick (wd : WindData) (sf : Q) (tl m : Z) (g : Rng) (p : Particle) :
  validSample wd p = false ->
  coasts wd 1 p (fst (updateParticle wd sf tl m g p)).
Proof.
  intro Hv. rewrite updateParticle_invalid by assumption.
  destruct (needsReset wd (grow p)) eqn:E.
  - split.
    + intros _. apply respawn_fresh.
    + intros Hin Hage. exfalso.
      assert (F : needsReset wd (grow p) = false).
      { apply needsReset_false. split; [cbn; lia | now apply inGrid_grow]. }
      congruence.
  - split; [auto |]. intros _ _. cbn. repeat split; reflexivity.
Qed.

Lemma coasts_step (wd : WindData) (k : nat) (a b c : Particle) :
  coasts wd 1 a b -> coasts wd k b c -> coasts wd (S k) a c.
Proof.
  intros [T1 C1] [Tk Ck]. split; [auto |].
  intros Hin Hage.
  destruct C1 as (Hx & Hy & Hlng & Hlat & Htr & Hag & Hmx); [assumption | lia |].
  destruct Ck as (Hx' & Hy' & Hlng' & Hlat' & Htr' & Hag' & Hmx').
  { unfold inGrid in *. now rewrite Hx, Hy. }
  { lia. }
  repeat split; try congruence. lia.
Qed.

Lemma updateParticles_coasts (pr : Props) (wd : WindData)
    (mb : Q * Q * (Q * Q)) (g : Rng) (ps : list Particle) :
  windData pr = Some wd -> mapBounds pr = Some mb ->
  allAlphaZero (data wd) = true ->
  Forall2 (coasts wd 1) ps (fst (updateParticles pr g ps)).
Proof.
  intros Hwd Hmb Hz. unfold updateParticles. rewrite Hwd, Hmb. cbv zeta.
  apply forEach_Forall2. intros g' p.
  apply coasts_tick. now apply allAlphaZero_invalid.
Qed.

Lemma steps_coasts (pr : Props) (wd : WindData) (mb : Q * Q * (Q * Q)) :
  windData pr = Some wd -> mapBounds pr = Some mb ->
  allAlphaZero (data wd) = true ->
  forall (n : nat) (g : Rng) (ps : list Particle),
    Forall2 (coasts wd n) ps (fst (steps n pr g ps)).
Proof.
  intros Hwd Hmb Hz. unfold steps.
  induction n as [| n IH]; intros g ps; cbn [repeat run].
  - cbn. apply Forall2_refl. apply coasts_zero.
  - pose proof (updateParticles_coasts pr wd mb g ps Hwd Hmb Hz) as H1.
    destruct (updateParticles pr g ps) as [ps1 g1]. cbn [fst] in H1.
    eapply Forall2_compose; [| exact H1 | apply IH].
    intros a b c. apply coasts_step.
Qed.

(** A tick with an invalid sample on any field: the trail is not extended,
    and position and trail are as before unless the reset fires. *)
Lemma invalid_tick (wd : WindData) (sf : Q) (tl m : Z) (g : Rng) (p : Particle) :
  validSample wd p = false ->
  let p' := fst (updateParticle wd sf tl m g p) in
  (length (trail p') <= Nat.max 1 (length (trail p)))%nat /\
  (needsReset wd (grow p) = false ->
   x p' = x p /\ y p' = y p /\ trail p' = trail p).
Proof.
  intro Hv. cbv zeta. rewrite updateParticle_invalid by assumption.
  destruct (needsReset wd (grow p)) eqn:E.
  - split; [| discriminate].
    destruct (respawn_fresh wd m g (grow p)) as (_ & _ & Hl & _).
    rewrite Hl. apply Nat.le_max_l.
  - split; [cbn [fst grow trail]; apply Nat.le_max_r |].
    intros _. cbn. repeat split; reflexivity.
Qed.

(** C1, amended.  Invalid-pixel coasting: on a field whose alpha byte is 0
    at every pixel, after any number [n] of ticks (100 among them) every
    particle whose trail had one point has a trail of exactly one point,
    and every particle that was inside the grid and does not exceed its
    maximal age within the [n] ticks has its position, coordinates and
    trail unchanged, its age grown by [n]; a particle that outlives its
    maximal age is reset to a fresh random position.  During a tick with
    an invalid sample, on any field, the trail is not extended, and the
    position is unchanged unless the reset fires in that tick. *)
Theorem coasting_on_invalid_field (pr : Props) (wd : WindData)
    (mb : Q * Q * (Q * Q)) (g : Rng) (ps : list Particle) (n : nat) :
  windData pr = Some wd -> mapBounds pr = Some mb ->
  properBounds (bounds wd) ->
  allAlphaZero (data wd) = true ->
  Forall2 (coasts wd n) ps (fst (steps n pr g ps)) /\
  (forall (wd' : WindData) (sf : Q) (tl m : Z) (g' : Rng) (p : Particle),
     validSample wd' p = false ->
     let p' := fst (updateParticle wd' sf tl m g' p) in
     (length (trail p') <= Nat.max 1 (length (trail p)))%nat /\
     (needsReset wd' (grow p) = false ->
      x p' = x p /\ y p' = y p /\ trail p' = trail p)).
Proof.
  intros Hwd Hmb _ Hz. split.
  - now apply (steps_coasts pr wd mb).
  - intros wd' sf tl m g' p Hv. now apply invalid_tick.
Qed.

Example holeInit_particles :
  map (fun p => (Qred (x p), Qred (y p), age p, maxAge p, length (trail p)))
      (fst holeInit)
  = [(1 # 2, 3 # 4, 10%Z, 87%Z, 1%nat); (3 # 8, 1 # 2, 20%Z, 68%Z, 1%nat)].
Proof. vm_compute. reflexivity. Qed.

Example holeInit_after_100 :
  map (fun p => (Qred (x p), Qred (y p), age p, maxAge p, length (trail p)))
      (fst (steps 100 holeProps (snd holeInit) (fst holeInit)))
  = [(1 # 4, 7 # 8, 22%Z, 87%Z, 1%nat); (3 # 4, 5 # 8, 51%Z, 80%Z, 1%nat)].
Proof. vm_compute. reflexivity. Qed.

Lemma coasting_on_invalid_field_witness :
  windData holeProps = Some holeField /\
  mapBounds holeProps = Some conusView /\
  properBounds (bounds holeField) /\
  allAlphaZero (data holeField) = true /\
  Forall2 (coasts holeField 100) (fst holeInit)
    (fst (steps 100 holeProps (snd holeInit) (fst holeInit))).
Proof.
  split; [reflexivity |]. split; [reflexivity |].
  split; [exact HRRR_BOUNDS_proper |]. split; [reflexivity |].
  exact (proj1 (coasting_on_invalid_field holeProps holeField conusView
                  (snd holeInit) (fst holeInit) 100
                  eq_refl eq_refl HRRR_BOUNDS_proper eq_refl)).
Defined.

(** C1 as stated fails: on the field without data, with the default
    maximal age of 80, the first particle is at [x = 1/2] after
    [initParticles] and at [x = 1/4] after 100 ticks: it has outlived its
    maximal age and has been reset. *)
Lemma coasting_100_ticks_moves :
  allAlphaZero (data holeField) = true /\
  match nth_error (fst holeInit) 0,
        nth_error (fst (steps 100 holeProps (snd holeInit) (fst holeInit))) 0 with
  | Some p, Some p' => ~ x p' == x p
  | _, _ => False
  end.
Proof.
  split; [reflexivity |].
  vm_compute. intro H. discriminate H.
Qed.

(** *** Trail length *)

Lemma updateParticle_trail (wd : WindData) (sf : Q) (tl m : Z) (g : Rng)
    (p : Particle) :
  (1 <= tl)%Z ->
  validSample wd p = true \/ trailWithin tl p ->
  trailWithin tl (fst (updateParticle wd sf tl m g p)).
Proof.
  intros Htl Hp. unfold updateParticle, trailWithin. cbv zeta.
  destruct (needsReset wd (grow (advect wd sf tl p))).
  - destruct (respawn_fresh wd m g (grow (advect wd sf tl p))) as (_ & _ & Hl & _).
    rewrite Hl. cbn. lia.
  - cbn [fst grow trail].
    destruct (validSample wd p) eqn:V.
    + apply advect_trail_bound; [lia | assumption].
    + rewrite advect_invalid by assumption.
      destruct Hp as [Hp | Hp]; [discriminate | exact Hp].
Qed.

(** C3, amended.  Trail length: after a tick whose trail length parameter
    is at least 1, the trail of a particle has at most that many points
    when the particle's sample was valid in the tick, or when its trail
    was within the bound before the tick; the trail of a particle that
    coasts over an invalid sample and is not reset is left as it was, not
    trimmed, so it stays above a bound that has decreased since the
    previous tick. *)
Theorem trail_length_bound (pr : Props) (wd : WindData)
    (mb : Q * Q * (Q * Q)) (g : Rng) (ps : list Particle) :
  windData pr = Some wd -> mapBounds pr = Some mb ->
  properBounds (bounds wd) ->
  (1 <= getTrailLength (zoom pr) (trailLength pr))%Z ->
  Forall2 (trailBounded wd (getTrailLength (zoom pr) (trailLength pr)))
    ps (fst (updateParticles pr g ps)).
Proof.
  intros Hwd Hmb _ Htl. unfold updateParticles. rewrite Hwd, Hmb. cbv zeta.
  apply forEach_Forall2. intros g' p. split.
  - intro Hp. now apply updateParticle_trail.
  - intros Hv Hr. rewrite updateParticle_invalid by assumption.
    rewrite Hr. reflexivity.
Qed.

Example gap_run :
  map (fun p => (Qred (x p), Qred (y p), age p, length (trail p)))
      (fst (run gapTicks (snd gapInit) (fst gapInit)))
  = [(1033 # 1020, 223 # 510, 5%Z, 5%nat)].
Proof. vm_compute. reflexivity. Qed.

Lemma trail_length_bound_witness :
  windData (gapProps 3) = Some gapField /\
  mapBounds (gapProps 3) = Some conusView /\
  properBounds (bounds gapField) /\
  (1 <= getTrailLength (zoom (gapProps 3)) (trailLength (gapProps 3)))%Z /\
  Forall2
    (trailBounded gapField
       (getTrailLength (zoom (gapProps 3)) (trailLength (gapProps 3))))
    (fst gapInit) (fst (updateParticles (gapProps 3) (snd gapInit) (fst gapInit))).
Proof.
  split; [reflexivity |]. split; [reflexivity |].
  split; [exact HRRR_BOUNDS_proper |].
  split; [vm_compute; discriminate |].
  apply (trail_length_bound (gapProps 3) gapField conusView (snd gapInit) (fst gapInit));
    [reflexivity | reflexivity | exact HRRR_BOUNDS_proper | vm_compute; discriminate].
Defined.

(** C3 as stated fails: the particle drifts for four ticks at zoom 3
    (trail length 15) into the pixel without data with a trail of five
    points; the tick at zoom 13 (trail length 3) finds no valid sample and
    leaves the five points. *)
Lemma trail_exceeds_decreased_length :
  getTrailLength 13 15 = 3%Z /\
  match nth_error (fst (run gapTicks (snd gapInit) (fst gapInit))) 0 with
  | Some p' =>
      length (trail p') = 5%nat /\
      ~ trailWithin (getTrailLength (zoom (gapProps 13)) (trailLength (gapProps 13))) p'
  | None => False
  end.
Proof.
  split; [reflexivity |].
  vm_compute. split; [reflexivity |]. intro H. apply H. reflexivity.
Qed.

(** *** Degenerate field *)

Lemma updateParticle_degenerate (wd : WindData) (sf : Q) (tl m : Z) (g : Rng)
    (p : Particle) :
  (width wd = 0 \/ height wd = 0)%Z ->
  updateParticle wd sf tl m g p = respawn wd m g (grow p).
Proof.
  intro Hd. rewrite updateParticle_invalid by now apply degenerate_invalid.
  now rewrite degenerate_needsReset.
Qed.

(** C4, amended.  Degenerate field: on a field of zero width or zero
    height a tick never throws and advects no particle, but it is not a
    no-op: every particle is reset in every tick (age 0, a trail of one
    fresh point, new random coordinates).  A tick is a no-op when the
    field or the camera bounds are [null]. *)
Theorem degenerate_field_step (pr : Props) (wd : WindData)
    (mb : Q * Q * (Q * Q)) (g : Rng) (ps : list Particle) :
  windData pr = Some wd -> mapBounds pr = Some mb ->
  properBounds (bounds wd) ->
  (width wd = 0 \/ height wd = 0)%Z ->
  Forall2 (wasReset wd (meanMaxAge pr)) ps (fst (updateParticles pr g ps)) /\
  (forall (pr0 : Props) (g0 : Rng) (ps0 : list Particle),
     windData pr0 = None \/ mapBounds pr0 = None ->
     updateParticles pr0 g0 ps0 = (ps0, g0)).
Proof.
  intros Hwd Hmb _ Hd. split.
  - unfold updateParticles. rewrite Hwd, Hmb. cbv zeta.
    apply forEach_Forall2. intros g' p.
    rewrite updateParticle_degenerate by assumption.
    split; [now exists g' |].
    destruct (respawn_fresh wd (meanMaxAge pr) g' (grow p)) as (Hi & Ha & Hl & _).
    repeat split; assumption.
  - intros pr0 g0 ps0 [H | H]; unfold updateParticles; rewrite H;
      [reflexivity | destruct (windData pr0); reflexivity].
Qed.

Lemma degenerate_field_step_witness :
  windData flatProps = Some flatField /\
  mapBounds flatProps = Some conusView /\
  properBounds (bounds flatField) /\
  (width flatField = 0 \/ height flatField = 0)%Z /\
  Forall2 (wasReset flatField (meanMaxAge flatProps)) (fst flatInit)
    (fst (updateParticles flatProps (snd flatInit) (fst flatInit))).
Proof.
  split; [reflexivity |]. split; [reflexivity |].
  split; [exact HRRR_BOUNDS_proper |].
  split; [left; reflexivity |].
  exact (proj1 (degenerate_field_step flatProps flatField conusView
                  (snd flatInit) (fst flatInit)
                  eq_refl eq_refl HRRR_BOUNDS_proper (or_introl eq_refl))).
Defined.

(** C4 as stated fails: on the field of zero width the particle created
    by [initParticles] has age 10 and latitude 28.975; one tick later its
    age is 0 and its latitude 36.85: the tick is not a no-op. *)
Lemma degenerate_step_not_noop :
  width flatField = 0%Z /\
  match nth_error (fst flatInit) 0,
        nth_error (fst (updateParticles flatProps (snd flatInit) (fst flatInit))) 0 with
  | Some p, Some p' => age p = 10%Z /\ age p' <> age p /\ ~ lat p' == lat p
  | _, _ => False
  end.
Proof.
  split; [reflexivity |].
  vm_compute. split; [reflexivity |]. split; intro H; discriminate H.
Qed.

(** *** Respawn bounds *)

Lemma cycle_unit_draws (l : list Q) :
  l <> [] -> Forall (fun q => 0 <= q /\ q < 1) l -> unit_draws (cycle l).
Proof.
  intros Hl Hall n. unfold cycle.
  rewrite Forall_forall in Hall. apply Hall. apply nth_In.
  apply Nat.mod_upper_bound. destruct l; [contradiction | discriminate].
Qed.

(** The reset maps the latitude draw 0 to [y = height], one past the last
    row of the grid. *)
Lemma respawn_zero_latitude_draw (wd : WindData) (m : Z) (g : Rng) (p : Particle) :
  west (bounds wd) < east (bounds wd) ->
  south (bounds wd) < north (bounds wd) ->
  g 1%nat == 0 ->
  y (fst (respawn wd m g p)) == inject_Z (height wd) /\
  ~ inGrid wd (fst (respawn wd m g p)).
Proof.
  intros Hwe Hsn H0.
  destruct (respawn_position wd m g p Hwe Hsn) as [_ Hy].
  assert (E : y (fst (respawn wd m g p)) == inject_Z (height wd)).
  { rewrite Hy, H0. ring. }
  split; [exact E |].
  intros (_ & _ & _ & Hlt). rewrite E in Hlt. revert Hlt. apply Qlt_irrefl.
Qed.




Lemma edgeDraws_unit : unit_draws edgeDraws.
Proof.
  apply cycle_unit_draws; [discriminate |].
  repeat (apply Forall_cons; [split; [discriminate | reflexivity] |]).
  apply Forall_nil.
Qed.

Example edgeInit_particle :
  map (fun p => (Qred (x p), Qred (y p), age p, maxAge p)) (fst edgeInit)
  = [(1 # 2, 1 # 2, 79%Z, 65%Z)].
Proof. vm_compute. reflexivity. Qed.

Lemma inGridb_spec (wd : WindData) (p : Particle) :
  inGridb wd p = true <-> inGrid wd p.
Proof.
  unfold inGridb, inGrid.
  rewrite !andb_true_iff, !Qle_bool_iff, !Qltb_lt. tauto.
Qed.

Lemma inGridb_false (wd : WindData) (p : Particle) :
  inGridb wd p = false -> ~ inGrid wd p.
Proof.
  intros H Hin. apply inGridb_spec in Hin. congruence.
Qed.

(** [Math.random()] may return 0.  When the latitude draw of a reset is
    0, the particle is put at [lat = south], that is at [y = height]: on
    the grid of one pixel the particle created inside the grid is, right
    after the tick that resets it, at [y = 1 = height]. *)
Lemma skia_respawn_zero_draw :
  match nth_error (fst edgeInit) 0,
        nth_error (fst (updateParticles edgeProps (snd edgeInit) (fst edgeInit))) 0 with
  | Some p, Some p' =>
      inGrid holeField p /\
      y p' == inject_Z (height holeField) /\
      ~ inGrid holeField p'
  | _, _ => False
  end.
Proof.
  assert (E : exists p p',
             nth_error (fst edgeInit) 0 = Some p /\
             nth_error (fst (updateParticles edgeProps (snd edgeInit) (fst edgeInit))) 0
               = Some p' /\
             inGridb holeField p = true /\
             y p' == inject_Z (height holeField) /\
             inGridb holeField p' = false).
  { do 2 eexists. split; [reflexivity |]. split; [reflexivity |].
    split; [reflexivity |]. split; reflexivity. }
  destruct E as (p & p' & -> & -> & Hin & Hy & Hout).
  split; [now apply inGridb_spec |]. split; [exact Hy |].
  now apply inGridb_false.
Qed.


End SkiaStep.

(** ** Particle step of the zoom-adaptive deck.gl layer *)

Section DeckStep.

Import Deck.







Lemma deck_needsReset_false (wd : Sampler.WindData) (p : Particle) :
  needsReset wd p = false <-> (age p <= maxAge p)%Z /\ inGrid wd p.
Proof.
  unfold needsReset, inGrid.
  rewrite !orb_false_iff, Z.ltb_ge, !Qltb_ge, !Qgeb_lt. tauto.
Qed.


Lemma deck_inGridb_spec (wd : Sampler.WindData) (p : Particle) :
  inGridb wd p = true <-> inGrid wd p.
Proof.
  unfold inGridb, inGrid.
  rewrite !andb_true_iff, !Qle_bool_iff, !Qltb_lt. tauto.
Qed.

(** The view that does not meet the data bounds gives an inverted spawn
    box, [west = -10 > east = -60.9]; the particle created inside the grid
    under the Midwest view is reset, under the Europe view, to
    [x = 1485/976 > 1 = width]. *)
Lemma deck_respawn_outside_disjoint_view :
  spawnBounds HRRR_BOUNDS (Some europe) 5
    = {| west := -10; east := -60.9; south := 35; north := 52.6 |} /\
  match nth_error (fst panInit) 0,
        nth_error (fst (updateParticles (panProps europe) (snd panInit) (fst panInit))) 0 with
  | Some p, Some p' =>
      inGrid panField p /\
      x p' == 1485 # 976 /\
      ~ inGrid panField p'
  | _, _ => False
  end.
Proof.
  split; [reflexivity |].
  assert (E : exists p p',
             nth_error (fst panInit) 0 = Some p /\
             nth_error (fst (updateParticles (panProps europe) (snd panInit)
                               (fst panInit))) 0 = Some p' /\
             inGridb panField p = true /\
             x p' == 1485 # 976 /\
             inGridb panField p' = false).
  { do 2 eexists. split; [reflexivity |]. split; [reflexivity |].
    split; [reflexivity |]. split; reflexivity. }
  destruct E as (p & p' & -> & -> & Hin & Hx & Hout).
  split; [now apply deck_inGridb_spec |]. split; [exact Hx |].
  intro H. apply deck_inGridb_spec in H. congruence.
Qed.

End DeckStep.

(** C2, the code at the failing inputs.  The reset does not always put
    the particle back into [[0, width) x [0, height)].  In
    [SkiaWindParticles], with draws of [Math.random()] in [[0, 1)] of
    which the latitude draw of the reset is 0, a particle created inside
    the grid of one pixel is left at [y = height] by the tick that resets
    it.  In the zoom-adaptive deck.gl layer, with a view that does not
    meet the data bounds and a zoom above 4, a particle created inside
    the grid is left at [x > width] by the tick that resets it. *)
Theorem respawn_leaves_grid :
  (unit_draws edgeDraws /\
   (0 < Skia.width holeField)%Z /\ (0 < Skia.height holeField)%Z /\
   west (Skia.bounds holeField) < east (Skia.bounds holeField) /\
   south (Skia.bounds holeField) < north (Skia.bounds holeField) /\
   match nth_error (fst edgeInit) 0,
         nth_error (fst (Skia.updateParticles edgeProps (snd edgeInit)
                           (fst edgeInit))) 0 with
   | Some p, Some p' =>
       Skia.inGrid holeField p /\
       Skia.y p' == inject_Z (Skia.height holeField) /\
       ~ Skia.inGrid holeField p'
   | _, _ => False
   end) /\
  (Deck.spawnBounds HRRR_BOUNDS (Some europe) 5
     = {| west := -10; east := -60.9; south := 35; north := 52.6 |} /\
   match nth_error (fst panInit) 0,
         nth_error (fst (Deck.updateParticles (panProps europe) (snd panInit)
                           (fst panInit))) 0 with
   | Some p, Some p' =>
       Deck.inGrid panField p /\
       Deck.x p' == 1485 # 976 /\
       ~ Deck.inGrid panField p'
   | _, _ => False
   end).
Proof.
  split.
  - split; [exact edgeDraws_unit |].
    split; [reflexivity |]. split; [reflexivity |].
    split; [reflexivity |]. split; [reflexivity |].
    exact skia_respawn_zero_draw.
  - exact deck_respawn_outside_disjoint_view.
Qed.

(** * Further properties *)

(** ** Screen projection and colours of [SkiaWindParticles] *)

Section SkiaRenderProps.

Import Skia SkiaRender.

Lemma Qgtb_gt (a b : Q) : Qgtb a b = true <-> b < a.
Proof. unfold Qgtb. apply Qltb_lt. Qed.

Lemma Qgtb_le (a b : Q) : Qgtb a b = false <-> a <= b.
Proof. unfold Qgtb. apply Qltb_ge. Qed.

Lemma projectToScreen_None (lng lat : Q) (mb : Q * Q * (Q * Q)) (sw sh : Q) :
  projectToScreen lng lat mb sw sh = None <-> ~ inView mb lng lat.
Proof.
  destruct mb as [[neLng neLat] [swLng swLat]]. unfold projectToScreen, inView.
  destruct (Qltb lng swLng || Qgtb lng neLng || Qltb lat swLat || Qgtb lat neLat) eqn:E.
  - split; [| reflexivity]. intros _ (H1 & H2 & H3 & H4).
    rewrite !orb_true_iff, !Qltb_lt, !Qgtb_gt in E.
    destruct E as [[[E | E] | E] | E]; lra.
  - split; [discriminate |]. intro H. exfalso. apply H.
    rewrite !orb_false_iff, !Qltb_ge, !Qgtb_le in E. tauto.
Qed.

Lemma projectToScreen_Some (lng lat : Q) (mb : Q * Q * (Q * Q)) (sw sh : Q)
    (s : Q * Q) :
  properView mb -> 0 <= sw -> 0 <= sh ->
  projectToScreen lng lat mb sw sh = Some s ->
  inView mb lng lat /\ onScreen sw sh s.
Proof.
  destruct mb as [[neLng neLat] [swLng swLat]].
  unfold projectToScreen, inView, properView, onScreen.
  intros [Hx Hy] Hw Hh.
  destruct (Qltb lng swLng || Qgtb lng neLng || Qltb lat swLat || Qgtb lat neLat) eqn:E;
    [discriminate |].
  rewrite !orb_false_iff, !Qltb_ge, !Qgtb_le in E.
  destruct E as [[[E1 E2] E3] E4].
  intros [= <-]. cbn [fst snd].
  assert (Fx : 0 <= (lng - swLng) / (neLng - swLng) /\ (lng - swLng) / (neLng - swLng) <= 1).
  { split; [apply Qle_shift_div_l; lra | apply Qle_shift_div_r; lra]. }
  assert (Fy : 0 <= (neLat - lat) / (neLat - swLat) /\ (neLat - lat) / (neLat - swLat) <= 1).
  { split; [apply Qle_shift_div_l; lra | apply Qle_shift_div_r; lra]. }
  repeat split; try assumption; nra.
Qed.

(** X1.  [projectToScreen] returns [null] exactly for the points outside
    the closed rectangle of the view; for a view with its north-east
    corner north-east of its south-west corner and a screen of
    non-negative size, every point it returns lies on the screen. *)
Theorem projectToScreen_in_view (lng lat : Q) (mb : Q * Q * (Q * Q)) (sw sh : Q) :
  properView mb -> 0 <= sw -> 0 <= sh ->
  (projectToScreen lng lat mb sw sh = None <-> ~ inView mb lng lat) /\
  (forall s, projectToScreen lng lat mb sw sh = Some s -> onScreen sw sh s).
Proof.
  intros Hv Hw Hh. split; [apply projectToScreen_None |].
  intros s Hs. now apply (projectToScreen_Some lng lat mb sw sh s).
Qed.

Lemma Qmin_cases (a b : Q) :
  (a <= b /\ Qmin a b = a) \/ (b < a /\ Qmin a b = b).
Proof.
  unfold Qmin. destruct (Qle_bool a b) eqn:E.
  - left. split; [now apply Qle_bool_iff | reflexivity].
  - right. split; [| reflexivity].
    apply Qnot_le_lt. intro H. apply Qle_bool_iff in H. congruence.
Qed.

Lemma Qmin_mono (a a' b : Q) : a <= a' -> Qmin a b <= Qmin a' b.
Proof.
  intro H.
  destruct (Qmin_cases a b) as [[H1 ->] | [H1 ->]];
    destruct (Qmin_cases a' b) as [[H2 ->] | [H2 ->]]; lra.
Qed.

Lemma floor_neg (a : Q) : a < 0 -> (floor a < 0)%Z.
Proof.
  intro H. unfold floor. pose proof (Qfloor_le a) as Hl.
  assert (Hq : inject_Z (Qfloor a) < inject_Z 0) by (change (inject_Z 0) with 0; lra).
  now rewrite <- Zlt_Qlt in Hq.
Qed.

Lemma floor_nonneg (a : Q) : 0 <= a -> (0 <= floor a)%Z.
Proof.
  intro H. change 0%Z with (floor 0). now apply floor_mono.
Qed.

Lemma colorIndex_eq (m : Q) :
  colorIndex m = Z.min (floor (Qmin (m / 40) 1 * 7)) 7.
Proof. reflexivity. Qed.

Lemma colorIndex_range (m : Q) : 0 <= m -> (0 <= colorIndex m <= 7)%Z.
Proof.
  intro H. rewrite colorIndex_eq.
  assert (Hd : 0 <= m / 40) by (apply Qle_shift_div_l; lra).
  assert (Hn : 0 <= Qmin (m / 40) 1)
    by (destruct (Qmin_cases (m / 40) 1) as [[_ ->] | [_ ->]]; lra).
  assert (0 <= floor (Qmin (m / 40) 1 * 7))%Z by (apply floor_nonneg; lra).
  lia.
Qed.

Lemma colorIndex_negative (m : Q) : m < 0 -> (colorIndex m < 0)%Z.
Proof.
  intro H. rewrite colorIndex_eq.
  assert (Hd : m / 40 < 0) by (apply Qlt_shift_div_r; lra).
  assert (Hn : Qmin (m / 40) 1 < 0)
    by (destruct (Qmin_cases (m / 40) 1) as [[_ ->] | [? ->]]; lra).
  assert (floor (Qmin (m / 40) 1 * 7) < 0)%Z by (apply floor_neg; lra).
  lia.
Qed.

Lemma colorIndex_mono (m m' : Q) : m <= m' -> (colorIndex m <= colorIndex m')%Z.
Proof.
  intro H. rewrite !colorIndex_eq.
  assert (Hd : m / 40 <= m' / 40).
  { unfold Qdiv. apply Qmult_le_compat_r; [assumption | discriminate]. }
  pose proof (Qmin_mono _ _ 1 Hd) as Hm.
  assert (floor (Qmin (m / 40) 1 * 7) <= floor (Qmin (m' / 40) 1 * 7))%Z
    by (apply floor_mono; lra).
  lia.
Qed.

Lemma colorIndex_saturates (m : Q) : 40 <= m -> colorIndex m = 7%Z.
Proof.
  intro H. rewrite colorIndex_eq.
  assert (Hd : 1 <= m / 40) by (apply Qle_shift_div_l; lra).
  assert (Hn : Qmin (m / 40) 1 == 1)
    by (destruct (Qmin_cases (m / 40) 1) as [[? ->] | [_ ->]]; lra).
  assert (E : floor (Qmin (m / 40) 1 * 7) = 7%Z).
  { change 7%Z with (floor 7) at 2. unfold floor. apply Qfloor_comp.
    rewrite Hn. reflexivity. }
  rewrite E. reflexivity.
Qed.

Lemma COLOR_SCALE_entry (i : Z) :
  (0 <= i <= 7)%Z -> exists c, itemAt COLOR_SCALE i = Some c /\ In c COLOR_SCALE.
Proof.
  intro H.
  assert (C : (i = 0 \/ i = 1 \/ i = 2 \/ i = 3 \/ i = 4 \/ i = 5 \/ i = 6 \/ i = 7)%Z)
    by lia.
  destruct C as [-> | [-> | [-> | [-> | [-> | [-> | [-> | ->]]]]]]];
    (eexists; split; [reflexivity | cbn; tauto]).
Qed.

Lemma getColorForSpeed_rgb (m : Q) (c : Z * Z * Z) :
  itemAt COLOR_SCALE (colorIndex m) = Some c -> getColorForSpeed m = Some (rgb c).
Proof.
  intro H. unfold getColorForSpeed. rewrite H. destruct c as [[r g] b]. reflexivity.
Qed.

Lemma getColorForSpeed_nonneg (m : Q) :
  0 <= m -> exists c, In c COLOR_SCALE /\ getColorForSpeed m = Some (rgb c).
Proof.
  intro H. destruct (COLOR_SCALE_entry _ (colorIndex_range m H)) as [c [Hc Hin]].
  exists c. split; [assumption | now apply getColorForSpeed_rgb].
Qed.

(** X2.  [getColorForSpeed] throws (the palette entry is [undefined])
    exactly for a negative magnitude; for a magnitude that is not
    negative it returns the colour of a palette entry; the entry's index
    does not decrease when the magnitude grows and is the last one, 7,
    from 40 m/s on. *)
Theorem getColorForSpeed_palette (m : Q) :
  (getColorForSpeed m = None <-> m < 0) /\
  (0 <= m ->
   exists c, In c COLOR_SCALE /\ getColorForSpeed m = Some (rgb c)) /\
  (forall m', m <= m' -> (colorIndex m <= colorIndex m')%Z) /\
  (40 <= m -> colorIndex m = 7%Z).
Proof.
  pose proof (getColorForSpeed_nonneg m) as Hpos.
  split; [| split; [exact Hpos | split]].
  - split.
    + intro Hn. apply Qnot_le_lt. intro H0.
      destruct (Hpos H0) as [c [_ Hc]]. congruence.
    + intro H. pose proof (colorIndex_negative m H) as Hi.
      unfold getColorForSpeed, itemAt.
      destruct (colorIndex m <? 0)%Z eqn:E; [reflexivity |].
      apply Z.ltb_ge in E. lia.
  - intros m'. apply colorIndex_mono.
  - apply colorIndex_saturates.
Qed.

End SkiaRenderProps.

Section ColourExamples.

Import String.
Local Open Scope string_scope.

Example colour_of_calm :
  SkiaRender.getColorForSpeed 0 = Some "rgb(100, 200, 255)".
Proof. reflexivity. Qed.

Example colour_of_storm :
  SkiaRender.getColorForSpeed 55 = Some "rgb(255, 50, 50)".
Proof. reflexivity. Qed.

End ColourExamples.

(** ** Paths of [buildPaths] *)

Section BuildPathsProps.

Import Skia SkiaRender.

Variable sqrt : Q -> Q.
Hypothesis sqrt_nonneg : forall q, 0 <= sqrt q.

Variable mb : Q * Q * (Q * Q).
Variables screenWidth screenHeight : Q.

Lemma polyline_snoc (vs : list (Q * Q)) (s : Q * Q) :
  vs <> [] -> polyline (vs ++ [s]) = polyline vs ++ [LineTo (fst s) (snd s)].
Proof.
  destruct vs as [| v vs]; [contradiction |]. intros _. cbn.
  now rewrite map_app.
Qed.

Lemma drawPoint_penAt (pen : Pen) (vs : list (Q * Q)) (point : GeoPoint) :
  penAt pen vs ->
  penAt (drawPoint mb screenWidth screenHeight pen point)
        (vs ++ visible mb screenWidth screenHeight [point]).
Proof.
  intros (Hv & Hs & Hh & Ht). unfold drawPoint, visible. cbn [flat_map].
  destruct (projectToScreen (pt_lng point) (pt_lat point) mb screenWidth screenHeight)
    as [[sx sy] |].
  - rewrite app_nil_r. destruct vs as [| v vs].
    + cbn in Hs. rewrite Hs. unfold penAt. cbn.
      rewrite Hv. split; [reflexivity |]. split; [reflexivity |].
      split; [split; discriminate |].
      split; [lia |]. intros _. apply Ht. cbn. lia.
    + cbn in Hs. rewrite Hs. cbn [negb]. unfold penAt.
      cbn [verbs started headPos tailPos].
      rewrite Hv, (polyline_snoc (v :: vs) (sx, sy)) by discriminate.
      split; [reflexivity |]. split; [reflexivity |]. split; [| split].
      * split; intro H; [apply Hh in H |]; discriminate.
      * discriminate.
      * rewrite length_app. cbn. lia.
  - cbn [app]. rewrite !app_nil_r. repeat split; tauto.
Qed.

Lemma fold_drawPoint_penAt (t : list GeoPoint) :
  forall pen vs, penAt pen vs ->
    penAt (fold_left (drawPoint mb screenWidth screenHeight) t pen)
          (vs ++ visible mb screenWidth screenHeight t).
Proof.
  induction t as [| point t IH]; intros pen vs H.
  - cbn. now rewrite app_nil_r.
  - cbn [fold_left].
    replace (visible mb screenWidth screenHeight (point :: t))
      with (visible mb screenWidth screenHeight [point]
            ++ visible mb screenWidth screenHeight t)
      by (unfold visible; cbn [flat_map]; now rewrite app_nil_r).
    rewrite app_assoc. apply IH. now apply drawPoint_penAt.
Qed.

Lemma tracePath_penAt (t : list GeoPoint) :
  penAt (tracePath mb screenWidth screenHeight t)
        (visible mb screenWidth screenHeight t).
Proof.
  unfold tracePath.
  apply (fold_drawPoint_penAt t _ []).
  unfold penAt. cbn. repeat split; try reflexivity; try tauto; lia.
Qed.

Lemma visible_length (t : list GeoPoint) :
  (length (visible mb screenWidth screenHeight t) <= length t)%nat.
Proof.
  induction t as [| point t IH]; [apply Nat.le_refl |].
  unfold visible in *. cbn [flat_map]. rewrite length_app.
  destruct (projectToScreen _ _ _ _ _); cbn; lia.
Qed.

Lemma map_vertex_polyline (vs : list (Q * Q)) : map vertex (polyline vs) = vs.
Proof.
  destruct vs as [| [a b] vs]; [reflexivity |]. cbn. f_equal.
  rewrite map_map. cbn. induction vs as [| [c d] vs IH]; [reflexivity |].
  cbn. now rewrite IH.
Qed.

(** What [buildPath] does, by the number of points in view. *)
Lemma buildPath_cases (p : Particle) :
  let vs := visible mb screenWidth screenHeight (trail p) in
  if (2 <=? length vs)%nat then
    exists c, In c COLOR_SCALE /\
      buildPath sqrt mb screenWidth screenHeight p
      = Pushed {| path := polyline vs; headColor := rgb c;
                  tailColor := transparent |}
  else buildPath sqrt mb screenWidth screenHeight p = Nothing.
Proof.
  cbv zeta. unfold buildPath.
  pose proof (tracePath_penAt (trail p)) as (Hv & Hs & Hh & Ht).
  pose proof (visible_length (trail p)) as Hl.
  destruct (2 <=? length (visible mb screenWidth screenHeight (trail p)))%nat eqn:E.
  - apply Nat.leb_le in E.
    destruct (trail p) as [| t0 [| t1 rest]] eqn:Et;
      [cbn [length] in Hl; lia | cbn [length] in Hl; lia |].
    destruct (visible mb screenWidth screenHeight (t0 :: t1 :: rest)) as [| v vs] eqn:Ev;
      [cbn in E; lia |].
    cbn [negb] in Hs. rewrite Hs.
    destruct (headPos _) as [hp |]; [| exfalso; assert (H : v :: vs = []) by (now apply Hh); discriminate].
    destruct (tailPos _) as [tp |]; [| exfalso; assert (H : (length (v :: vs) < 2)%nat) by (now apply Ht); lia].
    match goal with
    | |- context [getColorForSpeed ?m] =>
        destruct (getColorForSpeed_nonneg m) as [c [Hin Hc]]
    end.
    { pose proof (sqrt_nonneg
        ((pt_lng t0 - pt_lng t1) * (pt_lng t0 - pt_lng t1) +
         (pt_lat t0 - pt_lat t1) * (pt_lat t0 - pt_lat t1))). nra. }
    exists c. split; [assumption |]. rewrite Hc, Hv. reflexivity.
  - apply Nat.leb_gt in E.
    destruct (trail p) as [| t0 [| t1 rest]] eqn:Et; try reflexivity.
    destruct (visible mb screenWidth screenHeight (t0 :: t1 :: rest)) as [| v vs] eqn:Ev.
    + cbn [negb] in Hs. rewrite Hs. reflexivity.
    + cbn [negb] in Hs. rewrite Hs.
      destruct (headPos _); [| reflexivity].
      destruct (tailPos _) as [tp |] eqn:Etp; [| reflexivity].
      exfalso. assert (H : Some tp = None) by (now apply Ht). discriminate.
Qed.

Lemma visible_onScreen (t : list GeoPoint) :
  properView mb -> 0 <= screenWidth -> 0 <= screenHeight ->
  Forall (onScreen screenWidth screenHeight) (visible mb screenWidth screenHeight t).
Proof.
  intros Hv Hw Hh. induction t as [| point t IH]; [constructor |].
  unfold visible in *. cbn [flat_map]. apply Forall_app. split; [| exact IH].
  destruct (projectToScreen (pt_lng point) (pt_lat point) mb screenWidth screenHeight)
    as [s |] eqn:E; [| constructor].
  constructor; [| constructor].
  eapply projectToScreen_Some; eauto.
Qed.

Lemma polyline_length (vs : list (Q * Q)) : length (polyline vs) = length vs.
Proof. destruct vs; [reflexivity |]. cbn. now rewrite length_map. Qed.

Lemma collectPaths_spec (ps : list Particle) :
  properView mb -> 0 <= screenWidth -> 0 <= screenHeight ->
  forall acc, exists items,
    collectPaths sqrt mb screenWidth screenHeight ps acc = Some (acc ++ items) /\
    map (fun tp => map vertex (path tp)) items
    = filter (fun vs => (2 <=? length vs)%nat)
        (map (fun p => visible mb screenWidth screenHeight (trail p)) ps) /\
    Forall (wellDrawn screenWidth screenHeight) items.
Proof.
  intros Hv Hw Hh. induction ps as [| p ps IH]; intro acc.
  - exists []. cbn. rewrite app_nil_r. repeat split. constructor.
  - cbn [collectPaths map filter].
    pose proof (buildPath_cases p) as Hp. cbv zeta in Hp.
    destruct (2 <=? length (visible mb screenWidth screenHeight (trail p)))%nat eqn:E.
    + destruct Hp as [c [Hin Hp]]. rewrite Hp.
      destruct (IH (acc ++ [{| path := polyline (visible mb screenWidth screenHeight (trail p));
                               headColor := rgb c; tailColor := transparent |}]))
        as [items [Hi [Hm Hf]]].
      eexists (_ :: items). rewrite Hi, <- app_assoc. split; [reflexivity |].
      split.
      * cbn [map path]. rewrite map_vertex_polyline, Hm. reflexivity.
      * constructor; [| exact Hf].
        unfold wellDrawn. cbn [path headColor tailColor].
        rewrite map_vertex_polyline, polyline_length.
        split; [reflexivity |]. split; [now apply Nat.leb_le |].
        split; [now apply visible_onScreen |]. split; [reflexivity |].
        now exists c.
    + rewrite Hp. destruct (IH acc) as [items H]. now exists items.
Qed.

(** X3.  With a square root that is not negative, a view with its
    north-east corner north-east of its south-west corner and a screen of
    non-negative size, [buildPaths] does not throw and makes one path for
    each particle that has at least two trail points in view, in the order
    of the particles: the path goes through exactly the trail points in
    view, in the order of the trail, as a [MoveTo] followed by [LineTo]s,
    every point on the screen.  A particle with fewer points in view
    (a trail of one point, right after it is created or reset) gives no
    path.  Without camera bounds the paths are left as they were. *)
Theorem buildPaths_polylines (ps : list Particle) (old : list TrailPath) :
  properView mb -> 0 <= screenWidth -> 0 <= screenHeight ->
  (exists items,
     buildPaths sqrt (Some mb) screenWidth screenHeight ps old = Some items /\
     map (fun tp => map vertex (path tp)) items
     = filter (fun vs => (2 <=? length vs)%nat)
         (map (fun p => visible mb screenWidth screenHeight (trail p)) ps) /\
     Forall (wellDrawn screenWidth screenHeight) items) /\
  buildPaths sqrt None screenWidth screenHeight ps old = Some old.
Proof.
  intros Hv Hw Hh. split; [| reflexivity].
  destruct (collectPaths_spec ps Hv Hw Hh []) as [items H].
  exists items. exact H.
Qed.

End BuildPathsProps.

Lemma intSqrt_nonneg (q : Q) : 0 <= SkiaRender.intSqrt q.
Proof.
  unfold SkiaRender.intSqrt. change 0 with (inject_Z 0).
  rewrite <- Zle_Qle. apply Z.sqrt_nonneg.
Defined.

Lemma midwestView_proper : SkiaRender.properView midwestView.
Proof. split; reflexivity. Defined.

Lemma buildPaths_polylines_witness :
  (forall q, 0 <= SkiaRender.intSqrt q) /\
  SkiaRender.properView midwestView /\ 0 <= 400 /\ 0 <= 800 /\
  exists items,
    SkiaRender.buildPaths SkiaRender.intSqrt (Some midwestView) 400 800
      drawnParticles [] = Some items /\
    map (fun tp => map SkiaRender.vertex (SkiaRender.path tp)) items
    = filter (fun vs => (2 <=? length vs)%nat)
        (map (fun p => SkiaRender.visible midwestView 400 800 (Skia.trail p))
           drawnParticles) /\
    Forall (SkiaRender.wellDrawn 400 800) items.
Proof.
  split; [exact intSqrt_nonneg |]. split; [exact midwestView_proper |].
  split; [discriminate |]. split; [discriminate |].
  exact (proj1 (buildPaths_polylines SkiaRender.intSqrt intSqrt_nonneg
                  midwestView 400 800 drawnParticles []
                  midwestView_proper ltac:(discriminate) ltac:(discriminate))).
Defined.

Example drawn_vertices :
  match SkiaRender.buildPaths SkiaRender.intSqrt (Some midwestView) 400 800
          drawnParticles [] with
  | Some [tp] =>
      map (fun s => (Qred (fst s), Qred (snd s)))
          (map SkiaRender.vertex (SkiaRender.path tp))
      = [(200, 400); (180, 320)]
  | _ => False
  end.
Proof. vm_compute. reflexivity. Qed.

(** ** The animation loop *)

Section AnimateProps.

Import Skia SkiaRender.

Variable sqrt : Q -> Q.
Hypothesis sqrt_nonneg : forall q, 0 <= sqrt q.

Lemma buildPaths_total (mbo : option (Q * Q * (Q * Q))) (sw sh : Q)
    (ps : list Particle) (old : list TrailPath) :
  match mbo with Some mb => properView mb | None => True end ->
  0 <= sw -> 0 <= sh ->
  exists items, buildPaths sqrt mbo sw sh ps old = Some items.
Proof.
  intros Hv Hw Hh. destruct mbo as [mb |].
  - destruct (collectPaths_spec sqrt sqrt_nonneg mb sw sh ps Hv Hw Hh [])
      as [items [H _]].
    now exists items.
  - now exists old.
Qed.

Lemma steps_S (n : nat) (pr : Props) (g : Rng) (ps : list Particle) :
  steps (S n) pr g ps
  = steps n pr (snd (updateParticles pr g ps)) (fst (updateParticles pr g ps)).
Proof.
  unfold steps. cbn [repeat run]. now destruct (updateParticles pr g ps).
Qed.

Lemma last_cons_default {A : Type} (l : list A) :
  forall t d, last (t :: l) d = last l t.
Proof.
  induction l as [| a l IH]; intros t d; [reflexivity |].
  change (last (t :: a :: l) d) with (last (a :: l) d).
  now rewrite !IH.
Qed.

Lemma frames_ticks (pr : Props) (sw sh : Q) (ts : list Q) :
  match mapBounds pr with Some mb => properView mb | None => True end ->
  0 <= sw -> 0 <= sh ->
  forall st, exists st',
    frames sqrt pr sw sh st ts = Some st' /\
    spaced (lastTime st) (tickTimes (lastTime st) ts) /\
    (particles st', draws st')
    = steps (length (tickTimes (lastTime st) ts)) pr (draws st) (particles st) /\
    lastTime st' = last (tickTimes (lastTime st) ts) (lastTime st).
Proof.
  intros Hv Hw Hh. induction ts as [| t ts IH]; intro st.
  - exists st. cbn. repeat split.
  - cbn [frames tickTimes]. unfold animate.
    destruct (Qgeb (t - lastTime st) frameInterval) eqn:E.
    + destruct (updateParticles pr (draws st) (particles st)) as [ps g] eqn:U.
      destruct (buildPaths_total (mapBounds pr) sw sh ps (paths st) Hv Hw Hh)
        as [items Hb].
      rewrite Hb.
      destruct (IH {| lastTime := t; particles := ps; draws := g; paths := items |})
        as [st' (Hf & Hs & Hp & Hl)].
      cbn [lastTime particles draws] in Hs, Hp, Hl.
      exists st'. split; [exact Hf |]. split; [| split].
      * cbn [spaced]. split; [| exact Hs]. apply Qgeb_ge in E. lra.
      * cbn [length]. rewrite steps_S, U. exact Hp.
      * rewrite Hl. symmetry. apply last_cons_default.
    + destruct (IH st) as [st' H]. now exists st'.
Qed.

(** X4.  The animation loop never throws (for a square root that is not
    negative, camera bounds that are proper when present and a screen of
    non-negative size) and is throttled: over the frames delivered at the
    times [ts], the simulation makes a tick at a frame only when at least
    1000/30 ms have passed since the frame of the last tick, so that
    successive ticks are at least 1000/30 ms apart; the particles after
    the frames are those after as many calls of [updateParticles] as
    there were such frames. *)
Theorem animate_throttled (pr : Props) (sw sh : Q) (st : Loop) (ts : list Q) :
  match mapBounds pr with Some mb => properView mb | None => True end ->
  0 <= sw -> 0 <= sh ->
  exists st',
    frames sqrt pr sw sh st ts = Some st' /\
    spaced (lastTime st) (tickTimes (lastTime st) ts) /\
    (particles st', draws st')
    = steps (length (tickTimes (lastTime st) ts)) pr (draws st) (particles st) /\
    lastTime st' = last (tickTimes (lastTime st) ts) (lastTime st).
Proof.
  intros Hv Hw Hh. now apply frames_ticks.
Qed.

End AnimateProps.

Example frames60_ticks :
  SkiaRender.tickTimes 0 frames60 = [1000; 1050; 1100].
Proof. reflexivity. Qed.

Lemma conusView_proper : SkiaRender.properView conusView.
Proof. split; reflexivity. Defined.

Lemma animate_throttled_witness :
  (forall q, 0 <= SkiaRender.intSqrt q) /\
  match Skia.mapBounds holeProps with
  | Some mb => SkiaRender.properView mb
  | None => True
  end /\
  0 <= 400 /\ 0 <= 800 /\
  exists st',
    SkiaRender.frames SkiaRender.intSqrt holeProps 400 800 holeLoop frames60 = Some st' /\
    SkiaRender.spaced (SkiaRender.lastTime holeLoop)
      (SkiaRender.tickTimes (SkiaRender.lastTime holeLoop) frames60) /\
    (SkiaRender.particles st', SkiaRender.draws st')
    = Skia.steps (length (SkiaRender.tickTimes (SkiaRender.lastTime holeLoop) frames60))
        holeProps (SkiaRender.draws holeLoop) (SkiaRender.particles holeLoop) /\
    SkiaRender.lastTime st'
    = last (SkiaRender.tickTimes (SkiaRender.lastTime holeLoop) frames60)
        (SkiaRender.lastTime holeLoop).
Proof.
  split; [exact intSqrt_nonneg |]. split; [exact conusView_proper |].
  split; [discriminate |]. split; [discriminate |].
  exact (animate_throttled SkiaRender.intSqrt intSqrt_nonneg holeProps 400 800
           holeLoop frames60 conusView_proper
           ltac:(discriminate) ltac:(discriminate)).
Defined.

Lemma projectToScreen_in_view_witness :
  SkiaRender.properView midwestView /\ 0 <= 400 /\ 0 <= 800 /\
  (SkiaRender.projectToScreen (-90) 40 midwestView 400 800 = None <->
     ~ SkiaRender.inView midwestView (-90) 40) /\
  (forall s, SkiaRender.projectToScreen (-90) 40 midwestView 400 800 = Some s ->
     SkiaRender.onScreen 400 800 s).
Proof.
  split; [exact midwestView_proper |].
  split; [discriminate |]. split; [discriminate |].
  exact (projectToScreen_in_view (-90) 40 midwestView 400 800
           midwestView_proper ltac:(discriminate) ltac:(discriminate)).
Defined.

(** ** Creation and upkeep of the particles of [SkiaWindParticles] *)

Section SkiaParticleProps.

Import Skia.

Lemma floor_unit_scale (r : Q) (n : Z) :
  0 <= r -> r < 1 -> (0 < n)%Z -> (0 <= floor (r * inject_Z n) < n)%Z.
Proof.
  intros H0 H1 Hn. pose proof (inject_Z_pos n Hn) as Hq. split.
  - apply floor_nonneg. nra.
  - unfold floor. pose proof (Qfloor_le (r * inject_Z n)) as Hl.
    assert (Hlt : inject_Z (Qfloor (r * inject_Z n)) < inject_Z n) by nra.
    now rewrite <- Zlt_Qlt in Hlt.
Qed.



Lemma idsFrom_length (n : nat) : forall i, length (idsFrom i n) = n.
Proof. induction n as [| n IH]; intro i; cbn; [reflexivity | now rewrite IH]. Qed.


Lemma holeDraws_unit : unit_draws holeDraws.
Proof.
  apply cycle_unit_draws; [discriminate |].
  repeat (apply Forall_cons; [split; [discriminate | reflexivity] |]).
  apply Forall_nil.
Defined.

(** *** The first half of the callback on a valid sample *)

Lemma pixelUnder_valid (wd : WindData) (p : Particle) :
  validSample wd p = true <->
  exists r g a, pixelUnder wd p = Some (r, g, a) /\ (0 < a)%Z.
Proof.
  unfold validSample, alphaUnder, pixelUnder. cbv zeta.
  destruct ((0 <=? floor (x p))%Z && (floor (x p) <? width wd)%Z
            && (0 <=? floor (y p))%Z && (floor (y p) <? height wd)%Z)%bool eqn:E.
  - set (idx := ((floor (y p) * width wd + floor (x p)) * 4)%Z).
    assert (Hidx : (0 <= idx)%Z).
    { repeat (apply andb_prop in E; destruct E as [E ?]).
      apply Z.leb_le in E. apply Z.ltb_lt in H1. apply Z.leb_le in H0.
      unfold idx. nia. }
    destruct (byteAt (data wd) (idx + 3)) as [a |] eqn:Ba.
    + destruct (byteAt_below (data wd) (idx + 3) idx a) as [r Hr]; [lia | assumption |].
      destruct (byteAt_below (data wd) (idx + 3) (idx + 1) a) as [g Hg]; [lia | assumption |].
      rewrite Hr, Hg. split.
      * intro H. exists r, g, a. split; [reflexivity | now apply Z.ltb_lt].
      * intros (r' & g' & a' & [= _ _ <-] & Ha). now apply Z.ltb_lt.
    + split; [discriminate |]. intros (r' & g' & a' & H & _).
      destruct (byteAt (data wd) idx); [| discriminate].
      destruct (byteAt (data wd) (idx + 1)); discriminate.
  - split; [discriminate |]. intros (r & g & a & H & _). discriminate.
Qed.

(** The particle after the first half of the callback, on the pixel
    [(r, g, a)] with [a > 0]. *)
Lemma advect_valid (wd : WindData) (sf : Q) (tl : Z) (p : Particle) (r g a : Z) :
  pixelUnder wd p = Some (r, g, a) -> (0 < a)%Z ->
  let u := (inject_Z r / 255) * 100 - 50 in
  let v := (inject_Z g / 255) * 100 - 50 in
  let p' := advect wd sf tl p in
  x p' = x p + u * sf /\ y p' = y p - v * sf /\
  lng p' = toLng (bounds wd) (width wd) (x p') /\
  lat p' = toLat (bounds wd) (height wd) (y p') /\
  trail p'
  = (let t1 := {| pt_lng := lng p'; pt_lat := lat p' |} :: trail p in
     if (tl <? Z.of_nat (length t1))%Z then slice0 t1 tl else t1).
Proof.
  unfold pixelUnder, advect. cbv zeta.
  destruct ((0 <=? floor (x p))%Z && (floor (x p) <? width wd)%Z
            && (0 <=? floor (y p))%Z && (floor (y p) <? height wd)%Z)%bool;
    [| discriminate].
  destruct (byteAt (data wd) ((floor (y p) * width wd + floor (x p)) * 4)) as [r' |];
    [| discriminate].
  destruct (byteAt (data wd) ((floor (y p) * width wd + floor (x p)) * 4 + 1)) as [g' |];
    [| discriminate].
  destruct (byteAt (data wd) ((floor (y p) * width wd + floor (x p)) * 4 + 3)) as [a' |];
    [| discriminate].
  intros [= -> -> ->] Ha.
  apply Z.ltb_lt in Ha. rewrite Ha. cbn [x y lng lat trail].
  repeat split; reflexivity.
Qed.

Lemma slice0_head {A : Type} (a : A) (l : list A) (e : Z) :
  (1 <= e)%Z -> hd_error (slice0 (a :: l) e) = Some a.
Proof.
  intro He. unfold slice0.
  destruct (e <? 0)%Z eqn:E; [apply Z.ltb_lt in E; lia |].
  destruct (Z.to_nat e) eqn:N; [lia | reflexivity].
Qed.

(** *** The geographic position follows the pixel position *)

Lemma created_geoConsistent_init (wd : WindData) (m i : Z) (g : Rng) :
  properBounds (bounds wd) -> (0 < width wd)%Z -> (0 < height wd)%Z ->
  geoConsistent wd (fst (initParticle wd m i g)).
Proof.
  intros [Hwe Hsn] Hw Hh. unfold geoConsistent. cbn -[floor].
  split; [| split; [| reflexivity]].
  - symmetry. apply (toLng_toPixelX (bounds wd) (width wd)); assumption.
  - symmetry. apply (toLat_toPixelY (bounds wd) (height wd)); assumption.
Qed.

Lemma initLoop_geoConsistent (wd : WindData) (m : Z) :
  properBounds (bounds wd) -> (0 < width wd)%Z -> (0 < height wd)%Z ->
  forall (n : nat) (i : Z) (g : Rng),
    Forall (geoConsistent wd) (fst (initLoop wd m n i g)).
Proof.
  intros Hb Hw Hh. induction n as [| n IH]; intros i g; [constructor |].
  cbn [initLoop].
  pose proof (created_geoConsistent_init wd m i g Hb Hw Hh) as Hp.
  destruct (initParticle wd m i g) as [p g1]. cbn [fst] in Hp.
  specialize (IH (i + 1)%Z g1).
  destruct (initLoop wd m n (i + 1)%Z g1) as [rest g2]. cbn [fst] in *.
  now constructor.
Qed.

Lemma respawn_geoConsistent (wd : WindData) (m : Z) (g : Rng) (p : Particle) :
  properBounds (bounds wd) -> (0 < width wd)%Z -> (0 < height wd)%Z ->
  geoConsistent wd (fst (respawn wd m g p)).
Proof.
  intros [Hwe Hsn] Hw Hh. unfold geoConsistent. cbn -[floor].
  split; [| split; [| reflexivity]].
  - symmetry. apply (toLng_toPixelX (bounds wd) (width wd)); assumption.
  - symmetry. apply (toLat_toPixelY (bounds wd) (height wd)); assumption.
Qed.

Lemma advect_geoConsistent (wd : WindData) (sf : Q) (tl : Z) (p : Particle) :
  (1 <= tl)%Z -> geoConsistent wd p -> geoConsistent wd (advect wd sf tl p).
Proof.
  intros Htl Hp. destruct (validSample wd p) eqn:V.
  - apply pixelUnder_valid in V. destruct V as (r & g & a & Hpix & Ha).
    pose proof (advect_valid wd sf tl p r g a Hpix Ha) as H. cbv zeta in H.
    destruct H as (_ & _ & Hlng & Hlat & Htr).
    unfold geoConsistent. rewrite Htr.
    split; [rewrite Hlng; reflexivity |]. split; [rewrite Hlat; reflexivity |].
    match goal with
    | |- context [if ?c then _ else _] => destruct c
    end; [now apply slice0_head | reflexivity].
  - now rewrite advect_invalid.
Qed.

Lemma updateParticle_geoConsistent (wd : WindData) (sf : Q) (tl m : Z) (g : Rng)
    (p : Particle) :
  properBounds (bounds wd) -> (0 < width wd)%Z -> (0 < height wd)%Z ->
  (1 <= tl)%Z -> geoConsistent wd p ->
  geoConsistent wd (fst (updateParticle wd sf tl m g p)).
Proof.
  intros Hb Hw Hh Htl Hp. unfold updateParticle. cbv zeta.
  destruct (needsReset wd (grow (advect wd sf tl p))).
  - now apply respawn_geoConsistent.
  - cbn [fst]. apply (advect_geoConsistent wd sf tl p Htl Hp).
Qed.

Lemma Forall2_Forall_pres {A : Type} (P : A -> Prop) :
  forall l1 l2, Forall2 (fun a b => P a -> P b) l1 l2 -> Forall P l1 -> Forall P l2.
Proof.
  intros l1 l2 H. induction H as [| a b l1 l2 Hab _ IH]; intro Hl.
  - constructor.
  - inversion Hl; subst. constructor; auto.
Qed.

Lemma updateParticles_geoConsistent (wd : WindData) (pr : Props) (g : Rng)
    (ps : list Particle) :
  properBounds (bounds wd) -> (0 < width wd)%Z -> (0 < height wd)%Z ->
  tickOn wd pr -> Forall (geoConsistent wd) ps ->
  Forall (geoConsistent wd) (fst (updateParticles pr g ps)).
Proof.
  intros Hb Hw Hh (Hwd & Hmb & Htl) Hps.
  unfold updateParticles. rewrite Hwd.
  destruct (mapBounds pr) as [mb |]; [| contradiction]. cbv zeta.
  eapply Forall2_Forall_pres; [| exact Hps].
  apply forEach_Forall2. intros g' p. now apply updateParticle_geoConsistent.
Qed.

(** X6.  The geographic position of a particle follows its pixel
    position: the particles [initParticles] creates have [lng], [lat]
    equal to the image of [(x, y)] under the pixel-to-geographic mapping
    and as the head of their trail, and every tick on the same field
    with a trail length parameter of at least 1 keeps this, whether the
    particle moves, coasts or is reset. *)
Theorem geoConsistent_invariant (wd : WindData) (pr0 : Props)
    (mb : Q * Q * (Q * Q)) (g : Rng) (prs : list Props) :
  properBounds (bounds wd) -> (0 < width wd)%Z -> (0 < height wd)%Z ->
  windData pr0 = Some wd -> mapBounds pr0 = Some mb ->
  Forall (tickOn wd) prs ->
  exists ps0 g0,
    initParticles pr0 g = Some (ps0, g0) /\
    Forall (geoConsistent wd) ps0 /\
    Forall (geoConsistent wd) (fst (run prs g0 ps0)).
Proof.
  intros Hb Hw Hh Hwd Hmb Hprs.
  unfold initParticles. rewrite Hwd, Hmb. cbv zeta.
  pose proof (initLoop_geoConsistent wd (meanMaxAge pr0) Hb Hw Hh
                (Z.to_nat (getParticleCount (zoom pr0) (baseParticleCount pr0)))
                0%Z g) as H0.
  destruct (initLoop wd (meanMaxAge pr0) _ 0%Z g) as [ps0 g0]. cbn [fst] in H0.
  exists ps0, g0. split; [reflexivity |]. split; [exact H0 |].
  clear Hwd Hmb. revert g0 ps0 H0.
  induction Hprs as [| pr prs Hpr _ IH]; intros g0 ps0 H0; [exact H0 |].
  cbn [run].
  pose proof (updateParticles_geoConsistent wd pr g0 ps0 Hb Hw Hh Hpr H0) as H1.
  destruct (updateParticles pr g0 ps0) as [ps1 g1]. cbn [fst] in H1.
  now apply IH.
Qed.

(** *** Ids and ages *)

Lemma updateParticle_keptUp (wd : WindData) (sf : Q) (tl m : Z) (g : Rng)
    (p : Particle) :
  (15 <= m)%Z -> unit_draws g ->
  keptUp p (fst (updateParticle wd sf tl m g p)) /\
  unit_draws (snd (updateParticle wd sf tl m g p)).
Proof.
  intros Hm Hg. unfold updateParticle. cbv zeta.
  destruct (advect_age wd sf tl p) as (Ha & Hx & Hi).
  destruct (needsReset wd (grow (advect wd sf tl p))) eqn:E.
  - split.
    + unfold keptUp. cbn -[floor]. rewrite Hi.
      destruct (Hg 2%nat) as [C0 C1].
      assert (0 <= floor (g 2%nat * 30))%Z by (apply floor_nonneg; lra).
      repeat split; lia.
    + intro n. rewrite respawn_draws. apply Hg.
  - apply needsReset_false in E. destruct E as [E _]. cbn in E.
    split; [| exact Hg]. unfold keptUp. cbn. rewrite Ha, Hx, Hi in *.
    repeat split; lia.
Qed.

(** X7.  A tick keeps the array of particles: with draws in [[0, 1)] and a
    [maxAge] prop of at least 15, after [updateParticles] there are as
    many particles, with the same ids in the same order; no particle is
    older than its own maximal age, and no age has become negative. *)
Theorem updateParticles_keptUp (pr : Props) (g : Rng) (ps : list Particle) :
  (15 <= meanMaxAge pr)%Z -> unit_draws g ->
  windData pr <> None -> mapBounds pr <> None ->
  Forall2 keptUp ps (fst (updateParticles pr g ps)) /\
  unit_draws (snd (updateParticles pr g ps)).
Proof.
  intros Hm Hg Hwd Hmb. unfold updateParticles.
  destruct (windData pr) as [wd |]; [| contradiction].
  destruct (mapBounds pr) as [mb |]; [| contradiction]. cbv zeta.
  apply forEach_Forall2_inv; [| assumption].
  intros g' p Hg'. now apply updateParticle_keptUp.
Qed.

Lemma updateParticles_keptUp_witness :
  (15 <= meanMaxAge holeProps)%Z /\ unit_draws holeDraws /\
  windData holeProps <> None /\ mapBounds holeProps <> None /\
  Forall2 keptUp (fst (initLoop holeField 80 2 0 holeDraws))
    (fst (updateParticles holeProps holeDraws (fst (initLoop holeField 80 2 0 holeDraws)))) /\
  unit_draws (snd (updateParticles holeProps holeDraws
                     (fst (initLoop holeField 80 2 0 holeDraws)))).
Proof.
  split; [discriminate |]. split; [exact holeDraws_unit |].
  split; [discriminate |]. split; [discriminate |].
  apply (updateParticles_keptUp holeProps holeDraws
           (fst (initLoop holeField 80 2 0 holeDraws)));
    [discriminate | exact holeDraws_unit | discriminate | discriminate].
Defined.

(** *** Displacement *)

Lemma decode_byte_bound (b : Z) :
  (0 <= b <= 255)%Z ->
  -50 <= (inject_Z b / 255) * 100 - 50 /\ (inject_Z b / 255) * 100 - 50 <= 50.
Proof.
  intros [H0 H1].
  assert (Q0 : 0 <= inject_Z b) by (change 0 with (inject_Z 0); now rewrite <- Zle_Qle).
  assert (Q1 : inject_Z b <= 255) by (change 255 with (inject_Z 255); now rewrite <- Zle_Qle).
  assert (F0 : 0 <= inject_Z b / 255) by (apply Qle_shift_div_l; lra).
  assert (F1 : inject_Z b / 255 <= 1) by (apply Qle_shift_div_r; lra).
  lra.
Qed.

Lemma pixelUnder_bytes (wd : WindData) (p : Particle) (r g a : Z) :
  Forall (fun b => (0 <= b <= 255)%Z) (data wd) ->
  pixelUnder wd p = Some (r, g, a) ->
  (0 <= r <= 255)%Z /\ (0 <= g <= 255)%Z.
Proof.
  intros Hb. rewrite Forall_forall in Hb. unfold pixelUnder. cbv zeta.
  destruct (_ && _)%bool; [| discriminate].
  destruct (byteAt (data wd) ((floor (y p) * width wd + floor (x p)) * 4)) as [r' |] eqn:Er;
    [| discriminate].
  destruct (byteAt (data wd) ((floor (y p) * width wd + floor (x p)) * 4 + 1)) as [g' |] eqn:Eg;
    [| discriminate].
  destruct (byteAt (data wd) ((floor (y p) * width wd + floor (x p)) * 4 + 3)) as [a' |];
    [| discriminate].
  intros [= <- <- <-]. unfold byteAt in Er, Eg.
  destruct (_ <? 0)%Z in Er; [discriminate |].
  destruct (_ <? 0)%Z in Eg; [discriminate |].
  apply nth_error_In in Er. apply nth_error_In in Eg. split; now apply Hb.
Qed.

Lemma Qabs_bound (a c : Q) : - c <= a -> a <= c -> Qabs a <= c.
Proof. intros H1 H2. apply Qabs_Qle_condition. split; assumption. Qed.

Lemma advect_displacement (wd : WindData) (sf : Q) (tl : Z) (p : Particle) :
  Forall (fun b => (0 <= b <= 255)%Z) (data wd) -> 0 <= sf ->
  Qabs (x (advect wd sf tl p) - x p) <= 50 * sf /\
  Qabs (y (advect wd sf tl p) - y p) <= 50 * sf.
Proof.
  intros Hb Hsf. destruct (validSample wd p) eqn:V.
  - apply pixelUnder_valid in V. destruct V as (r & g & a & Hpix & Ha).
    pose proof (advect_valid wd sf tl p r g a Hpix Ha) as H. cbv zeta in H.
    destruct H as (Hx & Hy & _). rewrite Hx, Hy.
    destruct (pixelUnder_bytes wd p r g a Hb Hpix) as [Hr Hg].
    destruct (decode_byte_bound r Hr) as [U0 U1].
    destruct (decode_byte_bound g Hg) as [V0 V1].
    split; apply Qabs_bound; nra.
  - rewrite advect_invalid by assumption.
    split; apply Qabs_bound; lra.
Qed.

Lemma getSpeedFactor_range (z : Q) : 0 < getSpeedFactor z /\ getSpeedFactor z <= 0.08.
Proof.
  unfold getSpeedFactor. tier_of z; split; reflexivity || discriminate.
Qed.

(** X8.  The speed of a particle is capped: on a buffer of bytes
    ([0..255]) a particle that is not reset in a tick (its age after the
    tick is not 0) has moved by at most [50 * getSpeedFactor(zoom)], that
    is at most 4 pixels, along each axis. *)
Theorem tick_displacement (pr : Props) (wd : WindData)
    (mb : Q * Q * (Q * Q)) (g : Rng) (ps : list Particle) :
  windData pr = Some wd -> mapBounds pr = Some mb ->
  Forall (fun b => (0 <= b <= 255)%Z) (data wd) ->
  Forall2
    (fun p p' =>
       age p' <> 0%Z ->
       Qabs (x p' - x p) <= 50 * getSpeedFactor (zoom pr) /\
       Qabs (y p' - y p) <= 50 * getSpeedFactor (zoom pr) /\
       50 * getSpeedFactor (zoom pr) <= 4)
    ps (fst (updateParticles pr g ps)).
Proof.
  intros Hwd Hmb Hb. unfold updateParticles. rewrite Hwd, Hmb. cbv zeta.
  apply forEach_Forall2. intros g' p. unfold updateParticle. cbv zeta.
  destruct (getSpeedFactor_range (zoom pr)) as [S0 S1].
  destruct (needsReset wd _).
  - intro H. exfalso. apply H. apply respawn_fresh.
  - intros _. cbn [fst grow x y].
    destruct (advect_displacement wd (getSpeedFactor (zoom pr))
                (getTrailLength (zoom pr) (trailLength pr)) p Hb) as [Dx Dy];
      [lra |].
    split; [exact Dx |]. split; [exact Dy |]. lra.
Qed.

(** *** Direction *)

Lemma Qdiv_lt_pos (a b w : Q) : 0 < w -> a < b -> a / w < b / w.
Proof.
  intros Hw H. unfold Qdiv. apply Qmult_lt_r; [now apply Qinv_lt_0_compat | assumption].
Qed.

Lemma decode_byte_sign (b : Z) :
  ((128 <= b)%Z -> 0 < (inject_Z b / 255) * 100 - 50) /\
  ((b <= 127)%Z -> (inject_Z b / 255) * 100 - 50 < 0).
Proof.
  split; intro H.
  - assert (Q1 : 128 <= inject_Z b)
      by (change 128 with (inject_Z 128); now rewrite <- Zle_Qle).
    assert (F : 128 / 255 <= inject_Z b / 255)
      by (unfold Qdiv; apply Qmult_le_compat_r; [assumption | discriminate]).
    assert (C : 50 < (128 / 255) * 100) by reflexivity. lra.
  - assert (Q1 : inject_Z b <= 127)
      by (change 127 with (inject_Z 127); now rewrite <- Zle_Qle).
    assert (F : inject_Z b / 255 <= 127 / 255)
      by (unfold Qdiv; apply Qmult_le_compat_r; [assumption | discriminate]).
    assert (C : (127 / 255) * 100 < 50) by reflexivity. lra.
Qed.

(** X9.  The wind moves the particle the way it blows: in a tick that
    does not reset the particle (its age after the tick is not 0), on a
    valid pixel, a red byte of 128 or more moves the particle east ([x]
    and [lng] grow) and a smaller one west; a green byte of 128 or more
    moves it north ([y] shrinks and [lat] grows) and a smaller one
    south. *)
Theorem tick_direction (wd : WindData) (sf : Q) (tl m : Z) (gen : Rng)
    (p : Particle) (r g a : Z) :
  properBounds (bounds wd) -> (0 < width wd)%Z -> (0 < height wd)%Z ->
  0 < sf -> geoConsistent wd p ->
  pixelUnder wd p = Some (r, g, a) -> (0 < a)%Z ->
  let p' := fst (updateParticle wd sf tl m gen p) in
  age p' <> 0%Z ->
  ((128 <= r)%Z -> x p < x p' /\ lng p < lng p') /\
  ((r <= 127)%Z -> x p' < x p /\ lng p' < lng p) /\
  ((128 <= g)%Z -> y p' < y p /\ lat p < lat p') /\
  ((g <= 127)%Z -> y p < y p' /\ lat p' < lat p).
Proof.
  intros [Hwe Hsn] Hw Hh Hsf (Glng & Glat & _) Hpix Ha. cbv zeta.
  unfold updateParticle. cbv zeta.
  destruct (needsReset wd _).
  { intro H. exfalso. apply H. apply respawn_fresh. }
  intros _. cbn [fst grow x y lng lat].
  pose proof (advect_valid wd sf tl p r g a Hpix Ha) as H. cbv zeta in H.
  destruct H as (Hx & Hy & Hlng & Hlat & _).
  rewrite Hlng, Hlat, Glng, Glat. unfold toLng, toLat. rewrite Hx, Hy.
  apply inject_Z_pos in Hw. apply inject_Z_pos in Hh.
  destruct (decode_byte_sign r) as [Rp Rn]. destruct (decode_byte_sign g) as [Gp Gn].
  split; [| split; [| split]]; intro Hb.
  - specialize (Rp Hb).
    assert (D : x p < x p + (inject_Z r / 255 * 100 - 50) * sf) by nra.
    split; [exact D |].
    pose proof (Qdiv_lt_pos _ _ _ Hw D). nra.
  - specialize (Rn Hb).
    assert (D : x p + (inject_Z r / 255 * 100 - 50) * sf < x p) by nra.
    split; [exact D |].
    pose proof (Qdiv_lt_pos _ _ _ Hw D). nra.
  - specialize (Gp Hb).
    assert (D : y p - (inject_Z g / 255 * 100 - 50) * sf < y p) by nra.
    split; [exact D |].
    pose proof (Qdiv_lt_pos _ _ _ Hh D). nra.
  - specialize (Gn Hb).
    assert (D : y p < y p - (inject_Z g / 255 * 100 - 50) * sf) by nra.
    split; [exact D |].
    pose proof (Qdiv_lt_pos _ _ _ Hh D). nra.
Qed.

(** *** Trail length parameter *)

Lemma floor_scale_nonneg (b : Z) (c : Q) :
  (0 <= b)%Z -> 0 <= c -> (0 <= floor (inject_Z b * c))%Z.
Proof.
  intros Hb Hc. apply floor_nonneg.
  assert (0 <= inject_Z b) by (change 0 with (inject_Z 0); now rewrite <- Zle_Qle).
  nra.
Qed.

Lemma floor_quarter_12 (b : Z) : (12 <= b)%Z -> (3 <= floor (inject_Z b * 0.25))%Z.
Proof.
  intro H. change 3%Z with (floor 3). apply floor_mono.
  assert (12 <= inject_Z b) by (change 12 with (inject_Z 12); now rewrite <- Zle_Qle).
  lra.
Qed.

(** X10.  [getTrailLength] of a base length [>= 0] lies between 0 and the
    larger of the base length and 3, and is at least 3 from zoom 12 on.
    For a base length of 12 or more it does not grow with the zoom; for a
    smaller base length the floor of 3 makes it grow again at zoom 12
    (base length 4: 1 at zoom 11, 3 at zoom 12). *)
Theorem getTrailLength_shape (z z' : Q) (baseLength : Z) :
  (0 <= baseLength)%Z ->
  (0 <= getTrailLength z baseLength <= Z.max baseLength 3)%Z /\
  (12 <= z -> (3 <= getTrailLength z baseLength)%Z) /\
  ((12 <= baseLength)%Z -> z < z' ->
   (getTrailLength z' baseLength <= getTrailLength z baseLength)%Z) /\
  (getTrailLength 11 4 = 1 /\ getTrailLength 12 4 = 3)%Z.
Proof.
  intro Hb. split; [| split; [| split]].
  - unfold getTrailLength.
    tier_of z;
      try (pose proof (floor_scale_nonneg baseLength 0.8 Hb ltac:(discriminate)));
      try (pose proof (floor_scale_le_self baseLength 0.8 Hb ltac:(discriminate)));
      try (pose proof (floor_scale_nonneg baseLength 0.6 Hb ltac:(discriminate)));
      try (pose proof (floor_scale_le_self baseLength 0.6 Hb ltac:(discriminate)));
      try (pose proof (floor_scale_nonneg baseLength 0.4 Hb ltac:(discriminate)));
      try (pose proof (floor_scale_le_self baseLength 0.4 Hb ltac:(discriminate)));
      try (pose proof (floor_scale_nonneg baseLength 0.25 Hb ltac:(discriminate)));
      try (pose proof (floor_scale_le_self baseLength 0.25 Hb ltac:(discriminate)));
      try (pose proof (floor_scale_nonneg baseLength 0.15 Hb ltac:(discriminate)));
      try (pose proof (floor_scale_le_self baseLength 0.15 Hb ltac:(discriminate)));
      lia.
  - intro Hz. unfold getTrailLength. tier_of z; tiers; try lra. lia.
  - intros H12 Hz. unfold getTrailLength.
    pose proof (floor_quarter_12 baseLength H12) as Q3.
    pose proof (floor_scale_le_self baseLength 0.8 Hb ltac:(discriminate)).
    pose proof (floor_scale_mono baseLength 0.8 0.6 Hb ltac:(discriminate)).
    pose proof (floor_scale_mono baseLength 0.6 0.4 Hb ltac:(discriminate)).
    pose proof (floor_scale_mono baseLength 0.4 0.25 Hb ltac:(discriminate)).
    pose proof (floor_scale_mono baseLength 0.25 0.15 Hb ltac:(discriminate)).
    tier_of z; tier_of z'; tiers; try lra; lia.
  - split; reflexivity.
Qed.

Lemma getTrailLength_shape_witness :
  (0 <= 15)%Z /\
  (0 <= getTrailLength 5 15 <= Z.max 15 3)%Z /\
  (12 <= 5 -> (3 <= getTrailLength 5 15)%Z) /\
  ((12 <= 15)%Z -> 5 < 9 ->
   (getTrailLength 9 15 <= getTrailLength 5 15)%Z) /\
  (getTrailLength 11 4 = 1 /\ getTrailLength 12 4 = 3)%Z.
Proof.
  split; [lia |].
  apply (getTrailLength_shape 5 9 15). lia.
Defined.

Lemma positive_one : (0 < 1)%Z.
Proof. reflexivity. Defined.

Lemma positive_two : (0 < 2)%Z.
Proof. reflexivity. Defined.



Lemma gapTicks_tickOn : Forall (tickOn gapField) gapTicks.
Proof.
  repeat (apply Forall_cons;
          [split; [reflexivity | split; [discriminate | vm_compute; discriminate]] |]).
  apply Forall_nil.
Defined.

Lemma geoConsistent_invariant_witness :
  properBounds (bounds gapField) /\
  (0 < width gapField)%Z /\ (0 < height gapField)%Z /\
  windData (gapProps 3) = Some gapField /\
  mapBounds (gapProps 3) = Some conusView /\
  Forall (tickOn gapField) gapTicks /\
  exists ps0 g0,
    initParticles (gapProps 3) gapDraws = Some (ps0, g0) /\
    Forall (geoConsistent gapField) ps0 /\
    Forall (geoConsistent gapField) (fst (run gapTicks g0 ps0)).
Proof.
  split; [exact HRRR_BOUNDS_proper |].
  split; [exact positive_two |]. split; [exact positive_one |].
  split; [reflexivity |]. split; [reflexivity |].
  split; [exact gapTicks_tickOn |].
  exact (geoConsistent_invariant gapField (gapProps 3) conusView gapDraws gapTicks
           HRRR_BOUNDS_proper positive_two positive_one eq_refl eq_refl
           gapTicks_tickOn).
Defined.

Lemma gapField_bytes : Forall (fun b => (0 <= b <= 255)%Z) (data gapField).
Proof.
  repeat (apply Forall_cons; [split; discriminate |]). apply Forall_nil.
Defined.

Lemma tick_displacement_witness :
  windData (gapProps 3) = Some gapField /\
  mapBounds (gapProps 3) = Some conusView /\
  Forall (fun b => (0 <= b <= 255)%Z) (data gapField) /\
  Forall2
    (fun p p' =>
       age p' <> 0%Z ->
       Qabs (x p' - x p) <= 50 * getSpeedFactor (zoom (gapProps 3)) /\
       Qabs (y p' - y p) <= 50 * getSpeedFactor (zoom (gapProps 3)) /\
       50 * getSpeedFactor (zoom (gapProps 3)) <= 4)
    (fst gapInit) (fst (updateParticles (gapProps 3) (snd gapInit) (fst gapInit))).
Proof.
  split; [reflexivity |]. split; [reflexivity |].
  split; [exact gapField_bytes |].
  exact (tick_displacement (gapProps 3) gapField conusView (snd gapInit) (fst gapInit)
           eq_refl eq_refl gapField_bytes).
Defined.

Lemma gapParticle_geoConsistent : geoConsistent gapField gapParticle.
Proof.
  split; [vm_compute; reflexivity |]. split; [vm_compute; reflexivity |].
  reflexivity.
Defined.

Lemma gapParticle_kept :
  age (fst (updateParticle gapField 0.08 15 80 (snd gapInit) gapParticle)) <> 0%Z.
Proof. vm_compute. discriminate. Defined.

Lemma tick_direction_witness :
  properBounds (bounds gapField) /\
  (0 < width gapField)%Z /\ (0 < height gapField)%Z /\
  0 < 0.08 /\ geoConsistent gapField gapParticle /\
  pixelUnder gapField gapParticle = Some (128, 128, 255)%Z /\ (0 < 255)%Z /\
  age (fst (updateParticle gapField 0.08 15 80 (snd gapInit) gapParticle)) <> 0%Z /\
  ((128 <= 128)%Z ->
   x gapParticle < x (fst (updateParticle gapField 0.08 15 80 (snd gapInit) gapParticle)) /\
   lng gapParticle
   < lng (fst (updateParticle gapField 0.08 15 80 (snd gapInit) gapParticle))).
Proof.
  split; [exact HRRR_BOUNDS_proper |].
  split; [exact positive_two |]. split; [exact positive_one |].
  split; [reflexivity |]. split; [exact gapParticle_geoConsistent |].
  split; [reflexivity |]. split; [reflexivity |].
  split; [exact gapParticle_kept |].
  exact (proj1 (tick_direction gapField 0.08 15 80 (snd gapInit) gapParticle
                  128 128 255 HRRR_BOUNDS_proper positive_two positive_one
                  eq_refl gapParticle_geoConsistent eq_refl eq_refl
                  gapParticle_kept)).
Defined.

End SkiaParticleProps.

(** ** Sampling by coordinates *)

Section SamplerProps.

Import Sampler.

Lemma floor_lt_inject (a : Q) (n : Z) : a < inject_Z n -> (floor a < n)%Z.
Proof.
  intro H. unfold floor. pose proof (Qfloor_le a) as Hl.
  assert (Hq : inject_Z (Qfloor a) < inject_Z n) by lra.
  now rewrite <- Zlt_Qlt in Hq.
Qed.

Lemma floor_ge_inject (a : Q) (n : Z) : inject_Z n <= a -> (n <= floor a)%Z.
Proof.
  intro H. rewrite <- (floor_inject n). now apply floor_mono.
Qed.




Lemma decodeWindComponent_bound (b : Z) :
  (0 <= b <= 255)%Z ->
  -50 <= decodeWindComponent (inject_Z b) (-50) 50 /\
  decodeWindComponent (inject_Z b) (-50) 50 <= 50.
Proof.
  intros [H0 H1]. unfold decodeWindComponent. cbv zeta.
  assert (Q0 : 0 <= inject_Z b) by (change 0 with (inject_Z 0); now rewrite <- Zle_Qle).
  assert (Q1 : inject_Z b <= 255) by (change 255 with (inject_Z 255); now rewrite <- Zle_Qle).
  assert (F0 : 0 <= inject_Z b / 255) by (apply Qle_shift_div_l; lra).
  assert (F1 : inject_Z b / 255 <= 1) by (apply Qle_shift_div_r; lra).
  lra.
Qed.

Lemma magnitude_bound (b : Z) :
  (0 <= b <= 255)%Z ->
  0 <= (inject_Z b / 255) * 70.7 /\ (inject_Z b / 255) * 70.7 <= 70.7.
Proof.
  intros [H0 H1].
  assert (Q0 : 0 <= inject_Z b) by (change 0 with (inject_Z 0); now rewrite <- Zle_Qle).
  assert (Q1 : inject_Z b <= 255) by (change 255 with (inject_Z 255); now rewrite <- Zle_Qle).
  assert (F0 : 0 <= inject_Z b / 255) by (apply Qle_shift_div_l; lra).
  assert (F1 : inject_Z b / 255 <= 1) by (apply Qle_shift_div_r; lra).
  lra.
Qed.

(** X12.  On a well-formed field every sample [getWindAtPixel] returns is
    a number in each component, never [NaN], with [u] and [v] in
    [[-50, 50]] and the magnitude in [[0, 70.7]]. *)
Theorem getWindAtPixel_ranges (wd : WindData) (x y : Q) (s : Wind) :
  wellFormed wd ->
  getWindAtPixel (Some wd) x y = Some s ->
  exists uu vv mm,
    u s = Some uu /\ v s = Some vv /\ magnitude s = Some mm /\
    -50 <= uu /\ uu <= 50 /\ -50 <= vv /\ vv <= 50 /\ 0 <= mm /\ mm <= 70.7.
Proof.
  intros Hwf Hs.
  pose proof (proj2 (getWindAtPixel_None_iff wd x y)) as Hnone.
  assert (Hin : inRange wd (floor x) (floor y)).
  { unfold inRange.
    destruct (Z_lt_ge_dec (floor x) 0); [exfalso |].
    { assert (N : getWindAtPixel (Some wd) x y = None)
        by (apply Hnone; left; unfold inRange; lia). congruence. }
    destruct (Z_lt_ge_dec (floor x) (width wd)); [| exfalso].
    2:{ assert (N : getWindAtPixel (Some wd) x y = None)
          by (apply Hnone; left; unfold inRange; lia). congruence. }
    destruct (Z_lt_ge_dec (floor y) 0); [exfalso |].
    { assert (N : getWindAtPixel (Some wd) x y = None)
        by (apply Hnone; left; unfold inRange; lia). congruence. }
    destruct (Z_lt_ge_dec (floor y) (height wd)); [lia | exfalso].
    assert (N : getWindAtPixel (Some wd) x y = None)
      by (apply Hnone; left; unfold inRange; lia). congruence. }
  assert (Ha : alphaAt wd (floor x) (floor y) <> Some 0%Z).
  { intro H. assert (N : getWindAtPixel (Some wd) x y = None)
      by (apply Hnone; now right). congruence. }
  destruct (pixel_defined wd _ _ Hwf Hin) as (r & g & b & a & Hpix & Hr & Hg & Hb & _).
  assert (Ha0 : a <> 0%Z).
  { intros ->. apply Ha. unfold alphaAt.
    unfold pixel in Hpix. cbv zeta in Hpix.
    destruct (byteAt _ ((floor y * width wd + floor x) * 4)); [| discriminate].
    destruct (byteAt _ ((floor y * width wd + floor x) * 4 + 1)); [| discriminate].
    destruct (byteAt _ ((floor y * width wd + floor x) * 4 + 2)); [| discriminate].
    destruct (byteAt _ ((floor y * width wd + floor x) * 4 + 3)); [| discriminate].
    congruence. }
  pose proof (getWindAtPixel_valid wd x y r g b a Hin Hpix Ha0) as Hval.
  rewrite Hval in Hs. injection Hs as <-. cbn [u v magnitude].
  destruct (decodeWindComponent_bound r Hr). destruct (decodeWindComponent_bound g Hg).
  destruct (magnitude_bound b Hb).
  do 3 eexists. repeat split; try reflexivity; assumption.
Qed.


Lemma getWindAtPixel_ranges_witness :
  wellFormed twoPixels /\
  getWindAtPixel (Some twoPixels) 0.5 0.5
  = Some {| u := Some (decodeWindComponent (inject_Z 200) (-50) 50);
            v := Some (decodeWindComponent (inject_Z 60) (-50) 50);
            magnitude := Some ((inject_Z 0 / 255) * 70.7) |} /\
  exists uu vv mm,
    Some (decodeWindComponent (inject_Z 200) (-50) 50) = Some uu /\
    Some (decodeWindComponent (inject_Z 60) (-50) 50) = Some vv /\
    Some ((inject_Z 0 / 255) * 70.7) = Some mm /\
    -50 <= uu /\ uu <= 50 /\ -50 <= vv /\ vv <= 50 /\ 0 <= mm /\ mm <= 70.7.
Proof.
  split; [exact twoPixels_wellFormed |]. split; [reflexivity |].
  exact (getWindAtPixel_ranges twoPixels 0.5 0.5 _ twoPixels_wellFormed eq_refl).
Defined.

End SamplerProps.

(** * The deck.gl layers *)

Section DeckLayers.

Import DeckRender.

(** ** The path layer without zoom adaptation *)

Section DeckBasicProps.

Import Deck DeckBasic.

Lemma unit_draws_tail (g : Rng) (k : nat) :
  unit_draws g -> unit_draws (fun n => g (k + n)%nat).
Proof. intros H n. apply H. Qed.

Lemma unit_scale (r : Q) (n : Z) :
  0 <= r -> r < 1 -> (0 < n)%Z ->
  0 <= r * inject_Z n /\ r * inject_Z n < inject_Z n.
Proof.
  intros H0 H1 Hn. pose proof (inject_Z_pos n Hn). split; nra.
Qed.

Lemma basic_respawn_inGrid (wd : Sampler.WindData) (m : Z) (g : Rng)
    (p : Particle) :
  (0 < Sampler.width wd)%Z -> (0 < Sampler.height wd)%Z -> unit_draws g ->
  inGrid wd (fst (respawn wd m g p)) /\ unit_draws (snd (respawn wd m g p)).
Proof.
  intros Hw Hh Hg. split.
  - destruct (Hg 0%nat) as [A0 A1]. destruct (Hg 1%nat) as [B0 B1].
    destruct (unit_scale _ _ A0 A1 Hw). destruct (unit_scale _ _ B0 B1 Hh).
    unfold inGrid. cbn. tauto.
  - exact (unit_draws_tail g 3 Hg).
Qed.

Lemma basic_updateParticle_inGrid (pr : Props) (wd : Sampler.WindData)
    (g : Rng) (p : Particle) :
  (0 < Sampler.width wd)%Z -> (0 < Sampler.height wd)%Z -> unit_draws g ->
  inGrid wd (fst (updateParticle pr wd g p)) /\
  unit_draws (snd (updateParticle pr wd g p)).
Proof.
  intros Hw Hh Hg. unfold updateParticle. cbv zeta.
  destruct (needsReset wd _) eqn:E.
  - now apply basic_respawn_inGrid.
  - apply deck_needsReset_false in E. now split.
Qed.

Lemma basic_updateParticles_inGrid (pr : Props) (wd : Sampler.WindData)
    (g : Rng) (ps : list Particle) :
  windData pr = Some wd ->
  (0 < Sampler.width wd)%Z -> (0 < Sampler.height wd)%Z -> unit_draws g ->
  Forall (inGrid wd) (fst (updateParticles pr g ps)) /\
  unit_draws (snd (updateParticles pr g ps)).
Proof.
  intros Hwd Hw Hh Hg. unfold updateParticles. rewrite Hwd.
  destruct (forEach_Forall2_inv unit_draws (fun _ p' => inGrid wd p')
              (updateParticle pr wd)) with (ps := ps) (g := g) as [HR HI].
  - intros g' p Hg'. now apply basic_updateParticle_inGrid.
  - assumption.
  - split; [| exact HI]. eapply Forall2_Forall_r; [| exact HR]. auto.
Qed.

Lemma basic_initLoop_inGrid (wd : Sampler.WindData) (m : Z) :
  (0 < Sampler.width wd)%Z -> (0 < Sampler.height wd)%Z ->
  forall (n : nat) (i : Z) (g : Rng), unit_draws g ->
    Forall (inGrid wd) (fst (initLoop wd m n i g)) /\
    unit_draws (snd (initLoop wd m n i g)).
Proof.
  intros Hw Hh. induction n as [| n IH]; intros i g Hg.
  - cbn. split; [constructor | assumption].
  - cbn [initLoop].
    destruct (initParticle wd m i g) as [p g1] eqn:E.
    assert (Hp : inGrid wd p /\ unit_draws g1).
    { unfold initParticle in E. cbn in E. injection E as <- <-. split.
      - destruct (Hg 0%nat) as [A0 A1]. destruct (Hg 1%nat) as [B0 B1].
        destruct (unit_scale _ _ A0 A1 Hw). destruct (unit_scale _ _ B0 B1 Hh).
        unfold inGrid. cbn. tauto.
      - exact (unit_draws_tail g 4 Hg). }
    destruct Hp as [Hp Hg1].
    destruct (IH (i + 1)%Z g1 Hg1) as [IH1 IH2].
    destruct (initLoop wd m n (i + 1)%Z g1) as [rest g2]. cbn in *.
    split; [constructor; assumption | assumption].
Qed.

(** X13.  Without zoom adaptation the pixel position itself is drawn, so
    the layer keeps its particles in the grid for every draw of
    [Math.random()], 0 included, and whatever the bounds of the field:
    on a field with positive width and height the particles
    [initParticles] creates lie in [[0, width) x [0, height)], and so
    does every particle of any array after one or more ticks. *)
Theorem basic_particles_inGrid (pr : Props) (wd : Sampler.WindData) (g : Rng) :
  windData pr = Some wd ->
  (0 < Sampler.width wd)%Z -> (0 < Sampler.height wd)%Z -> unit_draws g ->
  (exists ps0 g0, initParticles pr g = Some (ps0, g0) /\
                  Forall (inGrid wd) ps0 /\ unit_draws g0) /\
  (forall (n : nat) (ps : list Particle),
     Forall (inGrid wd) (fst (steps (S n) pr g ps))).
Proof.
  intros Hwd Hw Hh Hg. split.
  - unfold initParticles. rewrite Hwd.
    destruct (basic_initLoop_inGrid wd (meanMaxAge pr) Hw Hh
                (Z.to_nat (particleCount pr)) 0%Z g Hg) as [H1 H2].
    destruct (initLoop _ _ _ _ _) as [ps0 g0]. eauto.
  - intro n. revert g Hg. induction n as [| n IH]; intros g Hg ps.
    + cbn [steps].
      destruct (basic_updateParticles_inGrid pr wd g ps Hwd Hw Hh Hg) as [H _].
      destruct (updateParticles pr g ps). exact H.
    + change (steps (S (S n)) pr g ps)
        with (let (ps1, g1) := updateParticles pr g ps in steps (S n) pr g1 ps1).
      destruct (basic_updateParticles_inGrid pr wd g ps Hwd Hw Hh Hg) as [_ H].
      destruct (updateParticles pr g ps) as [ps1 g1]. now apply IH.
Qed.

End DeckBasicProps.

Section DeckRenderProps.

Import Deck DeckRender.

Lemma floor_between (a : Q) (k : Z) :
  inject_Z k <= a -> a < inject_Z (k + 1) -> floor a = k.
Proof.
  intros H0 H1.
  pose proof (floor_ge_inject a k H0). pose proof (floor_lt_inject a (k + 1) H1).
  lia.
Qed.

Lemma deck_colorIndex_eq (m : Q) :
  colorIndex m = Z.min (floor (Qmin (m / 40) 1 * 9)) 9.
Proof. reflexivity. Qed.

Lemma deck_colorIndex_band (m : Q) (k : Z) :
  (0 <= k < 9)%Z ->
  inject_Z k * (40 / 9) <= m -> m < inject_Z (k + 1) * (40 / 9) ->
  colorIndex m = k.
Proof.
  intros Hk H0 H1. rewrite deck_colorIndex_eq.
  assert (F : 40 / 9 == 40 # 9) by reflexivity. rewrite F in H0, H1.
  assert (K : inject_Z (k + 1) <= 9)
    by (change 9 with (inject_Z 9); rewrite <- Zle_Qle; lia).
  assert (E : m / 40 == m * (1 # 40)) by (field).
  destruct (Qmin_cases (m / 40) 1) as [[_ ->] | [C _]]; [| exfalso; lra].
  rewrite (floor_between (m / 40 * 9) k); [lia | lra | lra].
Qed.

Lemma deck_colorIndex_top (m : Q) : 40 <= m -> colorIndex m = 9%Z.
Proof.
  intro H. rewrite deck_colorIndex_eq.
  assert (E : m / 40 == m * (1 # 40)) by (field).
  destruct (Qmin_cases (m / 40) 1) as [[C _] | [_ ->]].
  - assert (Q1 : m / 40 == 1) by lra.
    destruct (Qmin_cases (m / 40) 1) as [[_ ->] | [_ ->]].
    + rewrite (floor_between (m / 40 * 9) 9); [reflexivity | | ];
        change (inject_Z 9) with 9; change (inject_Z (9 + 1)) with 10; lra.
    + reflexivity.
  - reflexivity.
Qed.

Lemma deck_colorIndex_negative (m : Q) : m < 0 -> (colorIndex m < 0)%Z.
Proof.
  intro H. rewrite deck_colorIndex_eq.
  assert (E : m / 40 == m * (1 # 40)) by (field).
  destruct (Qmin_cases (m / 40) 1) as [[_ ->] | [C _]]; [| exfalso; lra].
  assert (floor (m / 40 * 9) < 0)%Z by (apply floor_neg; lra). lia.
Qed.

Lemma deck_colorIndex_range (m : Q) : 0 <= m -> (0 <= colorIndex m <= 9)%Z.
Proof.
  intro H. rewrite deck_colorIndex_eq.
  assert (E : m / 40 == m * (1 # 40)) by (field).
  assert (0 <= floor (Qmin (m / 40) 1 * 9))%Z.
  { apply floor_nonneg. destruct (Qmin_cases (m / 40) 1) as [[_ ->] | [_ ->]]; lra. }
  lia.
Qed.

Lemma deck_COLOR_SCALE_entry (i : Z) :
  (0 <= i <= 9)%Z -> exists c, SkiaRender.itemAt COLOR_SCALE i = Some c.
Proof.
  intro H.
  assert (C : (i = 0 \/ i = 1 \/ i = 2 \/ i = 3 \/ i = 4 \/ i = 5 \/ i = 6
               \/ i = 7 \/ i = 8 \/ i = 9)%Z) by lia.
  repeat (destruct C as [-> | C]; [eexists; reflexivity |]).
  subst. eexists; reflexivity.
Qed.

Lemma getColorForMagnitude_nonneg (m : Q) :
  0 <= m -> exists c, getColorForMagnitude m = Some c.
Proof.
  intro H. apply deck_COLOR_SCALE_entry. now apply deck_colorIndex_range.
Qed.

(** X14.  The colour bands of the path layers: [getColorForMagnitude]
    returns [undefined] for a negative magnitude; the entry [k] of
    [COLOR_SCALE], for [k] from 0 to 8, is the colour of the magnitudes
    in [[k * 40/9, (k + 1) * 40/9)], and the last entry that of the
    magnitudes from 40 on. *)
Theorem getColorForMagnitude_bands (m : Q) (k : Z) :
  (m < 0 -> getColorForMagnitude m = None) /\
  ((0 <= k < 9)%Z ->
   inject_Z k * (40 / 9) <= m -> m < inject_Z (k + 1) * (40 / 9) ->
   getColorForMagnitude m = nth_error COLOR_SCALE (Z.to_nat k) /\
   getColorForMagnitude m <> None) /\
  (40 <= m -> getColorForMagnitude m = Some (180, 50, 60)%Z).
Proof.
  split; [| split].
  - intro H. unfold getColorForMagnitude, SkiaRender.itemAt.
    pose proof (deck_colorIndex_negative m H) as N.
    apply Z.ltb_lt in N. now rewrite N.
  - intros Hk H0 H1. unfold getColorForMagnitude.
    rewrite (deck_colorIndex_band m k Hk H0 H1).
    assert (E : SkiaRender.itemAt COLOR_SCALE k = nth_error COLOR_SCALE (Z.to_nat k)).
    { unfold SkiaRender.itemAt. destruct (k <? 0)%Z eqn:N; [| reflexivity].
      apply Z.ltb_lt in N. lia. }
    split; [exact E |].
    destruct (deck_COLOR_SCALE_entry k ltac:(lia)) as [c Hc]. congruence.
  - intro H. unfold getColorForMagnitude. now rewrite deck_colorIndex_top.
Qed.

Lemma getColorForMagnitude_bands_witness :
  (0 <= 2 < 9)%Z /\ inject_Z 2 * (40 / 9) <= 10 /\ 10 < inject_Z (2 + 1) * (40 / 9) /\
  getColorForMagnitude 10 = nth_error COLOR_SCALE (Z.to_nat 2) /\
  getColorForMagnitude 10 <> None.
Proof.
  assert (A : (0 <= 2 < 9)%Z) by lia.
  assert (B : inject_Z 2 * (40 / 9) <= 10) by discriminate.
  assert (C : 10 < inject_Z (2 + 1) * (40 / 9)) by reflexivity.
  split; [exact A |]. split; [exact B |]. split; [exact C |].
  exact (proj1 (proj2 (getColorForMagnitude_bands 10 2)) A B C).
Defined.

End DeckRenderProps.

Section CreateLayersProps.

Import Deck DeckRender.

Variable sqrt : Q -> Q.

Lemma seasoned_opacity (wd : Sampler.WindData) (p : Particle) :
  seasoned p ->
  let d := pathDatum sqrt wd p in
  opacity d == 1 - inject_Z (age p) / (2 * inject_Z (maxAge p)) /\
  1 / 2 <= opacity d /\ opacity d <= 1 /\ alphaWithin 100 200 d.
Proof.
  intros [[A0 A1] M]. cbv zeta.
  pose proof (inject_Z_pos _ M) as Mq.
  assert (Aq : 0 <= inject_Z (age p))
    by (change 0 with (inject_Z 0); now rewrite <- Zle_Qle).
  assert (Bq : inject_Z (age p) <= inject_Z (maxAge p)) by (now rewrite <- Zle_Qle).
  set (f := inject_Z (age p) / inject_Z (maxAge p)).
  assert (F0 : 0 <= f) by (apply Qle_shift_div_l; lra).
  assert (F1 : f <= 1) by (apply Qle_shift_div_r; lra).
  assert (O : opacity (pathDatum sqrt wd p) == 1 - f * (1 # 2)).
  { cbn [opacity pathDatum]. fold f. unfold Qmax.
    destruct (Qle_bool 0.1 (1 - f * 0.5)) eqn:E; [lra |].
    exfalso. assert (N : ~ 0.1 <= 1 - f * 0.5) by (rewrite <- Qle_bool_iff; congruence).
    apply N. lra. }
  split; [| split; [| split]].
  - rewrite O. unfold f. field. lra.
  - rewrite O. change (1 / 2) with (1 # 2). lra.
  - rewrite O. lra.
  - unfold alphaWithin, getColor.
    destruct (color (pathDatum sqrt wd p)) as [[[r g] b] |]; [| exact I].
    split.
    + assert (L : (floor 100 <= floor (opacity (pathDatum sqrt wd p) * 200))%Z)
        by (apply floor_mono; rewrite O; lra).
      exact L.
    + assert (U : (floor (opacity (pathDatum sqrt wd p) * 200) <= floor 200)%Z)
        by (apply floor_mono; rewrite O; lra).
      exact U.
Qed.

Lemma createLayers_seasoned (wd : Sampler.WindData) (ps : list Particle) :
  Forall seasoned ps ->
  exists data,
    createLayers sqrt (Some wd) ps = Some data /\
    Forall (fun d => 1 / 2 <= opacity d /\ opacity d <= 1 /\ alphaWithin 100 200 d)
      data.
Proof.
  intro H. eexists. split; [reflexivity |].
  apply Forall_map. apply Forall_forall. intros p Hp.
  apply filter_In in Hp. destruct Hp as [Hp _].
  rewrite Forall_forall in H.
  destruct (seasoned_opacity wd p (H p Hp)) as [_ K]. exact K.
Qed.

Lemma grow_seasoned (wd : Sampler.WindData) (p : Particle) :
  (0 <= age p)%Z -> (0 < maxAge p)%Z ->
  needsReset wd (grow p) = false -> seasoned (grow p).
Proof.
  intros A M E. apply deck_needsReset_false in E. destruct E as [E _].
  cbn in E. unfold seasoned. cbn. lia.
Qed.

Lemma advect_ages (wd : Sampler.WindData) (sf : Q) (tl : Z) (p : Particle) :
  age (advect wd sf tl p) = age p /\ maxAge (advect wd sf tl p) = maxAge p.
Proof.
  unfold advect. cbv zeta.
  destruct (_ && _)%bool; [| now split].
  destruct (byteAt _ _) as [r |]; [| now split].
  destruct (byteAt _ _) as [g |]; [| now split].
  destruct (byteAt _ _) as [a |]; [| now split].
  destruct (0 <? a)%Z; now split.
Qed.

Lemma fresh_maxAge (m : Z) (r : Q) :
  (16 <= m)%Z -> 0 <= r -> (0 < m + floor (r * 30) - 15)%Z.
Proof.
  intros Hm Hr. assert (0 <= floor (r * 30))%Z by (apply floor_nonneg; lra). lia.
Qed.

Lemma basic_updateParticle_seasoned (pr : DeckBasic.Props)
    (wd : Sampler.WindData) (g : Rng) (p : Particle) :
  (16 <= DeckBasic.meanMaxAge pr)%Z -> unit_draws g ->
  (0 <= age p)%Z /\ (0 < maxAge p)%Z ->
  seasoned (fst (DeckBasic.updateParticle pr wd g p)) /\
  unit_draws (snd (DeckBasic.updateParticle pr wd g p)).
Proof.
  intros Hm Hg [A M]. unfold DeckBasic.updateParticle. cbv zeta.
  destruct (advect_ages wd (DeckBasic.speedFactor pr) (DeckBasic.trailLength pr) p)
    as [Ea Em].
  destruct (needsReset wd _) eqn:E.
  - split; [| intro n; apply (Hg (3 + n)%nat)].
    unfold seasoned. cbn -[floor Z.add Z.sub].
    pose proof (fresh_maxAge _ (g 2%nat) Hm (proj1 (Hg 2%nat))). lia.
  - split; [| exact Hg].
    apply (grow_seasoned wd); [rewrite Ea | rewrite Em |]; assumption.
Qed.

Lemma deck_updateParticle_seasoned (pr : Props)
    (wd : Sampler.WindData) (g : Rng) (p : Particle) :
  (16 <= meanMaxAge pr)%Z -> unit_draws g ->
  (0 <= age p)%Z /\ (0 < maxAge p)%Z ->
  seasoned (fst (updateParticle pr wd g p)) /\
  unit_draws (snd (updateParticle pr wd g p)).
Proof.
  intros Hm Hg [A M]. unfold updateParticle. cbv zeta.
  destruct (advect_ages wd (getSpeedFactor pr (zoom pr)) (getTrailLength pr (zoom pr)) p)
    as [Ea Em].
  destruct (needsReset wd _) eqn:E.
  - split; [| intro n; apply (Hg (3 + n)%nat)].
    unfold seasoned. cbn -[floor Z.add Z.sub].
    pose proof (fresh_maxAge _ (g 2%nat) Hm (proj1 (Hg 2%nat))). lia.
  - split; [| exact Hg].
    apply (grow_seasoned wd); [rewrite Ea | rewrite Em |]; assumption.
Qed.

Lemma forEach_Forall_inv {P : Type} (I : Rng -> Prop) (A B : P -> Prop)
    (f : Rng -> P -> P * Rng) :
  (forall g p, I g -> A p -> B (fst (f g p)) /\ I (snd (f g p))) ->
  forall ps g, I g -> Forall A ps ->
    Forall B (fst (forEach f g ps)) /\ I (snd (forEach f g ps)).
Proof.
  intros H. induction ps as [| p ps IH]; intros g Hg HA.
  - cbn. split; [constructor | assumption].
  - cbn [forEach]. inversion HA as [| ? ? Hp Hps]; subst.
    destruct (H g p Hg Hp) as [H1 H2].
    destruct (f g p) as [p' g1]. cbn in H1, H2.
    destruct (IH g1 H2 Hps) as [H3 H4].
    destruct (forEach f g1 ps) as [rest g2]. cbn in *.
    split; [constructor; assumption | assumption].
Qed.

End CreateLayersProps.

(** X15.  The trails never fade below half: after a tick of either path
    layer (a [maxAge] prop of 16 or more, draws in [[0, 1)]) on particles
    of non-negative age and positive maximal age, [createLayers] gives
    every path an opacity in [[1/2, 1]] and [getColor] an alpha in
    [[100, 200]]; the floor of 0.1 of [Math.max] never applies. *)
Theorem createLayers_opacity (sqrt : Q -> Q) (prB : DeckBasic.Props)
    (prZ : Deck.Props) (wd : Sampler.WindData) (g : Rng)
    (ps ps' : list Deck.Particle) :
  DeckBasic.windData prB = Some wd -> Deck.windData prZ = Some wd ->
  (16 <= DeckBasic.meanMaxAge prB)%Z -> (16 <= Deck.meanMaxAge prZ)%Z ->
  unit_draws g ->
  Forall (fun p => (0 <= Deck.age p)%Z /\ (0 < Deck.maxAge p)%Z) ps ->
  ps' = fst (DeckBasic.updateParticles prB g ps) \/
  ps' = fst (Deck.updateParticles prZ g ps) ->
  exists data,
    DeckRender.createLayers sqrt (Some wd) ps' = Some data /\
    Forall (fun d => 1 / 2 <= DeckRender.opacity d /\ DeckRender.opacity d <= 1 /\
                     alphaWithin 100 200 d) data.
Proof.
  intros HB HZ MB MZ Hg Hps Hps'.
  apply createLayers_seasoned.
  destruct Hps' as [-> | ->].
  - unfold DeckBasic.updateParticles. rewrite HB.
    apply (forEach_Forall_inv unit_draws
             (fun p => (0 <= Deck.age p)%Z /\ (0 < Deck.maxAge p)%Z) seasoned);
      [| assumption | assumption].
    intros g' p Hg' Hp. now apply basic_updateParticle_seasoned.
  - unfold Deck.updateParticles. rewrite HZ.
    apply (forEach_Forall_inv unit_draws
             (fun p => (0 <= Deck.age p)%Z /\ (0 < Deck.maxAge p)%Z) seasoned);
      [| assumption | assumption].
    intros g' p Hg' Hp. now apply deck_updateParticle_seasoned.
Qed.

Section MaskProps.

Import Deck DeckRender.

Variable sqrt : Q -> Q.
Hypothesis sqrt_nonneg : forall q, 0 <= sqrt q.
Hypothesis sqrt_large : forall q, 1600 <= q -> 40 <= sqrt q.

Lemma headMagnitude_sameButAlpha (wd wd' : Sampler.WindData) (p : Particle) :
  sameButAlpha wd wd' -> headMagnitude sqrt wd p = headMagnitude sqrt wd' p.
Proof.
  intros [Hw [Hh Hb]]. unfold headMagnitude. cbv zeta. rewrite <- Hw, <- Hh.
  destruct (_ && _)%bool; [| reflexivity].
  rewrite <- !Hb; [reflexivity | |].
  - rewrite Z.add_comm, Z_mod_plus_full. discriminate.
  - rewrite Z.mod_mul; discriminate.
Qed.

Lemma createLayers_sameButAlpha (wd wd' : Sampler.WindData) (ps : list Particle) :
  sameButAlpha wd wd' ->
  createLayers sqrt (Some wd) ps = createLayers sqrt (Some wd') ps.
Proof.
  intro H. unfold createLayers. f_equal. apply map_ext. intro p.
  unfold pathDatum. now rewrite (headMagnitude_sameButAlpha wd wd' p H).
Qed.

Lemma headMagnitude_defined (wd : Sampler.WindData) (p : Particle) :
  Sampler.wellFormed wd ->
  exists m, headMagnitude sqrt wd p = Some m /\ 0 <= m.
Proof.
  intro Hwf. unfold headMagnitude. cbv zeta.
  destruct (_ && _)%bool eqn:E.
  - apply andb_true_iff in E. destruct E as [E E4].
    apply andb_true_iff in E. destruct E as [E E3].
    apply andb_true_iff in E. destruct E as [E1 E2].
    apply Z.leb_le in E1, E3. apply Z.ltb_lt in E2, E4.
    destruct (pixel_defined wd (floor (x p)) (floor (y p)) Hwf) as (r & g & b & a & Hp & _).
    { split; split; assumption. }
    unfold Sampler.pixel in Hp. cbv zeta in Hp.
    destruct (byteAt _ _) as [r' |]; [| discriminate].
    destruct (byteAt _ _) as [g' |]; [| discriminate].
    eexists. split; [reflexivity | apply sqrt_nonneg].
  - exists 5. split; [reflexivity | discriminate].
Qed.

Lemma pathDatum_coloured (wd : Sampler.WindData) (p : Particle) :
  Sampler.wellFormed wd -> getColor (pathDatum sqrt wd p) <> None.
Proof.
  intro Hwf. unfold getColor. cbn [color pathDatum].
  destruct (headMagnitude_defined wd p Hwf) as (m & -> & Hm).
  destruct (getColorForMagnitude_nonneg m Hm) as [[[r g] b] ->]. discriminate.
Qed.

Lemma pathDatum_no_data (wd : Sampler.WindData) (p : Particle) (b a : Z) :
  Sampler.inRange wd (floor (x p)) (floor (y p)) ->
  Sampler.pixel wd (floor (x p)) (floor (y p)) = Some (0, 0, b, a)%Z ->
  color (pathDatum sqrt wd p) = Some (180, 50, 60)%Z.
Proof.
  intros [[R1 R2] [R3 R4]] Hp. cbn [color pathDatum]. unfold headMagnitude. cbv zeta.
  apply Z.leb_le in R1, R3. apply Z.ltb_lt in R2, R4. rewrite R1, R2, R3, R4. cbn [andb].
  unfold Sampler.pixel in Hp. cbv zeta in Hp.
  destruct (byteAt _ _) as [r' |]; [| discriminate].
  destruct (byteAt _ _) as [g' |]; [| discriminate].
  destruct (byteAt _ _) as [b' |]; [| discriminate].
  destruct (byteAt _ _) as [a' |]; [| discriminate].
  injection Hp as -> -> _ _.
  unfold getColorForMagnitude. rewrite deck_colorIndex_top; [reflexivity |].
  apply sqrt_large. discriminate.
Qed.

End MaskProps.

(** X16.  [createLayers] reads the wind through the mask: the colour of a
    path comes from the red and green bytes under the particle whatever
    the alpha byte, so two fields that differ in their alpha bytes only
    give the same layer data; on a well-formed field every path has a
    colour ([getColor] does not throw); and a particle over a pixel with
    red and green bytes 0, as a pixel without data has, is drawn in the
    last colour of the scale, that of the strongest wind. *)
Theorem createLayers_ignores_mask (sqrt : Q -> Q) (wd wd' : Sampler.WindData)
    (ps : list Deck.Particle) (p : Deck.Particle) (b a : Z) :
  (forall q, 0 <= sqrt q) -> (forall q, 1600 <= q -> 40 <= sqrt q) ->
  Sampler.wellFormed wd -> sameButAlpha wd wd' ->
  DeckRender.createLayers sqrt (Some wd) ps
  = DeckRender.createLayers sqrt (Some wd') ps /\
  (exists data,
     DeckRender.createLayers sqrt (Some wd) ps = Some data /\
     Forall (fun d => DeckRender.getColor d <> None) data) /\
  (Sampler.inRange wd (floor (Deck.x p)) (floor (Deck.y p)) ->
   Sampler.pixel wd (floor (Deck.x p)) (floor (Deck.y p)) = Some (0, 0, b, a)%Z ->
   DeckRender.color (DeckRender.pathDatum sqrt wd p) = Some (180, 50, 60)%Z).
Proof.
  intros S0 S1 Hwf Hsame. split; [| split].
  - now apply createLayers_sameButAlpha.
  - eexists. split; [reflexivity |].
    apply Forall_map. apply Forall_forall. intros q _.
    now apply pathDatum_coloured.
  - now apply pathDatum_no_data.
Qed.

Lemma intSqrt_large (q : Q) : 1600 <= q -> 40 <= SkiaRender.intSqrt q.
Proof.
  intro H. unfold SkiaRender.intSqrt.
  change 40 with (inject_Z 40). rewrite <- Zle_Qle.
  change 40%Z with (Z.sqrt 1600). apply Z.sqrt_le_mono.
  change 1600%Z with (floor 1600). now apply floor_mono.
Defined.

Lemma twoPixels_sameButAlpha : sameButAlpha twoPixels twoPixelsOpaque.
Proof.
  split; [reflexivity |]. split; [reflexivity |].
  intros i Hi. unfold byteAt.
  destruct (i <? 0)%Z eqn:N; [reflexivity |]. apply Z.ltb_ge in N.
  assert (C : (i = 0 \/ i = 1 \/ i = 2 \/ i = 3 \/ i = 4 \/ i = 5 \/ i = 6
               \/ i = 7 \/ 8 <= i)%Z) by lia.
  destruct C as [-> | [-> | [-> | [-> | [-> | [-> | [-> | [-> | C]]]]]]]];
    try reflexivity; try (exfalso; apply Hi; reflexivity).
  assert (L : forall d : list Z, length d = 8%nat -> nth_error d (Z.to_nat i) = None)
    by (intros d Hd; apply nth_error_None; lia).
  cbn [Sampler.imageData twoPixels twoPixelsOpaque].
  now rewrite !L.
Defined.

Lemma createLayers_ignores_mask_witness :
  (forall q, 0 <= SkiaRender.intSqrt q) /\
  (forall q, 1600 <= q -> 40 <= SkiaRender.intSqrt q) /\
  Sampler.wellFormed twoPixels /\ sameButAlpha twoPixels twoPixelsOpaque /\
  DeckRender.createLayers SkiaRender.intSqrt (Some twoPixels) [coaster]
  = DeckRender.createLayers SkiaRender.intSqrt (Some twoPixelsOpaque) [coaster] /\
  (exists data,
     DeckRender.createLayers SkiaRender.intSqrt (Some twoPixels) [coaster] = Some data /\
     Forall (fun d => DeckRender.getColor d <> None) data) /\
  (Sampler.inRange twoPixels (floor (Deck.x coaster)) (floor (Deck.y coaster)) ->
   Sampler.pixel twoPixels (floor (Deck.x coaster)) (floor (Deck.y coaster))
   = Some (0, 0, 0, 0)%Z ->
   DeckRender.color (DeckRender.pathDatum SkiaRender.intSqrt twoPixels coaster)
   = Some (180, 50, 60)%Z).
Proof.
  split; [exact intSqrt_nonneg |]. split; [exact intSqrt_large |].
  split; [exact twoPixels_wellFormed |]. split; [exact twoPixels_sameButAlpha |].
  exact (createLayers_ignores_mask SkiaRender.intSqrt twoPixels twoPixelsOpaque
           [coaster] coaster 0 0 intSqrt_nonneg intSqrt_large twoPixels_wellFormed
           twoPixels_sameButAlpha).
Defined.

Section DeckPointsProps.

Import DeckPoints.

Variable sqrt : Q -> Q.

Lemma points_needsReset_false (wd : Sampler.WindData) (p : Particle) :
  needsReset wd p = false <-> (age p <= maxAge p)%Z /\ inGrid wd p.
Proof.
  unfold needsReset, inGrid.
  rewrite !orb_false_iff, Z.ltb_ge, !Qltb_ge, !Qgeb_lt. tauto.
Qed.

Lemma points_respawn (wd : Sampler.WindData) (m : Z) (g : Rng) (p : Particle) :
  (0 < Sampler.width wd)%Z -> (0 < Sampler.height wd)%Z -> unit_draws g ->
  let p' := fst (respawn wd m g p) in
  inGrid wd p' /\ anchored wd p' /\ id p' = id p /\ age p' = 0%Z /\
  length (trail p') = 1%nat /\ unit_draws (snd (respawn wd m g p)).
Proof.
  intros Hw Hh Hg. cbv zeta.
  destruct (Hg 0%nat) as [A0 A1]. destruct (Hg 1%nat) as [B0 B1].
  destruct (unit_scale _ _ A0 A1 Hw). destruct (unit_scale _ _ B0 B1 Hh).
  split; [unfold inGrid; cbn; tauto |].
  split; [unfold anchored; cbn; repeat split; discriminate |].
  split; [reflexivity |]. split; [reflexivity |]. split; [reflexivity |].
  exact (unit_draws_tail g 3 Hg).
Qed.

Lemma last_snoc_tl {A : Type} (l : list A) (a d : A) :
  l <> [] -> tl (l ++ [a]) <> [] /\ last (tl (l ++ [a])) d = a.
Proof.
  intro H. destruct l as [| b l]; [contradiction |]. cbn [app tl].
  split; [destruct l; discriminate | apply last_last].
Qed.

Lemma length_tl_snoc {A : Type} (l : list A) (a : A) :
  length (tl (l ++ [a])) = length l.
Proof.
  destruct l as [| b l]; cbn [app tl length]; [reflexivity |].
  rewrite length_app. cbn [length]. lia.
Qed.

Lemma points_advect (wd : Sampler.WindData) (sf : Q) (l : Z) (p : Particle) :
  let p' := advect sqrt wd sf l p in
  id p' = id p /\ age p' = age p /\ maxAge p' = maxAge p /\
  (anchored wd p -> anchored wd p') /\
  ((1 <= l)%Z -> (Z.of_nat (length (trail p)) <= l)%Z ->
   (Z.of_nat (length (trail p')) <= l)%Z) /\
  (length (trail p) <= length (trail p') <= S (length (trail p)))%nat.
Proof.
  cbv zeta. unfold advect. cbv zeta.
  assert (K : id p = id p /\ age p = age p /\ maxAge p = maxAge p /\
              (anchored wd p -> anchored wd p) /\
              ((1 <= l)%Z -> (Z.of_nat (length (trail p)) <= l)%Z ->
               (Z.of_nat (length (trail p)) <= l)%Z) /\
              (length (trail p) <= length (trail p) <= S (length (trail p)))%nat)
    by (split; [reflexivity |]; split; [reflexivity |]; split; [reflexivity |];
        split; [tauto |]; split; [tauto | lia]).
  destruct (_ && _)%bool; [| exact K].
  destruct (byteAt _ _) as [r |]; [| exact K].
  destruct (byteAt _ _) as [g |]; [| exact K].
  destruct (byteAt _ _) as [a |]; [| exact K].
  destruct (0 <? a)%Z; [| exact K]. clear K.
  cbn [id age maxAge trail lng lat x y].
  split; [reflexivity |]. split; [reflexivity |]. split; [reflexivity |].
  rewrite length_app. cbn [length].
  destruct (l <? Z.of_nat (length (trail p) + 1))%Z eqn:E.
  - apply Z.ltb_lt in E. split; [| split].
    + intros (_ & _ & Ht & _). unfold anchored. cbn [lng lat x y trail].
      split; [reflexivity |]. split; [reflexivity |].
      now apply last_snoc_tl.
    + intros L1 L2. rewrite length_tl_snoc. exact L2.
    + rewrite length_tl_snoc. lia.
  - apply Z.ltb_ge in E. split; [| split].
    + intros _. unfold anchored. cbn [lng lat x y trail].
      split; [reflexivity |]. split; [reflexivity |].
      split; [destruct (trail p); discriminate | apply last_last].
    + intros _ _. rewrite length_app. cbn [length]. lia.
    + rewrite length_app. cbn [length]. lia.
Qed.

Lemma points_updateParticle (pr : Props) (wd : Sampler.WindData) (g : Rng)
    (p : Particle) :
  (0 < Sampler.width wd)%Z -> (0 < Sampler.height wd)%Z -> unit_draws g ->
  let p' := fst (updateParticle sqrt pr wd g p) in
  (inGrid wd p' /\ (anchored wd p -> anchored wd p') /\
   trailKept (trailLength pr) p p') /\
  unit_draws (snd (updateParticle sqrt pr wd g p)).
Proof.
  intros Hw Hh Hg. cbv zeta. unfold updateParticle. cbv zeta.
  destruct (points_advect wd (speedFactor pr) (trailLength pr) p)
    as (Ai & Aa & Am & Aanch & Alen & Amono).
  destruct (needsReset wd _) eqn:E.
  - destruct (points_respawn wd (meanMaxAge pr) g
                (grow (advect sqrt wd (speedFactor pr) (trailLength pr) p)) Hw Hh Hg)
      as (R1 & R2 & R3 & R4 & R5 & R6).
    split; [| exact R6]. split; [exact R1 |]. split; [intros _; exact R2 |].
    unfold trailKept. split; [rewrite R3; exact Ai |].
    split; [intros L1 _; rewrite R5; cbn; lia | intro N; contradiction].
  - apply points_needsReset_false in E. destruct E as [_ E].
    split; [| exact Hg]. split; [exact E |]. split; [exact Aanch |].
    unfold trailKept. cbn [fst grow id trail age].
    split; [exact Ai |]. split; [exact Alen | intros _; exact Amono].
Qed.

Lemma points_updateParticles (pr : Props) (wd : Sampler.WindData) (g : Rng)
    (ps : list Particle) :
  windData pr = Some wd ->
  (0 < Sampler.width wd)%Z -> (0 < Sampler.height wd)%Z -> unit_draws g ->
  Forall2 (fun p p' => inGrid wd p' /\ (anchored wd p -> anchored wd p') /\
                       trailKept (trailLength pr) p p')
    ps (fst (updateParticles sqrt pr g ps)) /\
  unit_draws (snd (updateParticles sqrt pr g ps)).
Proof.
  intros Hwd Hw Hh Hg. unfold updateParticles. rewrite Hwd.
  apply (forEach_Forall2_inv unit_draws); [| assumption].
  intros g' p Hg'. now apply points_updateParticle.
Qed.

Lemma points_initLoop (wd : Sampler.WindData) (m : Z) :
  (0 < Sampler.width wd)%Z -> (0 < Sampler.height wd)%Z ->
  forall (n : nat) (i : Z) (g : Rng), unit_draws g ->
    Forall (fun p => inGrid wd p /\ anchored wd p /\ length (trail p) = 1%nat)
      (fst (initLoop wd m n i g)) /\
    unit_draws (snd (initLoop wd m n i g)).
Proof.
  intros Hw Hh. induction n as [| n IH]; intros i g Hg.
  - cbn. split; [constructor | assumption].
  - cbn [initLoop].
    destruct (initParticle wd m i g) as [p g1] eqn:E.
    assert (Hp : (inGrid wd p /\ anchored wd p /\ length (trail p) = 1%nat)
                 /\ unit_draws g1).
    { unfold initParticle in E. cbn in E. injection E as <- <-. split.
      - destruct (Hg 0%nat) as [A0 A1]. destruct (Hg 1%nat) as [B0 B1].
        destruct (unit_scale _ _ A0 A1 Hw). destruct (unit_scale _ _ B0 B1 Hh).
        split; [unfold inGrid; cbn; tauto |].
        split; [unfold anchored; cbn; repeat split; discriminate | reflexivity].
      - exact (unit_draws_tail g 4 Hg). }
    destruct Hp as [Hp Hg1].
    destruct (IH (i + 1)%Z g1 Hg1) as [IH1 IH2].
    destruct (initLoop wd m n (i + 1)%Z g1) as [rest g2]. cbn in *.
    split; [constructor; assumption | assumption].
Qed.

End DeckPointsProps.

(** X17.  The point layer keeps its particles in the grid and anchored:
    on a field of positive width and height, for every draw of
    [Math.random()] in [[0, 1)], the particles [initParticles] creates lie
    in [[0, width) x [0, height)], at the coordinates their pixel
    position maps to, with a trail of that one position; after a tick
    every particle is in the grid, and an anchored particle is still
    anchored: its [lng], [lat] follow its pixel position and are the
    last, newest point of its non-empty trail, the end the line layer
    draws to. *)
Theorem points_anchored (sqrt : Q -> Q) (pr : DeckPoints.Props)
    (wd : Sampler.WindData) (g : Rng) (ps : list DeckPoints.Particle) :
  DeckPoints.windData pr = Some wd ->
  (0 < Sampler.width wd)%Z -> (0 < Sampler.height wd)%Z -> unit_draws g ->
  (exists ps0 g0,
     DeckPoints.initParticles pr g = Some (ps0, g0) /\
     Forall (fun p => DeckPoints.inGrid wd p /\ DeckPoints.anchored wd p /\
                      length (DeckPoints.trail p) = 1%nat) ps0 /\
     unit_draws g0) /\
  Forall (DeckPoints.inGrid wd) (fst (DeckPoints.updateParticles sqrt pr g ps)) /\
  (Forall (DeckPoints.anchored wd) ps ->
   Forall (DeckPoints.anchored wd) (fst (DeckPoints.updateParticles sqrt pr g ps))) /\
  unit_draws (snd (DeckPoints.updateParticles sqrt pr g ps)).
Proof.
  intros Hwd Hw Hh Hg. split; [| split; [| split]].
  - unfold DeckPoints.initParticles. rewrite Hwd.
    destruct (points_initLoop wd (DeckPoints.meanMaxAge pr) Hw Hh
                (Z.to_nat (DeckPoints.particleCount pr)) 0%Z g Hg) as [H1 H2].
    destruct (DeckPoints.initLoop _ _ _ _ _) as [ps0 g0]. eauto.
  - destruct (points_updateParticles sqrt pr wd g ps Hwd Hw Hh Hg) as [H _].
    eapply Forall2_Forall_r; [| exact H]. intros a b K. apply K.
  - destruct (points_updateParticles sqrt pr wd g ps Hwd Hw Hh Hg) as [H _].
    apply Forall2_Forall_pres.
    eapply Forall2_impl; [| exact H]. intros a b K. apply K.
  - now destruct (points_updateParticles sqrt pr wd g ps Hwd Hw Hh Hg).
Qed.

Lemma points_updateParticle_trailKept (sqrt : Q -> Q) (pr : DeckPoints.Props)
    (wd : Sampler.WindData) (g : Rng) (p : DeckPoints.Particle) :
  DeckPoints.trailKept (DeckPoints.trailLength pr) p
    (fst (DeckPoints.updateParticle sqrt pr wd g p)).
Proof.
  unfold DeckPoints.updateParticle. cbv zeta.
  destruct (points_advect sqrt wd (DeckPoints.speedFactor pr)
              (DeckPoints.trailLength pr) p)
    as (Ai & Aa & Am & Aanch & Alen & Amono).
  destruct (DeckPoints.needsReset wd _).
  - unfold DeckPoints.trailKept. cbn -[Z.of_nat]. split; [exact Ai |].
    split; [intros L1 _; cbn; lia | intro N; contradiction].
  - unfold DeckPoints.trailKept.
    cbn [fst DeckPoints.grow DeckPoints.id DeckPoints.trail DeckPoints.age].
    split; [exact Ai |]. split; [exact Alen | intros _; exact Amono].
Qed.

(** X18.  The trail of the point layer is trimmed by one point per tick:
    a tick keeps the ids; with a [trailLength] of at least 1 a trail
    within the length stays within it; and a particle that is not reset
    in the tick (its age after the tick is not 0) has a trail at least as
    long as before, and at most one point longer, so a trail left longer
    than a [trailLength] that has been lowered is not cut back before the
    particle is reset. *)
Theorem points_trail_kept (sqrt : Q -> Q) (pr : DeckPoints.Props) (g : Rng)
    (ps : list DeckPoints.Particle) :
  Forall2 (DeckPoints.trailKept (DeckPoints.trailLength pr))
    ps (fst (DeckPoints.updateParticles sqrt pr g ps)).
Proof.
  unfold DeckPoints.updateParticles.
  destruct (DeckPoints.windData pr) as [wd |].
  - apply forEach_Forall2. intros g' p. apply points_updateParticle_trailKept.
  - cbn [fst]. induction ps as [| p ps IH]; constructor; [| exact IH].
    unfold DeckPoints.trailKept. split; [reflexivity |]. split; [tauto | lia].
Qed.

Section PointLayersProps.

Import DeckPoints.

Lemma mapThrowing_Forall2 {A B : Type} (f : A -> option B) :
  forall (l : list A) (bs : list B),
    mapThrowing f l = Some bs -> Forall2 (fun a b => f a = Some b) l bs.
Proof.
  induction l as [| a l IH]; intros bs H; cbn in H.
  - injection H as <-. constructor.
  - destruct (f a) as [b |] eqn:E; [| discriminate].
    destruct (mapThrowing f l) as [bs' |]; [| discriminate].
    injection H as <-. constructor; [exact E | now apply IH].
Qed.

Lemma mapThrowing_None {A B : Type} (f : A -> option B) :
  forall (l : list A),
    mapThrowing f l = None <-> Exists (fun a => f a = None) l.
Proof.
  induction l as [| a l IH]; cbn.
  - split; [discriminate | intro H; inversion H].
  - destruct (f a) as [b |] eqn:E.
    + destruct (mapThrowing f l) as [bs |].
      * split; [discriminate |]. intro H. inversion H as [? ? K | ? ? K]; subst.
        -- congruence.
        -- apply IH in K. discriminate.
      * split; [| reflexivity]. intros _. apply Exists_cons_tl. now apply IH.
    + split; [| reflexivity]. intros _. now apply Exists_cons_hd.
Qed.

Lemma points_color_empty (m : Q) : getColorForMagnitude m [] = None.
Proof.
  unfold getColorForMagnitude, SkiaRender.itemAt.
  destruct (_ <? 0)%Z; [reflexivity |].
  now destruct (Z.to_nat _).
Qed.

Lemma points_colorIndex_range (m : Q) (cs : list (Z * Z * Z)) :
  cs <> [] -> 0 <= m ->
  (0 <= colorIndex m cs < Z.of_nat (length cs))%Z.
Proof.
  intros Hcs Hm. unfold colorIndex. cbv zeta.
  assert (N : (1 <= Z.of_nat (length cs))%Z)
    by (destruct cs; [contradiction | cbn [length]; lia]).
  set (n1 := (Z.of_nat (length cs) - 1)%Z) in *.
  assert (Nq : 0 <= inject_Z n1)
    by (change 0 with (inject_Z 0); rewrite <- Zle_Qle; lia).
  assert (E : m / 50 == m * (1 # 50)) by field.
  assert (0 <= floor (Qmin (m / 50) 1 * inject_Z n1))%Z.
  { apply floor_nonneg.
    destruct (Qmin_cases (m / 50) 1) as [[_ ->] | [_ ->]]; nra. }
  lia.
Qed.

Lemma points_color_defined (m : Q) (cs : list (Z * Z * Z)) :
  cs <> [] -> 0 <= m -> getColorForMagnitude m cs <> None.
Proof.
  intros Hcs Hm. unfold getColorForMagnitude, SkiaRender.itemAt.
  destruct (points_colorIndex_range m cs Hcs Hm) as [I0 I1].
  destruct (_ <? 0)%Z eqn:E; [apply Z.ltb_lt in E; lia |].
  destruct (nth_error cs (Z.to_nat (colorIndex m cs))) as [[[r g] b] |] eqn:K;
    [discriminate |].
  apply nth_error_None in K. lia.
Qed.

Lemma points_color_alpha (m : Q) (cs : list (Z * Z * Z)) (c : Z * Z * Z * Q) :
  getColorForMagnitude m cs = Some c -> 0.5 < m -> bright c.
Proof.
  intros H Hm. unfold getColorForMagnitude in H.
  destruct (SkiaRender.itemAt _ _) as [[[r g] b] |]; [| discriminate].
  injection H as <-. unfold bright. cbn [snd].
  destruct (Qmin_cases (150 + m * 3) 255) as [[L ->] | [L ->]]; lra.
Qed.

Lemma filter_and_length {A : Type} (a b : A -> bool) (l : list A) :
  (length (filter (fun p => a p && b p) l) <= length (filter b l))%nat.
Proof.
  induction l as [| p l IH]; cbn; [lia |].
  destruct (a p), (b p); cbn; lia.
Qed.

(** X19.  [createLayers] of the point layer throws exactly when the
    colour scale is empty and some particle has a magnitude above 0.5.
    When it returns, every trail and point has a colour of alpha in
    [(150, 255]], every point a radius above [particleSize], and there
    are at most as many trails as points, and as many points as
    particles. *)
Theorem points_createLayers (pr : Props) (ps : list Particle) :
  (createLayers pr ps = None <->
   colorScale pr = [] /\ Exists (fun p => 0.5 < magnitude p) ps) /\
  (forall trailData pointData,
     createLayers pr ps = Some (trailData, pointData) ->
     Forall (fun d => bright (td_color d)) trailData /\
     Forall (fun d => bright (pd_color d) /\ particleSize pr < pd_radius d) pointData /\
     (length trailData <= length pointData <= length ps)%nat).
Proof.
  set (ft := fun p : Particle =>
               match getColorForMagnitude (magnitude p) (colorScale pr) with
               | Some c => Some {| td_id := id p; td_path := trail p; td_color := c;
                                   td_width := Qmax 1 (particleSize pr * 0.5) |}
               | None => None
               end).
  set (fp := fun p : Particle =>
               match getColorForMagnitude (magnitude p) (colorScale pr) with
               | Some c => Some {| pd_position := (lng p, lat p); pd_color := c;
                                   pd_radius := particleSize pr + magnitude p * 0.1 |}
               | None => None
               end).
  set (lt := filter (fun p => (1 <? Z.of_nat (length (trail p)))%Z
                              && Qgtb (magnitude p) 0.5) ps).
  set (lp := filter (fun p => Qgtb (magnitude p) 0.5) ps).
  assert (Hval : createLayers pr ps
                 = match mapThrowing ft lt with
                   | None => None
                   | Some trailData =>
                       match mapThrowing fp lp with
                       | None => None
                       | Some pointData => Some (trailData, pointData)
                       end
                   end).
  { unfold createLayers. destruct ps as [| p ps']; [reflexivity | reflexivity]. }
  assert (Hft : forall p, ft p = None <-> getColorForMagnitude (magnitude p) (colorScale pr) = None).
  { intro p. unfold ft. destruct (getColorForMagnitude _ _); split; congruence. }
  assert (Hfp : forall p, fp p = None <-> getColorForMagnitude (magnitude p) (colorScale pr) = None).
  { intro p. unfold fp. destruct (getColorForMagnitude _ _); split; congruence. }
  assert (Hfast : forall p, In p lp -> 0.5 < magnitude p).
  { intros p Hp. apply filter_In in Hp. now apply Qgtb_gt. }
  assert (Hsub : forall p, In p lt -> In p lp).
  { intros p Hp. apply filter_In in Hp. destruct Hp as [Hp Hc].
    apply andb_true_iff in Hc. apply filter_In. now split. }
  split.
  - rewrite Hval. split.
    + intro H.
      assert (K : Exists (fun p => getColorForMagnitude (magnitude p) (colorScale pr) = None) lp).
      { destruct (mapThrowing ft lt) as [td |] eqn:Et.
        - destruct (mapThrowing fp lp) as [pd |] eqn:Ep; [discriminate |].
          apply mapThrowing_None in Ep.
          apply Exists_exists in Ep. destruct Ep as (p & Hp & Hn).
          apply Exists_exists. exists p. split; [exact Hp | now apply Hfp].
        - apply mapThrowing_None in Et.
          apply Exists_exists in Et. destruct Et as (p & Hp & Hn).
          apply Exists_exists. exists p. split; [now apply Hsub | now apply Hft]. }
      apply Exists_exists in K. destruct K as (p & Hp & Hn).
      pose proof (Hfast p Hp) as Hm.
      split.
      * destruct (colorScale pr) as [| c cs] eqn:Ecs; [reflexivity |].
        exfalso. revert Hn. apply points_color_defined; [discriminate | lra].
      * apply Exists_exists. exists p. split; [| exact Hm].
        apply filter_In in Hp. tauto.
    + intros [Hcs Hex].
      apply Exists_exists in Hex. destruct Hex as (p & Hp & Hm).
      assert (Ep : mapThrowing fp lp = None).
      { apply mapThrowing_None. apply Exists_exists. exists p. split.
        - apply filter_In. split; [exact Hp | now apply Qgtb_gt].
        - apply Hfp. rewrite Hcs. apply points_color_empty. }
      rewrite Ep. now destruct (mapThrowing ft lt).
  - intros td pd H. rewrite Hval in H.
    destruct (mapThrowing ft lt) as [td' |] eqn:Et; [| discriminate].
    destruct (mapThrowing fp lp) as [pd' |] eqn:Ep; [| discriminate].
    injection H as <- <-.
    apply mapThrowing_Forall2 in Et, Ep.
    split; [| split].
    + assert (G : forall l bs, (forall p, In p l -> 0.5 < magnitude p) ->
                    Forall2 (fun a b => ft a = Some b) l bs ->
                    Forall (fun d => bright (td_color d)) bs).
      { intros l bs Hl F. induction F as [| a b l' bs' Hab F IH]; constructor.
        - unfold ft in Hab.
          destruct (getColorForMagnitude _ _) as [c |] eqn:Ec; [| discriminate].
          injection Hab as <-. cbn [td_color].
          apply (points_color_alpha _ _ _ Ec). apply Hl. now left.
        - apply IH. intros p Hp. apply Hl. now right. }
      apply (G lt td'); [| exact Et]. intros p Hp. apply Hfast. now apply Hsub.
    + assert (G : forall l bs, (forall p, In p l -> 0.5 < magnitude p) ->
                    Forall2 (fun a b => fp a = Some b) l bs ->
                    Forall (fun d => bright (pd_color d) /\ particleSize pr < pd_radius d) bs).
      { intros l bs Hl F. induction F as [| a b l' bs' Hab F IH]; constructor.
        - unfold fp in Hab.
          destruct (getColorForMagnitude _ _) as [c |] eqn:Ec; [| discriminate].
          injection Hab as <-. cbn [pd_color pd_radius].
          assert (0.5 < magnitude a) by (apply Hl; now left).
          split; [apply (points_color_alpha _ _ _ Ec); assumption | lra].
        - apply IH. intros p Hp. apply Hl. now right. }
      apply (G lp pd'); [exact Hfast | exact Ep].
    + rewrite <- (Forall2_length Et), <- (Forall2_length Ep). split.
      * apply filter_and_length.
      * apply filter_length_le.
Qed.

End PointLayersProps.

Section LifeCycle.

Import Skia.


End LifeCycle.


Section DeckLifeCycle.

Import Deck.


End DeckLifeCycle.


Section TrailAges.

Import Deck.

Lemma StronglySorted_succ (l : list Z) :
  StronglySorted Z.le l -> StronglySorted Z.le (map (fun a => a + 1)%Z l).
Proof.
  induction 1 as [| a l S IH F]; cbn; constructor; [assumption |].
  apply Forall_map. eapply Forall_impl; [| exact F]. intros b Hb. cbn. lia.
Qed.

Lemma In_firstn {A : Type} (n : nat) :
  forall (l : list A) (a : A), In a (firstn n l) -> In a l.
Proof.
  induction n as [| n IH]; intros l a H; [contradiction |].
  destruct l as [| b l]; [contradiction |].
  destruct H as [-> | H]; [now left | right; now apply IH].
Qed.

Lemma StronglySorted_firstn (n : nat) (l : list Z) :
  StronglySorted Z.le l -> StronglySorted Z.le (firstn n l).
Proof.
  revert l. induction n as [| n IH]; intros l S; cbn; [constructor |].
  destruct S as [| a l S F]; constructor; [now apply IH |].
  apply Forall_forall. intros b Hb. rewrite Forall_forall in F. apply F.
  revert Hb. apply In_firstn.
Qed.

Lemma slice0_firstn {A : Type} (l : list A) (e : Z) :
  exists n, slice0 l e = firstn n l.
Proof. unfold slice0. destruct (e <? 0)%Z; eexists; reflexivity. Qed.

Lemma map_ageTrail (t : list TrailPoint) :
  map pt_age (ageTrail t) = map (fun a => a + 1)%Z (map pt_age t).
Proof. unfold ageTrail. rewrite !map_map. reflexivity. Qed.

Lemma grow_advect_ordered (wd : Sampler.WindData) (sf : Q) (l : Z) (p : Particle) :
  trailOrdered p -> trailOrdered (grow (advect wd sf l p)).
Proof.
  intros (A & S & F).
  assert (K : trailOrdered (grow p)).
  { unfold trailOrdered. cbn [grow age trail]. split; [lia |]. split; [exact S |].
    eapply Forall_impl; [| exact F]. intros q Hq. cbn in Hq. lia. }
  unfold advect. cbv zeta.
  destruct (_ && _)%bool; [| exact K].
  destruct (byteAt _ _) as [r |]; [| exact K].
  destruct (byteAt _ _) as [g |]; [| exact K].
  destruct (byteAt _ _) as [a |]; [| exact K].
  destruct (0 <? a)%Z; [| exact K]. clear K.
  unfold trailOrdered. cbn [grow age trail].
  set (t1 := ageTrail (_ :: trail p)).
  assert (S1 : StronglySorted Z.le (map pt_age t1)).
  { unfold t1. rewrite map_ageTrail. apply StronglySorted_succ. cbn [map pt_age].
    constructor; [exact S |].
    apply Forall_map. eapply Forall_impl; [| exact F]. intros q Hq. cbn in Hq. cbn. lia. }
  assert (F1 : Forall (fun q => (0 <= pt_age q <= age p + 1)%Z) t1).
  { unfold t1, ageTrail. apply Forall_map. constructor; [cbn; lia |].
    eapply Forall_impl; [| exact F]. intros q Hq. cbn in Hq. cbn. lia. }
  split; [lia |].
  destruct (l <? Z.of_nat (length t1))%Z; [| now split].
  destruct (slice0_firstn t1 l) as [n ->]. split.
  - rewrite <- firstn_map. now apply StronglySorted_firstn.
  - apply Forall_forall. intros q Hq. rewrite Forall_forall in F1. apply F1.
    revert Hq. apply In_firstn.
Qed.

Lemma fresh_ordered (i : Z) (x0 y0 : Q) (m : Z) (pt : TrailPoint) (a : Z) :
  (0 <= a)%Z -> pt_age pt = 0%Z ->
  trailOrdered {| id := i; x := x0; y := y0; age := a; maxAge := m; trail := [pt] |}.
Proof.
  intros Ha Hp. unfold trailOrdered. cbn [age trail map].
  split; [exact Ha |]. split.
  - constructor; constructor.
  - constructor; [rewrite Hp; lia | constructor].
Qed.

Lemma basic_updateParticle_ordered (pr : DeckBasic.Props) (wd : Sampler.WindData)
    (g : Rng) (p : Particle) :
  trailOrdered p -> trailOrdered (fst (DeckBasic.updateParticle pr wd g p)).
Proof.
  intro H. unfold DeckBasic.updateParticle. cbv zeta.
  destruct (needsReset wd _).
  - apply fresh_ordered; [lia | reflexivity].
  - now apply grow_advect_ordered.
Qed.

Lemma deck_updateParticle_ordered (pr : Props) (wd : Sampler.WindData)
    (g : Rng) (p : Particle) :
  trailOrdered p -> trailOrdered (fst (updateParticle pr wd g p)).
Proof.
  intro H. unfold updateParticle. cbv zeta.
  destruct (needsReset wd _).
  - apply fresh_ordered; [lia | reflexivity].
  - now apply grow_advect_ordered.
Qed.

End TrailAges.

(** X22.  The ages of the trail points of the path layers: in either
    layer a tick keeps the trail of every particle ordered by age, the
    youngest point first, with every point's age between 0 and the age of
    the particle, whatever the field, the draws and the trail length. *)
Theorem trail_ages_ordered (prB : DeckBasic.Props) (prZ : Deck.Props)
    (g : Rng) (ps : list Deck.Particle) :
  Forall trailOrdered ps ->
  Forall trailOrdered (fst (DeckBasic.updateParticles prB g ps)) /\
  Forall trailOrdered (fst (Deck.updateParticles prZ g ps)).
Proof.
  intro H. split.
  - unfold DeckBasic.updateParticles.
    destruct (DeckBasic.windData prB) as [wd |]; [| exact H].
    eapply Forall2_Forall_pres; [| exact H].
    apply forEach_Forall2. intros g' p. apply basic_updateParticle_ordered.
  - unfold Deck.updateParticles.
    destruct (Deck.windData prZ) as [wd |]; [| exact H].
    eapply Forall2_Forall_pres; [| exact H].
    apply forEach_Forall2. intros g' p. apply deck_updateParticle_ordered.
Qed.

(** *** The properties on concrete inputs *)


Lemma zeroDraws_unit : unit_draws zeroDraws.
Proof.
  apply cycle_unit_draws; [discriminate |].
  repeat (apply Forall_cons; [split; [discriminate | reflexivity] |]).
  apply Forall_nil.
Defined.



Lemma coaster_aged :
  Forall (fun p => (0 <= Deck.age p)%Z /\ (0 < Deck.maxAge p)%Z) [coaster].
Proof. constructor; [split; [discriminate | reflexivity] | constructor]. Defined.

Lemma coaster_ordered : Forall trailOrdered [coaster].
Proof.
  constructor; [| constructor]. split; [discriminate |]. split.
  - cbn. repeat constructor. discriminate.
  - repeat constructor; discriminate.
Defined.

Lemma sixteen_eighty : (16 <= 80)%Z.
Proof. discriminate. Defined.

Lemma basic_particles_inGrid_witness :
  DeckBasic.windData basicProps = Some panField /\
  (0 < Sampler.width panField)%Z /\ (0 < Sampler.height panField)%Z /\
  unit_draws zeroDraws /\
  (exists ps0 g0, DeckBasic.initParticles basicProps zeroDraws = Some (ps0, g0) /\
                  Forall (Deck.inGrid panField) ps0 /\ unit_draws g0) /\
  (forall (n : nat) (ps : list Deck.Particle),
     Forall (Deck.inGrid panField) (fst (DeckBasic.steps (S n) basicProps zeroDraws ps))).
Proof.
  split; [reflexivity |]. split; [exact positive_one |]. split; [exact positive_one |].
  split; [exact zeroDraws_unit |].
  exact (basic_particles_inGrid basicProps panField zeroDraws eq_refl
           positive_one positive_one zeroDraws_unit).
Defined.

Lemma createLayers_opacity_witness :
  DeckBasic.windData basicProps = Some panField /\
  Deck.windData (panProps midwest) = Some panField /\
  (16 <= DeckBasic.meanMaxAge basicProps)%Z /\
  (16 <= Deck.meanMaxAge (panProps midwest))%Z /\
  unit_draws zeroDraws /\
  Forall (fun p => (0 <= Deck.age p)%Z /\ (0 < Deck.maxAge p)%Z) [coaster] /\
  exists data,
    DeckRender.createLayers SkiaRender.intSqrt (Some panField)
      (fst (Deck.updateParticles (panProps midwest) zeroDraws [coaster])) = Some data /\
    Forall (fun d => 1 / 2 <= DeckRender.opacity d /\ DeckRender.opacity d <= 1 /\
                     alphaWithin 100 200 d) data.
Proof.
  split; [reflexivity |]. split; [reflexivity |].
  split; [exact sixteen_eighty |]. split; [exact sixteen_eighty |].
  split; [exact zeroDraws_unit |]. split; [exact coaster_aged |].
  exact (createLayers_opacity SkiaRender.intSqrt basicProps (panProps midwest)
           panField zeroDraws [coaster] _ eq_refl eq_refl sixteen_eighty
           sixteen_eighty zeroDraws_unit coaster_aged (or_intror eq_refl)).
Defined.

Lemma points_anchored_witness :
  DeckPoints.windData pointsProps = Some twoPixels /\
  (0 < Sampler.width twoPixels)%Z /\ (0 < Sampler.height twoPixels)%Z /\
  unit_draws zeroDraws /\
  (exists ps0 g0,
     DeckPoints.initParticles pointsProps zeroDraws = Some (ps0, g0) /\
     Forall (fun p => DeckPoints.inGrid twoPixels p /\ DeckPoints.anchored twoPixels p /\
                      length (DeckPoints.trail p) = 1%nat) ps0 /\
     unit_draws g0) /\
  Forall (DeckPoints.inGrid twoPixels)
    (fst (DeckPoints.updateParticles SkiaRender.intSqrt pointsProps zeroDraws [gust])) /\
  (Forall (DeckPoints.anchored twoPixels) [gust] ->
   Forall (DeckPoints.anchored twoPixels)
     (fst (DeckPoints.updateParticles SkiaRender.intSqrt pointsProps zeroDraws [gust]))) /\
  unit_draws
    (snd (DeckPoints.updateParticles SkiaRender.intSqrt pointsProps zeroDraws [gust])).
Proof.
  split; [reflexivity |]. split; [exact positive_two |]. split; [exact positive_one |].
  split; [exact zeroDraws_unit |].
  exact (points_anchored SkiaRender.intSqrt pointsProps twoPixels zeroDraws [gust]
           eq_refl positive_two positive_one zeroDraws_unit).
Defined.




Lemma trail_ages_ordered_witness :
  Forall trailOrdered [coaster] /\
  Forall trailOrdered (fst (DeckBasic.updateParticles basicProps zeroDraws [coaster])) /\
  Forall trailOrdered (fst (Deck.updateParticles (panProps midwest) zeroDraws [coaster])).
Proof.
  split; [exact coaster_ordered |].
  exact (trail_ages_ordered basicProps (panProps midwest) zeroDraws [coaster]
           coaster_ordered).
Defined.

End DeckLayers.

(** * The map page and the popup *)

Section PageProps.

Import Page.

(** Splits on the segment of the zoom [z]. *)
Ltac segment_of z :=
  destruct (Qltb z 3) eqn:?;
  [| destruct (Qltb z 5) eqn:?;
     [| destruct (Qltb z 7) eqn:?;
        [| destruct (Qltb z 9) eqn:?;
           [| destruct (Qltb z 11) eqn:? ]]]].

Lemma half_eq (a : Q) : a / 2 == a * (1 # 2).
Proof. field. Qed.

Lemma round_mono (a b : Q) : a <= b -> (round a <= round b)%Z.
Proof. intro H. apply floor_mono. lra. Qed.

Lemma round_inject (n : Z) : round (inject_Z n) = n.
Proof.
  unfold round. apply floor_between; [lra |].
  rewrite inject_Z_plus. change (inject_Z 1) with 1. lra.
Qed.

Lemma particleCount_range (z : Q) :
  4000 <= particleCount z /\ particleCount z <= 32000.
Proof.
  unfold particleCount. segment_of z; tiers; rewrite ?half_eq; split; lra.
Qed.

Lemma particleCount_slope (z1 z2 : Q) :
  z1 <= z2 ->
  0 <= particleCount z2 - particleCount z1 /\
  particleCount z2 - particleCount z1 <= 4000 * (z2 - z1).
Proof.
  intro H. unfold particleCount.
  segment_of z1; segment_of z2; tiers; rewrite ?half_eq; split; lra.
Qed.

(** X23.  The particle count of the regional wind layers grows with the
    zoom, without jumps: the count [updateParticleCount] computes is 4000
    below zoom 3 and 32000 from zoom 11 on, lies between the two in
    between, never decreases when the zoom grows, and grows by at most
    4000 for a zoom level; the integer it sets is within [[4000, 32000]]
    and never decreases with the zoom either. *)
Theorem updateParticleCount_shape (z1 z2 : Q) :
  z1 <= z2 ->
  (z1 < 3 -> updateParticleCount z1 = 4000%Z) /\
  (11 <= z1 -> updateParticleCount z1 = 32000%Z) /\
  particleCount z1 <= particleCount z2 /\
  particleCount z2 - particleCount z1 <= 4000 * (z2 - z1) /\
  (4000 <= updateParticleCount z1 <= 32000)%Z /\
  (updateParticleCount z1 <= updateParticleCount z2)%Z.
Proof.
  intro H.
  destruct (particleCount_slope z1 z2 H) as [S0 S1].
  destruct (particleCount_range z1) as [R0 R1].
  split; [| split; [| split; [| split; [| split]]]].
  - intro L. unfold updateParticleCount, particleCount.
    apply Qltb_lt in L. rewrite L. reflexivity.
  - intro L. unfold updateParticleCount, particleCount.
    assert (N : forall c, c <= 11 -> Qltb z1 c = false)
      by (intros c Hc; apply Qltb_ge; lra).
    rewrite !N by discriminate. reflexivity.
  - lra.
  - exact S1.
  - unfold updateParticleCount. split.
    + change 4000%Z with (round (inject_Z 4000)). now apply round_mono.
    + change 32000%Z with (round (inject_Z 32000)). now apply round_mono.
  - unfold updateParticleCount. apply round_mono. lra.
Qed.

Lemma updateParticleCount_shape_witness :
  4 <= 6 /\
  (4 < 3 -> updateParticleCount 4 = 4000%Z) /\
  (11 <= 4 -> updateParticleCount 4 = 32000%Z) /\
  particleCount 4 <= particleCount 6 /\
  particleCount 6 - particleCount 4 <= 4000 * (6 - 4) /\
  (4000 <= updateParticleCount 4 <= 32000)%Z /\
  (updateParticleCount 4 <= updateParticleCount 6)%Z.
Proof.
  assert (H : 4 <= 6) by discriminate.
  split; [exact H |]. exact (updateParticleCount_shape 4 6 H).
Defined.

Example updateParticleCount_values :
  map updateParticleCount [2; 4; 6; 6.5; 8; 10; 12]
  = [4000; 6000; 12000; 14000; 20000; 28000; 32000]%Z.
Proof. reflexivity. Qed.

End PageProps.

Section PopupProps.

Import Popup.

Lemma sector_eq (d : Q) : d / 22.5 == d * (2 # 45).
Proof. field. Qed.

Lemma directions_entry (i : Z) :
  (0 <= i < 16)%Z ->
  SkiaRender.itemAt directions i = nth_error directions (Z.to_nat i) /\
  SkiaRender.itemAt directions i <> None.
Proof.
  intro H.
  assert (C : (i = 0 \/ i = 1 \/ i = 2 \/ i = 3 \/ i = 4 \/ i = 5 \/ i = 6 \/ i = 7
               \/ i = 8 \/ i = 9 \/ i = 10 \/ i = 11 \/ i = 12 \/ i = 13 \/ i = 14
               \/ i = 15)%Z) by lia.
  repeat (destruct C as [-> | C]; [split; [reflexivity | discriminate] |]).
  subst. split; [reflexivity | discriminate].
Qed.

Lemma itemAt_negative {A : Type} (l : list A) (i : Z) :
  (i < 0)%Z -> SkiaRender.itemAt l i = None.
Proof.
  intro H. unfold SkiaRender.itemAt. apply Z.ltb_lt in H. now rewrite H.
Qed.

Lemma round_nonneg (a : Q) : -(1 # 2) <= a -> (0 <= round a)%Z.
Proof. intro H. apply floor_nonneg. lra. Qed.

Lemma round_negative (a : Q) : a < -(1 # 2) -> (round a < 0)%Z.
Proof. intro H. apply floor_neg. lra. Qed.

Lemma directionIndex_sector (d : Q) (n k : Z) :
  (0 <= n)%Z -> (0 <= k < 16)%Z ->
  inject_Z (16 * n + k) * 22.5 - 11.25 <= d ->
  d < inject_Z (16 * n + k) * 22.5 + 11.25 ->
  directionIndex d = k.
Proof.
  intros Hn Hk H0 H1. unfold directionIndex.
  assert (R : round (d / 22.5) = (16 * n + k)%Z).
  { unfold round. apply floor_between.
    - rewrite sector_eq. lra.
    - rewrite sector_eq, inject_Z_plus. change (inject_Z 1) with 1. lra. }
  rewrite R. rewrite Z.rem_mod_nonneg by lia.
  rewrite Z.add_comm, Z.mul_comm, Z_mod_plus_full. apply Z.mod_small. lia.
Qed.

(** X24.  The compass point of a wind direction: [getWindDirection]
    returns a compass point for every direction from -11.25 degrees on;
    the point [k] of the sixteen is the one of the directions within
    11.25 degrees of [k * 22.5], the lower end included, in every turn of
    the compass from the first on; for a direction below -11.25 degrees
    it returns [undefined], unless the direction rounds to a whole number
    of turns. *)
Theorem getWindDirection_sectors (d : Q) (n k : Z) :
  (-11.25 <= d -> getWindDirection d <> None) /\
  ((0 <= n)%Z -> (0 <= k < 16)%Z ->
   inject_Z (16 * n + k) * 22.5 - 11.25 <= d ->
   d < inject_Z (16 * n + k) * 22.5 + 11.25 ->
   getWindDirection d = nth_error directions (Z.to_nat k)) /\
  (getWindDirection d = None <->
   d < -11.25 /\ (round (d / 22.5) mod 16 <> 0)%Z).
Proof.
  assert (Pos : -11.25 <= d -> (0 <= directionIndex d < 16)%Z).
  { intro H. unfold directionIndex.
    assert (0 <= round (d / 22.5))%Z by (apply round_nonneg; rewrite sector_eq; lra).
    rewrite Z.rem_mod_nonneg by lia. apply Z.mod_pos_bound. lia. }
  split; [| split].
  - intro H. apply directions_entry. now apply Pos.
  - intros Hn Hk H0 H1. unfold getWindDirection.
    rewrite (directionIndex_sector d n k Hn Hk H0 H1).
    now apply directions_entry.
  - split.
    + intro H.
      destruct (Qlt_le_dec d (-11.25)) as [L | L].
      * split; [exact L |]. intro M.
        unfold getWindDirection, directionIndex in H.
        apply Z.rem_mod_eq_0 in M; [| discriminate].
        rewrite M in H. discriminate.
      * exfalso. revert H. apply directions_entry. now apply Pos.
    + intros [L M]. unfold getWindDirection. apply itemAt_negative.
      unfold directionIndex.
      assert (R : (round (d / 22.5) < 0)%Z)
        by (apply round_negative; rewrite sector_eq; lra).
      assert (B : (Z.rem (round (d / 22.5)) 16 <= 0)%Z)
        by (apply Z.rem_nonpos; [discriminate | lia]).
      assert (N : Z.rem (round (d / 22.5)) 16 <> 0%Z).
      { intro E. apply M. apply Z.rem_mod_eq_0; [discriminate | exact E]. }
      lia.
Qed.

Lemma getWindDirection_sectors_witness :
  (0 <= 1)%Z /\ (0 <= 12 < 16)%Z /\
  inject_Z (16 * 1 + 12) * 22.5 - 11.25 <= 620 /\
  620 < inject_Z (16 * 1 + 12) * 22.5 + 11.25 /\
  getWindDirection 620 = nth_error directions (Z.to_nat 12).
Proof.
  assert (A : (0 <= 1)%Z) by discriminate.
  assert (B : (0 <= 12 < 16)%Z) by (split; [discriminate | reflexivity]).
  assert (C : inject_Z (16 * 1 + 12) * 22.5 - 11.25 <= 620) by discriminate.
  assert (D : 620 < inject_Z (16 * 1 + 12) * 22.5 + 11.25) by reflexivity.
  split; [exact A |]. split; [exact B |]. split; [exact C |]. split; [exact D |].
  exact (proj1 (proj2 (getWindDirection_sectors 620 1 12)) A B C D).
Defined.

Section SectorExamples.

Import String.

Example west_wind :
  getWindDirection 270 = Some "W"%string /\ getWindDirection 281.25 = Some "WNW"%string /\
  getWindDirection (-90) = None /\ getWindDirection (-360) = Some "N"%string.
Proof. repeat split. Qed.

End SectorExamples.

Ltac force_of s :=
  destruct (Qltb s 1) eqn:?;
  [| destruct (Qltb s 6) eqn:?;
  [| destruct (Qltb s 12) eqn:?;
  [| destruct (Qltb s 20) eqn:?;
  [| destruct (Qltb s 29) eqn:?;
  [| destruct (Qltb s 39) eqn:?;
  [| destruct (Qltb s 50) eqn:?;
  [| destruct (Qltb s 62) eqn:?;
  [| destruct (Qltb s 75) eqn:?;
  [| destruct (Qltb s 89) eqn:?;
  [| destruct (Qltb s 103) eqn:?;
  [| destruct (Qltb s 118) eqn:? ]]]]]]]]]]].

Lemma beaufort_range (s : Q) : (0 <= scale (getBeaufortScale s) <= 12)%Z.
Proof. unfold getBeaufortScale. force_of s; cbn [scale]; lia. Qed.

Lemma beaufort_threshold (s : Q) (k : Z) :
  (1 <= k <= 12)%Z ->
  ((k <= scale (getBeaufortScale s))%Z <-> threshold k <= s).
Proof.
  intro Hk.
  assert (C : (k = 1 \/ k = 2 \/ k = 3 \/ k = 4 \/ k = 5 \/ k = 6 \/ k = 7
               \/ k = 8 \/ k = 9 \/ k = 10 \/ k = 11 \/ k = 12)%Z) by lia.
  unfold getBeaufortScale.
  force_of s; cbn [scale]; tiers;
    repeat (destruct C as [C | C]; [subst k; cbn [threshold]; split; intro; (lia || lra) |]);
    subst k; cbn [threshold]; split; intro; (lia || lra).
Qed.

(** X25.  The Beaufort number grows with the speed: [getBeaufortScale]
    returns a number from 0 to 12 that never decreases when the speed
    grows, and the number is at least [k], for [k] from 1 to 12, exactly
    when the speed is at least the lower end of [k], that is 1, 6, 12,
    20, 29, 39, 50, 62, 75, 89, 103 and 118 km/h. *)
Theorem getBeaufortScale_monotone (s1 s2 : Q) (k : Z) :
  (0 <= scale (getBeaufortScale s1) <= 12)%Z /\
  (s1 <= s2 -> (scale (getBeaufortScale s1) <= scale (getBeaufortScale s2))%Z) /\
  ((1 <= k <= 12)%Z ->
   ((k <= scale (getBeaufortScale s1))%Z <-> threshold k <= s1)).
Proof.
  split; [apply beaufort_range |]. split; [| apply beaufort_threshold].
  intro H.
  pose proof (beaufort_range s1) as R1. pose proof (beaufort_range s2) as R2.
  destruct (Z.eq_dec (scale (getBeaufortScale s1)) 0) as [E | E]; [lia |].
  apply (beaufort_threshold s2 (scale (getBeaufortScale s1))); [lia |].
  assert (T : threshold (scale (getBeaufortScale s1)) <= s1)
    by (apply (beaufort_threshold s1); lia).
  lra.
Qed.

Lemma getBeaufortScale_monotone_witness :
  30 <= 45 /\
  (scale (getBeaufortScale 30) <= scale (getBeaufortScale 45))%Z.
Proof.
  assert (A : 30 <= 45) by discriminate.
  split; [exact A |].
  exact (proj1 (proj2 (getBeaufortScale_monotone 30 45 1)) A).
Defined.

End PopupProps.

(** * The cross-fade *)

Section CrossfadeProps.

Import Crossfade.

Lemma ease_spec (p : Q) :
  (p < 1 # 2 /\ ease p == 2 * p * p) \/
  (1 # 2 <= p /\ ease p == 1 - (2 - 2 * p) * (2 - 2 * p) * (1 # 2)).
Proof.
  unfold ease. destruct (Qltb p 0.5) eqn:E; tiers.
  - left. split; [lra | reflexivity].
  - right. split; [lra |]. rewrite half_eq. ring.
Qed.

Lemma ease_range (p : Q) : 0 <= p -> p <= 1 -> 0 <= ease p /\ ease p <= 1.
Proof.
  intros H0 H1. destruct (ease_spec p) as [[L ->] | [L ->]]; split; nra.
Qed.

Lemma ease_mono (p q : Q) : 0 <= p -> p <= q -> q <= 1 -> ease p <= ease q.
Proof.
  intros H0 H H1.
  destruct (ease_spec p) as [[Lp ->] | [Lp ->]];
    destruct (ease_spec q) as [[Lq ->] | [Lq ->]]; nra.
Qed.

Lemma ease_one (p : Q) : p == 1 -> ease p == 1.
Proof.
  intro H. destruct (ease_spec p) as [[L _] | [_ ->]]; [lra | nra].
Qed.

(** The local [progress] of [animate]. *)
Lemma progress_spec (dur e : Q) :
  0 < dur -> 0 <= e ->
  let p := Qmin (e / dur) 1 in
  0 <= p /\ p <= 1 /\ (p < 1 <-> e < dur) /\ (e < dur -> p * dur == e).
Proof.
  intros Hd He. cbv zeta.
  assert (F0 : 0 <= e / dur) by (apply Qle_shift_div_l; lra).
  assert (F1 : e / dur * dur == e) by (field; lra).
  destruct (Qmin_cases (e / dur) 1) as [[L ->] | [L ->]].
  - split; [exact F0 |]. split; [exact L |]. split; [split; intro; nra |].
    intros _. exact F1.
  - split; [lra |]. split; [lra |]. split; [split; intro; nra |].
    intro K. nra.
Qed.

Lemma progress_mono (dur e e' : Q) :
  0 < dur -> 0 <= e -> e <= e' -> Qmin (e / dur) 1 <= Qmin (e' / dur) 1.
Proof.
  intros Hd He H. apply Qmin_mono.
  apply Qle_shift_div_l; [assumption |].
  assert (F1 : e / dur * dur == e) by (field; lra). lra.
Qed.

Lemma animate_spec (target dur start t : Q) :
  0 < dur -> start <= t ->
  let f := animate target dur start t in
  let p := Qmin ((t - start) / dur) 1 in
  fromOpacity f == target * (1 - ease p) /\
  toOpacity f == target * ease p /\
  finished f = negb (Qltb p 1).
Proof.
  intros Hd Ht. cbv zeta. unfold animate. cbv zeta.
  destruct (progress_spec dur (t - start) Hd ltac:(lra)) as (P0 & P1 & P2 & _).
  destruct (Qltb (Qmin ((t - start) / dur) 1) 1) eqn:E; tiers.
  - cbn [fromOpacity toOpacity finished]. repeat split; reflexivity.
  - cbn [fromOpacity toOpacity finished].
    rewrite (ease_one (Qmin ((t - start) / dur) 1)) by lra.
    split; [ring |]. split; [ring | reflexivity].
Qed.

(** X26.  A frame of the cross-fade, for a positive duration, a target
    opacity of 0 or more and frames not before the start: the opacities
    of the two layers add up to the target opacity; the opacity of the
    layer faded in lies between 0 and the target and never decreases from
    a frame to a later one; the animation is over exactly from
    [crossfadeDuration] after the start on, with the layer faded out left
    at 0 and the other at the target. *)
Theorem crossfade_frame (target dur start t t' : Q) :
  0 < dur -> 0 <= target -> start <= t -> t <= t' ->
  let f := animate target dur start t in
  let f' := animate target dur start t' in
  fromOpacity f + toOpacity f == target /\
  0 <= toOpacity f /\ toOpacity f <= target /\
  toOpacity f <= toOpacity f' /\
  (finished f = true <-> start + dur <= t) /\
  (finished f = true -> fromOpacity f == 0 /\ toOpacity f == target).
Proof.
  intros Hd Hg Ht Ht'. cbv zeta.
  destruct (animate_spec target dur start t Hd Ht) as (F & T & D).
  destruct (animate_spec target dur start t' Hd ltac:(lra)) as (_ & T' & _).
  destruct (progress_spec dur (t - start) Hd ltac:(lra)) as (P0 & P1 & P2 & _).
  destruct (progress_spec dur (t' - start) Hd ltac:(lra)) as (P0' & P1' & _ & _).
  pose proof (progress_mono dur (t - start) (t' - start) Hd ltac:(lra) ltac:(lra)) as M.
  destruct (ease_range _ P0 P1) as [E0 E1].
  pose proof (ease_mono _ _ P0 M P1') as EM.
  assert (Fin : finished (animate target dur start t) = true <-> start + dur <= t).
  { rewrite D. destruct (Qltb (Qmin ((t - start) / dur) 1) 1) eqn:E; tiers; cbn [negb].
    - split; [discriminate |]. intro K. apply P2 in E. lra.
    - split; [| reflexivity]. intros _.
      destruct (Qlt_le_dec (t - start) dur) as [L | L]; [| lra].
      apply P2 in L. lra. }
  split; [rewrite F, T; ring |].
  split; [rewrite T; nra |]. split; [rewrite T; nra |].
  split; [rewrite T, T'; nra |].
  split; [exact Fin |].
  intro K. rewrite D in K.
  destruct (Qltb (Qmin ((t - start) / dur) 1) 1) eqn:E; [discriminate |]. tiers.
  rewrite F, T. rewrite (ease_one (Qmin ((t - start) / dur) 1)) by lra.
  split; ring.
Qed.

Lemma crossfade_frame_witness :
  0 < 400 /\ 0 <= 0.7 /\ 1000 <= 1100 /\ 1100 <= 1300 /\
  fromOpacity (animate 0.7 400 1000 1100) + toOpacity (animate 0.7 400 1000 1100) == 0.7 /\
  0 <= toOpacity (animate 0.7 400 1000 1100) /\
  toOpacity (animate 0.7 400 1000 1100) <= 0.7 /\
  toOpacity (animate 0.7 400 1000 1100) <= toOpacity (animate 0.7 400 1000 1300) /\
  (finished (animate 0.7 400 1000 1100) = true <-> 1000 + 400 <= 1100) /\
  (finished (animate 0.7 400 1000 1100) = true ->
   fromOpacity (animate 0.7 400 1000 1100) == 0 /\
   toOpacity (animate 0.7 400 1000 1100) == 0.7).
Proof.
  assert (A : 0 < 400) by reflexivity.
  assert (B : 0 <= 0.7) by discriminate.
  assert (C : 1000 <= 1100) by discriminate.
  assert (D : 1100 <= 1300) by discriminate.
  split; [exact A |]. split; [exact B |]. split; [exact C |]. split; [exact D |].
  exact (crossfade_frame 0.7 400 1000 1100 1300 A B C D).
Defined.

Example crossfade_quarter_half :
  toOpacity (animate 1 400 0 100) == 1 # 8 /\
  toOpacity (animate 1 400 0 200) == 1 # 2 /\
  toOpacity (animate 1 400 0 300) == 7 # 8 /\
  finished (animate 1 400 0 400) = true.
Proof. repeat split. Qed.

End CrossfadeProps.

(** * The preloaded raster layers *)

Section PreloadedProps.

Import String Preloaded.

Lemma setPaint_absent (k : string) (v : Q) (p : list (string * Q)) :
  hasLayer p k = false -> setPaint k v p = p.
Proof.
  unfold hasLayer, setPaint. induction p as [| e p IH]; cbn; [reflexivity |].
  intro H. apply orb_false_iff in H. destruct H as [H1 H2].
  rewrite H1. now rewrite IH.
Qed.

Lemma in_setPaint (k : string) (v : Q) (p : list (string * Q)) (h : string) (o : Q) :
  In (h, o) (setPaint k v p) ->
  (h = k /\ o = v) \/ (h <> k /\ In (h, o) p).
Proof.
  unfold setPaint. intro H. apply in_map_iff in H.
  destruct H as ([h' o'] & E & Hin). cbn [fst] in E.
  destruct (String.eqb h' k) eqn:K.
  - apply String.eqb_eq in K. injection E as <- <-. left. now split.
  - apply String.eqb_neq in K. injection E as <- <-. right. now split.
Qed.

Lemma setPaint_keys (k : string) (v : Q) (p : list (string * Q)) :
  map fst (setPaint k v p) = map fst p.
Proof.
  unfold setPaint. rewrite map_map. apply map_ext. intros [h o]. cbn.
  now destruct (String.eqb h k).
Qed.

Lemma hasLayer_false (p : list (string * Q)) (k : string) (o : Q) :
  hasLayer p k = false -> ~ In (k, o) p.
Proof.
  unfold hasLayer. intros H Hin.
  assert (E : existsb (fun e => String.eqb (fst e) k) p = true).
  { apply existsb_exists. exists (k, o). split; [exact Hin | apply String.eqb_refl]. }
  congruence.
Qed.

(** The paint [setActiveForecast] leaves when there is a map and the
    layers are ready. *)
Lemma setActiveForecast_paint (st : State) (h : string) :
  hasMap st = true -> isReady st = true ->
  activeForecast (setActiveForecast st h) = Some h /\
  opacity (setActiveForecast st h) = opacity st /\
  paint (setActiveForecast st h)
  = match activeForecast st with
    | Some q =>
        if (truthy q && negb (String.eqb q h))%bool
        then setPaint q 0 (setPaint h (opacity st) (paint st))
        else setPaint h (opacity st) (paint st)
    | None => setPaint h (opacity st) (paint st)
    end.
Proof.
  intros Hm Hr. unfold setActiveForecast. rewrite Hm, Hr. cbn [negb orb].
  cbv zeta. cbn [activeForecast opacity paint].
  split; [reflexivity |]. split; [reflexivity |].
  assert (P1 : (if hasLayer (paint st) h
                then setPaint h (opacity st) (paint st) else paint st)
               = setPaint h (opacity st) (paint st)).
  { destruct (hasLayer (paint st) h) eqn:E; [reflexivity |].
    symmetry. now apply setPaint_absent. }
  rewrite P1.
  destruct (activeForecast st) as [q |]; [| reflexivity].
  destruct (truthy q && negb (String.eqb q h))%bool; [| reflexivity].
  destruct (hasLayer _ q) eqn:E; [reflexivity |].
  symmetry. now apply setPaint_absent.
Qed.

Lemma setActiveForecast_keeps (st : State) (h : string) :
  exclusive st -> named st -> exclusive (setActiveForecast st h).
Proof.
  intros Hex Hn.
  destruct (hasMap st) eqn:Hm;
    [| unfold setActiveForecast; rewrite Hm; exact Hex].
  destruct (isReady st) eqn:Hr;
    [| unfold setActiveForecast; rewrite Hm, Hr; exact Hex].
  destruct (setActiveForecast_paint st h Hm Hr) as (Ea & Eo & Ep).
  unfold exclusive. rewrite Ea, Eo, Ep. intros h' o' Hin.
  assert (Base : forall h1 o1, In (h1, o1) (setPaint h (opacity st) (paint st)) ->
                   (h1 = h /\ o1 = opacity st) \/
                   (h1 <> h /\ In (h1, o1) (paint st))).
  { intros h1 o1. apply in_setPaint. }
  assert (Fin : (h' = h /\ o' = opacity st) \/
                (h' <> h /\ o' = 0)).
  { unfold named in Hn.
    destruct (activeForecast st) as [q |] eqn:Eq.
    - destruct (truthy q && negb (String.eqb q h))%bool eqn:T.
      + apply andb_true_iff in T. destruct T as [_ T].
        apply negb_true_iff in T. apply String.eqb_neq in T.
        apply in_setPaint in Hin. destruct Hin as [[-> ->] | [Hq Hin]].
        * right. now split.
        * apply Base in Hin. destruct Hin as [[-> ->] | [Hh Hin]]; [now left |].
          right. split; [exact Hh |].
          apply (Hex h' o' Hin). rewrite Eq. congruence.
      + apply Base in Hin. destruct Hin as [[-> ->] | [Hh Hin]]; [now left |].
        right. split; [exact Hh |].
        apply (Hex h' o' Hin). rewrite Eq.
        apply andb_false_iff in T. destruct T as [T | T].
        * unfold truthy in T. apply negb_false_iff in T. apply String.eqb_eq in T.
          subst q. contradiction.
        * apply negb_false_iff in T. apply String.eqb_eq in T. subst q. congruence.
    - apply Base in Hin. destruct Hin as [[-> ->] | [Hh Hin]]; [now left |].
      right. split; [exact Hh |].
      apply (Hex h' o' Hin). rewrite Eq. discriminate. }
  destruct Fin as [[-> ->] | [Hh ->]].
  - split; [reflexivity | intro K; contradiction].
  - split; [intro K; congruence | reflexivity].
Qed.

Lemma setOpacity_keeps (st : State) (o : Q) :
  exclusive st -> named st -> hasMap st = true -> exclusive (setOpacity st o).
Proof.
  intros Hex Hn Hm. unfold setOpacity. cbv zeta.
  destruct (activeForecast st) as [a |] eqn:Ea.
  - rewrite Hm. cbn [negb orb].
    assert (T : truthy a = true).
    { unfold truthy. apply negb_true_iff. apply String.eqb_neq.
      intro K. subst a. now apply Hn. }
    rewrite T. cbn [negb].
    destruct (hasLayer (paint st) a) eqn:L.
    + unfold exclusive. cbn [paint activeForecast opacity]. intros h o' Hin.
      apply in_setPaint in Hin. destruct Hin as [[-> ->] | [Hh Hin]].
      * split; [reflexivity | rewrite ?Ea; intro K; contradiction].
      * split; [rewrite ?Ea; intro K; congruence |].
        intros _. apply (Hex h o' Hin). rewrite ?Ea. congruence.
    + unfold exclusive. cbn [paint activeForecast opacity]. intros h o' Hin.
      split.
      * rewrite ?Ea. intro K. injection K as ->.
        exfalso. revert Hin. now apply hasLayer_false.
      * intro K. apply (Hex h o' Hin). rewrite Ea. exact K.
  - unfold exclusive. cbn [paint activeForecast opacity]. intros h o' Hin.
    split; [rewrite ?Ea; discriminate |]. intros _. apply (Hex h o' Hin).
    rewrite ?Ea. discriminate.
Qed.

(** X27.  One forecast hour shown at a time: when only the layer of the
    active forecast hour may be visible, at the opacity of [opacityRef],
    and the active hour is not the empty string, this still holds after
    [setActiveForecast] and, when there is a map, after [setOpacity].
    With a map and the layers ready, [setActiveForecast] makes the hour
    the active one and changes no other layer's key; when the hour has no
    layer, every layer is left at opacity 0. *)
Theorem preloaded_exclusive (st : State) (h : string) (o : Q) :
  exclusive st -> named st ->
  exclusive (setActiveForecast st h) /\
  (hasMap st = true -> exclusive (setOpacity st o)) /\
  (hasMap st = true -> isReady st = true ->
   activeForecast (setActiveForecast st h) = Some h /\
   map fst (paint (setActiveForecast st h)) = map fst (paint st) /\
   (hasLayer (paint st) h = false ->
    Forall (fun e => snd e = 0) (paint (setActiveForecast st h)))).
Proof.
  intros Hex Hn.
  pose proof (setActiveForecast_keeps st h Hex Hn) as K.
  split; [exact K |]. split; [now apply setOpacity_keeps |].
  intros Hm Hr.
  destruct (setActiveForecast_paint st h Hm Hr) as (Ea & Eo & Ep).
  split; [exact Ea |]. split.
  - rewrite Ep. destruct (activeForecast st) as [q |];
      [destruct (truthy q && negb (String.eqb q h))%bool |];
      rewrite ?setPaint_keys; reflexivity.
  - intro L. apply Forall_forall. intros [h' o'] Hin. cbn [snd].
    assert (Keys : In h' (map fst (paint st))).
    { assert (E : map fst (paint (setActiveForecast st h)) = map fst (paint st)).
      { rewrite Ep. destruct (activeForecast st) as [q |];
          [destruct (truthy q && negb (String.eqb q h))%bool |];
          rewrite ?setPaint_keys; reflexivity. }
      rewrite <- E. apply in_map_iff. exists (h', o'). now split. }
    apply (K h' o' Hin). rewrite Ea. intro E. injection E as <-.
    apply in_map_iff in Keys. destruct Keys as ([h2 o2] & E2 & Hin2).
    cbn in E2. subst h2. revert Hin2. now apply hasLayer_false.
Qed.

Lemma threeHours_exclusive : exclusive threeHours.
Proof.
  intros h o Hin. cbn in Hin.
  destruct Hin as [E | [E | [E | []]]]; injection E as <- <-;
    (split; [intro K; (reflexivity || discriminate K)
            | intro K; (reflexivity || (exfalso; apply K; reflexivity))]).
Defined.

Lemma threeHours_named : named threeHours.
Proof. discriminate. Defined.

Lemma preloaded_exclusive_witness :
  exclusive threeHours /\ named threeHours /\
  exclusive (setActiveForecast threeHours "02"%string) /\
  (hasMap threeHours = true -> exclusive (setOpacity threeHours 0.5)) /\
  (hasMap threeHours = true -> isReady threeHours = true ->
   activeForecast (setActiveForecast threeHours "02"%string) = Some "02"%string /\
   map fst (paint (setActiveForecast threeHours "02"%string)) = map fst (paint threeHours) /\
   (hasLayer (paint threeHours) "02"%string = false ->
    Forall (fun e => snd e = 0) (paint (setActiveForecast threeHours "02"%string)))).
Proof.
  split; [exact threeHours_exclusive |]. split; [exact threeHours_named |].
  exact (preloaded_exclusive threeHours "02"%string 0.5 threeHours_exclusive threeHours_named).
Defined.

Example switch_to_third :
  paint (setActiveForecast threeHours "02"%string) = [ ("00"%string, 0); ("01"%string, 0); ("02"%string, 0.7) ] /\
  paint (setActiveForecast threeHours "07"%string) = [ ("00"%string, 0); ("01"%string, 0); ("02"%string, 0) ].
Proof. split; reflexivity. Qed.

End PreloadedProps.

(** * The mock field of the example screen *)

Section MockProps.

Import Skia Mock.

Lemma mock_byte (r : Q) :
  0 <= r -> r < 1 ->
  (78 <= toUint8 (floor (r * 100) + 78) <= 177)%Z.
Proof.
  intros H0 H1.
  pose proof (floor_unit_scale r 100 H0 H1 ltac:(reflexivity)) as F.
  change (inject_Z 100) with 100 in F.
  unfold toUint8. rewrite Z.mod_small; lia.
Qed.

Lemma fill_spec (n : nat) :
  forall g, unit_draws g ->
    length (fst (fill n g)) = (4 * n)%nat /\
    Forall (fun b => (0 <= b <= 255)%Z) (fst (fill n g)) /\
    forall k, (k < n)%nat ->
      exists r gr,
        nth_error (fst (fill n g)) (4 * k) = Some r /\
        nth_error (fst (fill n g)) (4 * k + 1) = Some gr /\
        nth_error (fst (fill n g)) (4 * k + 3) = Some 255%Z /\
        (78 <= r <= 177)%Z /\ (78 <= gr <= 177)%Z.
Proof.
  induction n as [| n IH]; intros g Hg.
  - cbn. split; [reflexivity |]. split; [constructor |]. intros k Hk. lia.
  - cbn [fill]. unfold random.
    assert (Hg2 : unit_draws (fun m => g (S (S m)))) by (intro m; apply Hg).
    destruct (IH _ Hg2) as (L & B & N).
    destruct (fill n (fun m => g (S (S m)))) as [rest g3]. cbn [fst] in *.
    pose proof (mock_byte (g 0%nat) (proj1 (Hg 0%nat)) (proj2 (Hg 0%nat))) as R1.
    pose proof (mock_byte (g 1%nat) (proj1 (Hg 1%nat)) (proj2 (Hg 1%nat))) as R2.
    split; [cbn [length]; lia |]. split.
    + repeat (constructor; [first [lia | split; discriminate] |]). exact B.
    + intros k Hk. destruct k as [| k].
      * do 2 eexists. cbn [Nat.mul Nat.add nth_error].
        split; [reflexivity |]. split; [reflexivity |]. split; [reflexivity |].
        split; assumption.
      * destruct (N k ltac:(lia)) as (r & gr & N1 & N2 & N3 & N4 & N5).
        exists r, gr.
        replace (4 * S k)%nat with (S (S (S (S (4 * k))))) by lia.
        cbn [Nat.add nth_error].
        split; [exact N1 |]. split; [exact N2 |]. split; [exact N3 |].
        split; assumption.
Qed.

Lemma mock_decode (b : Z) :
  (78 <= b <= 177)%Z ->
  -(39 # 2) < (inject_Z b / 255) * 100 - 50 /\ (inject_Z b / 255) * 100 - 50 < 39 # 2.
Proof.
  intros [H0 H1].
  assert (Q0 : 78 <= inject_Z b) by (change 78 with (inject_Z 78); now rewrite <- Zle_Qle).
  assert (Q1 : inject_Z b <= 177) by (change 177 with (inject_Z 177); now rewrite <- Zle_Qle).
  assert (E : inject_Z b / 255 == inject_Z b * (1 # 255)) by field.
  rewrite E. split; lra.
Qed.

(** X28.  The mock field of the example screen has a wind everywhere:
    for draws in [[0, 1)] the buffer [fetchWindData] fills holds
    [4 * width * height] bytes, and under every particle inside the grid
    the alpha byte is 255 and the red and green bytes lie in
    [[78, 177]], so that [updateParticles] finds a valid sample there,
    of less than 19.5 m/s in each component. *)
Theorem mock_field_valid (w h : Z) (g : Rng) (p : Particle) :
  (0 < w)%Z -> (0 < h)%Z -> unit_draws g -> inGrid (mockField w h g) p ->
  Z.of_nat (length (data (mockField w h g))) = (4 * w * h)%Z /\
  Forall (fun b => (0 <= b <= 255)%Z) (data (mockField w h g)) /\
  exists r gr,
    pixelUnder (mockField w h g) p = Some (r, gr, 255%Z) /\
    Qabs ((inject_Z r / 255) * 100 - 50) < 39 # 2 /\
    Qabs ((inject_Z gr / 255) * 100 - 50) < 39 # 2.
Proof.
  intros Hw Hh Hg (X0 & X1 & Y0 & Y1).
  cbn [mockField width height] in X1, Y1.
  destruct (fill_spec (Z.to_nat (w * h)) g Hg) as (L & B & N).
  split; [cbn [mockField data]; rewrite L; nia |].
  split; [exact B |].
  assert (PX0 : (0 <= floor (x p))%Z) by now apply floor_nonneg.
  assert (PX1 : (floor (x p) < w)%Z) by now apply floor_lt_inject.
  assert (PY0 : (0 <= floor (y p))%Z) by now apply floor_nonneg.
  assert (PY1 : (floor (y p) < h)%Z) by now apply floor_lt_inject.
  set (k := Z.to_nat (floor (y p) * w + floor (x p))).
  assert (Hk : (k < Z.to_nat (w * h))%nat) by (unfold k; nia).
  destruct (N k Hk) as (r & gr & N1 & N2 & N3 & R1 & R2).
  exists r, gr. split.
  - unfold pixelUnder. cbv zeta. cbn [mockField width height data].
    apply Z.leb_le in PX0, PY0. apply Z.ltb_lt in PX1, PY1.
    rewrite PX0, PX1, PY0, PY1. cbn [andb].
    apply Z.leb_le in PX0, PY0. apply Z.ltb_lt in PX1, PY1.
    assert (I0 : forall j, (0 <= j)%Z ->
               byteAt (fst (fill (Z.to_nat (w * h)) g))
                 ((floor (y p) * w + floor (x p)) * 4 + j)
               = nth_error (fst (fill (Z.to_nat (w * h)) g)) (4 * k + Z.to_nat j)).
    { intros j Hj. unfold byteAt.
      destruct (_ <? 0)%Z eqn:E; [apply Z.ltb_lt in E; nia |].
      f_equal. unfold k. nia. }
    rewrite <- (Z.add_0_r ((floor (y p) * w + floor (x p)) * 4)) at 1.
    rewrite (I0 0%Z), (I0 1%Z), (I0 3%Z) by lia.
    change (Z.to_nat 0) with 0%nat. change (Z.to_nat 1) with 1%nat.
    change (Z.to_nat 3) with 3%nat. rewrite Nat.add_0_r.
    rewrite N1, N2, N3. reflexivity.
  - destruct (mock_decode r R1). destruct (mock_decode gr R2).
    split; apply Qabs_case; intros; lra.
Qed.

Lemma midParticle_inGrid : inGrid (windData zeroDraws) midParticle.
Proof.
  unfold inGrid, windData. cbn [mockField width height midParticle x y].
  repeat split; reflexivity || discriminate.
Defined.

Lemma mock_field_valid_witness :
  (0 < mockWidth)%Z /\ (0 < mockHeight)%Z /\ unit_draws zeroDraws /\
  inGrid (windData zeroDraws) midParticle /\
  Z.of_nat (length (data (windData zeroDraws))) = (4 * mockWidth * mockHeight)%Z /\
  Forall (fun b => (0 <= b <= 255)%Z) (data (windData zeroDraws)) /\
  exists r gr,
    pixelUnder (windData zeroDraws) midParticle = Some (r, gr, 255%Z) /\
    Qabs ((inject_Z r / 255) * 100 - 50) < 39 # 2 /\
    Qabs ((inject_Z gr / 255) * 100 - 50) < 39 # 2.
Proof.
  assert (A : (0 < mockWidth)%Z) by reflexivity.
  assert (B : (0 < mockHeight)%Z) by reflexivity.
  split; [exact A |]. split; [exact B |]. split; [exact zeroDraws_unit |].
  split; [exact midParticle_inGrid |].
  exact (mock_field_valid mockWidth mockHeight zeroDraws midParticle A B
           zeroDraws_unit midParticle_inGrid).
Defined.

End MockProps.

(** * The tile preloader *)

Section PreloaderProps.

Import Preloader.

Lemma span_two : span 2 = [-2; -1; 0; 1; 2]%Z.
Proof. reflexivity. Qed.

Lemma flat_map_length_const {A B : Type} (f : A -> list B) (n : nat) (l : list A) :
  (forall a, length (f a) = n) -> length (flat_map f l) = (n * length l)%nat.
Proof.
  intro Hf. induction l as [| a l IH]; cbn [flat_map length]; [lia |].
  rewrite length_app, Hf, IH. lia.
Qed.

Lemma tilesToLoad_length {H : Type} (hours : list H) (tileX tileY : Z) :
  length (tilesToLoad hours tileX tileY) = (25 * length hours)%nat.
Proof.
  unfold tilesToLoad. cbv zeta.
  change (floor (inject_Z gridSize / 2)) with 2%Z. rewrite span_two.
  apply flat_map_length_const. intro h. reflexivity.
Qed.

Lemma tilesToLoad_near {H : Type} (hours : list H) (tileX tileY : Z) :
  Forall (fun t => In (fst (fst t)) hours /\
                   (Z.abs (snd (fst t) - tileX) <= 2)%Z /\
                   (Z.abs (snd t - tileY) <= 2)%Z)
    (tilesToLoad hours tileX tileY).
Proof.
  unfold tilesToLoad. cbv zeta.
  change (floor (inject_Z gridSize / 2)) with 2%Z. rewrite span_two.
  apply Forall_forall. intros [[h x] y] Hin.
  apply in_flat_map in Hin. destruct Hin as (h' & Hh & Hin).
  apply in_flat_map in Hin. destruct Hin as (dx & Hdx & Hin).
  apply in_map_iff in Hin. destruct Hin as (dy & E & Hdy).
  injection E as <- <- <-. cbn [fst snd].
  split; [exact Hh |]. cbn in Hdx, Hdy. lia.
Qed.

Lemma ratio_le (l l' t : Q) :
  0 < t -> l <= l' -> l / t * 100 <= l' / t * 100.
Proof.
  intros Ht H.
  assert (E : l / t <= l' / t).
  { apply Qle_shift_div_l; [assumption |].
    assert (F : l / t * t == l) by (field; lra). lra. }
  lra.
Qed.

Lemma progressAt_full (l t : Z) :
  (0 < t)%Z -> (0 <= l <= t)%Z ->
  (progressAt l t = 100%Z <-> (199 * t <= 200 * l)%Z).
Proof.
  intros Ht Hl. unfold progressAt, round.
  pose proof (inject_Z_pos t Ht) as Tq.
  assert (Lq : inject_Z l <= inject_Z t) by (rewrite <- Zle_Qle; lia).
  assert (F : inject_Z l / inject_Z t * inject_Z t == inject_Z l) by (field; lra).
  set (q := inject_Z l / inject_Z t) in *.
  assert (Q1 : q <= 1) by nra.
  assert (K : (199 * t <= 200 * l)%Z <-> 199 * inject_Z t <= 200 * inject_Z l).
  { change 199 with (inject_Z 199). change 200 with (inject_Z 200).
    rewrite <- !inject_Z_mult. now rewrite <- Zle_Qle. }
  rewrite K. split.
  - intro E.
    pose proof (Qfloor_le (q * 100 + (1 # 2))) as B.
    unfold floor in E. rewrite E in B.
    change (inject_Z 100) with 100 in B. nra.
  - intro E. apply floor_between.
    + change (inject_Z 100) with 100. nra.
    + change (inject_Z (100 + 1)) with 101. lra.
Qed.

(** X29.  The preload grid and its progress: [preloadTiles] lists 25
    tiles for each forecast hour, all within two tiles of the centre
    tile.  The progress shown when [loaded] of [total] tiles are done
    lies in [[0, 100]], never decreases with [loaded], and is 100 exactly
    when [199 * total <= 200 * loaded]: it shows 100 with one tile still
    to come exactly when there are 200 tiles or more.  [loadProgress] of
    the preloaded layers is the same number. *)
Theorem preload_progress {H : Type} (hours : list H) (tileX tileY : Z)
    (loaded loaded' total : Z) :
  (0 < total)%Z -> (0 <= loaded <= loaded')%Z -> (loaded' <= total)%Z ->
  length (tilesToLoad hours tileX tileY) = (25 * length hours)%nat /\
  Forall (fun t => In (fst (fst t)) hours /\
                   (Z.abs (snd (fst t) - tileX) <= 2)%Z /\
                   (Z.abs (snd t - tileY) <= 2)%Z)
    (tilesToLoad hours tileX tileY) /\
  (0 <= progressAt loaded total <= progressAt loaded' total)%Z /\
  (progressAt loaded' total <= 100)%Z /\
  (progressAt loaded total = 100%Z <-> (199 * total <= 200 * loaded)%Z) /\
  (progressAt (total - 1) total = 100%Z <-> (200 <= total)%Z) /\
  loadProgress loaded total = progressAt loaded total.
Proof.
  intros Ht Hl Hl'.
  pose proof (inject_Z_pos total Ht) as Tq.
  assert (L0 : 0 <= inject_Z loaded)
    by (change 0 with (inject_Z 0); rewrite <- Zle_Qle; lia).
  assert (L1 : inject_Z loaded <= inject_Z loaded') by (rewrite <- Zle_Qle; lia).
  assert (L2 : inject_Z loaded' <= inject_Z total) by (rewrite <- Zle_Qle; lia).
  split; [apply tilesToLoad_length |]. split; [apply tilesToLoad_near |].
  split; [split |]; [| | split; [| split; [| split]]].
  - unfold progressAt, round. apply floor_nonneg.
    assert (0 <= inject_Z loaded / inject_Z total) by (apply Qle_shift_div_l; lra).
    lra.
  - unfold progressAt. apply round_mono. now apply ratio_le.
  - unfold progressAt.
    assert (E : inject_Z loaded' / inject_Z total * 100 <= inject_Z 100).
    { assert (F : inject_Z loaded' / inject_Z total <= 1)
        by (apply Qle_shift_div_r; lra).
      change (inject_Z 100) with 100. lra. }
    apply round_mono in E. now rewrite round_inject in E.
  - apply progressAt_full; lia.
  - rewrite progressAt_full by lia. lia.
  - unfold loadProgress, progressAt. apply Z.ltb_lt in Ht. now rewrite Ht.
Qed.

Lemma preload_progress_witness :
  (0 < 200)%Z /\ (0 <= 100 <= 199)%Z /\ (199 <= 200)%Z /\
  length (tilesToLoad [0; 1; 2; 3; 4; 5; 6; 7]%Z 7 12) = (25 * 8)%nat /\
  (0 <= progressAt 100 200 <= progressAt 199 200)%Z /\
  (progressAt 199 200 <= 100)%Z /\
  (progressAt (200 - 1) 200 = 100%Z <-> (200 <= 200)%Z).
Proof.
  assert (A : (0 < 200)%Z) by reflexivity.
  assert (B : (0 <= 100 <= 199)%Z) by (split; discriminate).
  assert (C : (199 <= 200)%Z) by discriminate.
  split; [exact A |]. split; [exact B |]. split; [exact C |].
  destruct (preload_progress [0; 1; 2; 3; 4; 5; 6; 7]%Z 7 12 100 199 200 A B C)
    as (P1 & _ & P3 & P4 & _ & P6 & _).
  split; [exact P1 |]. split; [exact P3 |]. split; [exact P4 | exact P6].
Defined.

Example progress_199_of_200 :
  progressAt 199 200 = 100%Z /\ progressAt 198 200 = 99%Z /\
  progressAt 174 175 = 99%Z.
Proof. repeat split. Qed.

End PreloaderProps.
